(** * A prime counter fed through a lock-free queue: model and properties

    Shallow embedding of [new_primeCounter.c]: the primality test, the node
    arena, the Michael-Scott queue at the granularity of its shared-memory
    accesses, the worker loop and the producer in [main]; then the
    properties of the specification, proved over every interleaving of the
    producer with the workers.

    Conventions of the model:
    - the threads interleave at their accesses to shared memory, which is
      sequentially consistent; a step is one such access together with the
      thread-local computation up to the next one.  For the atomic
      operations ([atomic_load], [atomic_fetch_add], the compare-and-swaps)
      that is what the code asks for.  The loads of the plain fields
      [queue->head], [queue->tail] and [node->next] are taken one by one in
      the order of the source, which the code does not enforce:
      [deq_step_reordered] shows what another order of two of them does;
    - the input is the list of the integers that [scanf] delivers before
      [EOF] (an input that is not a sequence of integers is not modelled);
      [malloc], [pthread_create] and [pthread_join] do not fail; [usleep]
      only passes the turn;
    - a step function returns [None] when the thread cannot move, be it
      blocked, finished, or about to dereference a pointer that names no
      node; under the convention on the loads, [no_fault] shows that the
      last case does not arise;
    - the clean-up at the end of [main] is one step: what [freeQueue]
      passes to [free] is recorded in the event [Freed]; the memory is
      left as that step found it (afterwards [queue->head] is NULL and the
      queue, the arena and the thread handles are freed: nothing reads them
      again).  The second program of the repository, which reads into a
      buffer, is modelled in [Buffered]. *)

From Stdlib Require Import ZArith Znumtheory Lia List Bool.
From stdpp Require Import base tactics option list numbers gmap.

Local Open Scope Z_scope.

(** ** Machine integers

    [int] and [atomic_int] are 32-bit two's complement.  Values are kept in
    [Z]; every arithmetic result that is stored in an [int] goes through
    [wrap]. *)

Definition INT_MIN : Z := -2147483648.
Definition INT_MAX : Z := 2147483647.

Definition wrap (z : Z) : Z := (z + 2147483648) mod 4294967296 - 2147483648.

Definition in_int (z : Z) : Prop := INT_MIN <= z <= INT_MAX.

Definition in_intb (z : Z) : bool := (INT_MIN <=? z) && (z <=? INT_MAX).

(** ** The primality test: [isPrime] *)

Module Prime.

(** The [for] loop of [isPrime], entered with [i]; [fuel] bounds the number of
    iterations, [None] is fuel exhausted. *)
Fixpoint isPrime_loop (fuel : nat) (n i : Z) : option bool :=
  match fuel with
  | O => None
  | S fuel' =>
      if wrap (i * i) <=? n then
        if (Z.rem n i =? 0) || (Z.rem n (wrap (i + 2)) =? 0) then Some false
        else isPrime_loop fuel' n (wrap (i + 6))
      else Some true
  end.

Definition isPrime_fuel (fuel : nat) (n : Z) : option bool :=
  if n <=? 1 then Some false
  else if n <=? 3 then Some true
  else if (Z.rem n 2 =? 0) || (Z.rem n 3 =? 0) then Some false
  else isPrime_loop fuel n 5.

(** [n] iterations always suffice (see [isPrime_total]). *)
Definition isPrime (n : Z) : bool :=
  match isPrime_fuel (Z.to_nat n) n with
  | Some b => b
  | None => false
  end.

(** The same function under the C standard's reading, where a signed result
    that does not fit in [int] is undefined behaviour. *)
Inductive outcome : Type :=
  | Returns (b : bool)
  | Overflow
  | OutOfFuel.

Fixpoint isPrime_loop_std (fuel : nat) (n i : Z) : outcome :=
  match fuel with
  | O => OutOfFuel
  | S fuel' =>
      if in_intb (i * i) then
        if i * i <=? n then
          if Z.rem n i =? 0 then Returns false
          else if in_intb (i + 2) then
            if Z.rem n (i + 2) =? 0 then Returns false
            else if in_intb (i + 6) then isPrime_loop_std fuel' n (i + 6)
            else Overflow
          else Overflow
        else Returns true
      else Overflow
  end.

Definition isPrime_std (fuel : nat) (n : Z) : outcome :=
  if n <=? 1 then Returns false
  else if n <=? 3 then Returns true
  else if (Z.rem n 2 =? 0) || (Z.rem n 3 =? 0) then Returns false
  else isPrime_loop_std fuel n 5.

(** Trial division by every [d] with [lo <= d < lo + k], used to establish
    primality of concrete numbers. *)
Fixpoint no_divisor (k : nat) (lo n : Z) : bool :=
  match k with
  | O => true
  | S k' => negb (Z.rem n lo =? 0) && no_divisor k' (lo + 1) n
  end.

(** The first candidate whose square would leave [int]. *)
Definition FIRST_OVERFLOW : Z := 46337 * 46337.

End Prime.

Import Prime.


(** ** Memory: nodes, the queue, the arena *)

Definition MAX_QUEUE_SIZE : Z := 256.
Definition MEMORY_POOL_SIZE : Z := 10000000.

(** A [Node *] is either a block returned by [malloc], named by its
    allocation number, or the address [&pool->nodes[i]] of an arena slot.
    [NULL] is [None] in [option ptr]. *)
Inductive ptr : Type :=
  | Heap (a : nat)
  | Slot (i : Z).

#[global] Instance ptr_eq_dec : EqDecision ptr.
Proof. solve_decision. Defined.

Record Node : Type := mkNode { value : Z; next : option ptr }.

Record Queue : Type := mkQueue { head : ptr; tail : ptr; size : Z }.

(** The arena: of [nodes] only the [value] fields that were written are
    recorded, by slot number. *)
Record MemoryPool : Type := mkPool { nodes : gmap Z Z; index : Z }.

(** The memory the queue functions work on: the [malloc]ed nodes in
    allocation order and the [Queue] structure. *)
Record qmem : Type := mkMem { heap : list Node; queue : Queue }.

Definition node_at (m : qmem) (p : ptr) : option Node :=
  match p with
  | Heap a => heap m !! a
  | Slot _ => None
  end.

Definition set_next (m : qmem) (p : ptr) (nx : option ptr) : qmem :=
  match p with
  | Heap a => mkMem (alter (fun nd => mkNode (value nd) nx) a (heap m)) (queue m)
  | Slot _ => m
  end.

(** [__sync_bool_compare_and_swap] on [p->next], [queue->tail], [queue->head] *)
Definition cas_next (m : qmem) (p : ptr) (old new : option ptr) : option (bool * qmem) :=
  match node_at m p with
  | Some nd => if decide (next nd = old) then Some (true, set_next m p new)
               else Some (false, m)
  | None => None
  end.

Definition cas_tail (m : qmem) (old new : ptr) : bool * qmem :=
  if decide (tail (queue m) = old)
  then (true, mkMem (heap m) (mkQueue (head (queue m)) new (size (queue m))))
  else (false, m).

Definition cas_head (m : qmem) (old new : ptr) : bool * qmem :=
  if decide (head (queue m) = old)
  then (true, mkMem (heap m) (mkQueue new (tail (queue m)) (size (queue m))))
  else (false, m).

(** [atomic_fetch_add] / [atomic_fetch_sub] on [queue->size] *)
Definition add_size (m : qmem) (d : Z) : qmem :=
  mkMem (heap m) (mkQueue (head (queue m)) (tail (queue m)) (wrap (size (queue m) + d))).

(** [createQueue]: the dummy node's [value] is never initialised; [junk] is
    whatever the block holds. *)
Definition createQueue (junk : Z) : qmem :=
  mkMem [mkNode junk None] (mkQueue (Heap 0) (Heap 0) 0).

Definition createMemoryPool : MemoryPool := mkPool ∅ 0.

(** [allocateNode]: [None] is the fatal exit "Memory pool exhausted."; the
    index is incremented in both cases. *)
Definition allocateNode (pool : MemoryPool) : option ptr * MemoryPool :=
  let idx := index pool in
  let pool' := mkPool (nodes pool) (wrap (idx + 1)) in
  if MEMORY_POOL_SIZE <=? idx then (None, pool') else (Some (Slot idx), pool').

(** [node->value = num] and the read [node->value] on an arena slot *)
Definition store_value (pool : MemoryPool) (p : ptr) (v : Z) : MemoryPool :=
  match p with
  | Slot i => mkPool (<[i := v]> (nodes pool)) (index pool)
  | Heap _ => pool
  end.

Definition load_value (pool : MemoryPool) (p : ptr) : option Z :=
  match p with
  | Slot i => nodes pool !! i
  | Heap _ => None
  end.

(** ** Observable events *)

Inductive event : Type :=
  | Linked (v : Z)                      (* enqueue linked the node carrying v *)
  | Unlinked (w : nat) (v : Z)          (* dequeue by w moved head past v's node *)
  | Dequeued (w : nat) (v : Z) (node : ptr)  (* dequeue returned v and a node *)
  | Empty (w : nat)                     (* dequeue returned -1, no node *)
  | Classified (w : nat) (v : Z) (b : bool)  (* isPrime (v) was evaluated *)
  | Report (total : Z)                  (* "%d total primes." *)
  | Exhausted                           (* "Memory pool exhausted.", exit *)
  | Freed (ps : list ptr).              (* the blocks released by freeQueue *)

(** ** [enqueue], one shared-memory access per step

    A program point carries the locals that are live there. *)
Inductive epc : Type :=
  | EMalloc (value : Z)                                       (* line 78 *)
  | EReadTail (value : Z) (newNode : ptr)                     (* line 88 *)
  | EReadNext (value : Z) (newNode tail : ptr)                (* line 89 *)
  | ECheckTail (value : Z) (newNode tail : ptr) (next : option ptr) (* 90-91 *)
  | ECasNext (value : Z) (newNode tail : ptr)                 (* line 92 *)
  | ECasTail (newNode tail : ptr)                             (* line 93 *)
  | EIncSize                                                  (* line 94 *)
  | EHelp (value : Z) (newNode tail next : ptr).              (* line 98 *)

(** The result is the event, the memory and the next program point; no next
    program point means [enqueue] returned.  [None] is a memory fault. *)
Definition enq_step (m : qmem) (pc : epc) : option (option event * qmem * option epc) :=
  match pc with
  | EMalloc v =>
      Some (None, mkMem (heap m ++ [mkNode v None]) (queue m),
            Some (EReadTail v (Heap (length (heap m)))))
  | EReadTail v nw => Some (None, m, Some (EReadNext v nw (tail (queue m))))
  | EReadNext v nw tl =>
      match node_at m tl with
      | Some nd => Some (None, m, Some (ECheckTail v nw tl (next nd)))
      | None => None
      end
  | ECheckTail v nw tl nx =>
      if decide (tl = tail (queue m)) then
        match nx with
        | None => Some (None, m, Some (ECasNext v nw tl))
        | Some n => Some (None, m, Some (EHelp v nw tl n))
        end
      else Some (None, m, Some (EReadTail v nw))
  | ECasNext v nw tl =>
      match cas_next m tl None (Some nw) with
      | Some (true, m') => Some (Some (Linked v), m', Some (ECasTail nw tl))
      | Some (false, m') => Some (None, m', Some (EReadTail v nw))
      | None => None
      end
  | ECasTail nw tl => Some (None, snd (cas_tail m tl nw), Some EIncSize)
  | EIncSize => Some (None, add_size m 1, None)
  | EHelp v nw tl nx => Some (None, snd (cas_tail m tl nx), Some (EReadTail v nw))
  end.

(** ** [dequeue], one shared-memory access per step

    The loads of lines 108 to 111 are in the order of the source. *)
Inductive dpc : Type :=
  | DReadHead                                                 (* line 108 *)
  | DReadTail (head : ptr)                                    (* line 109 *)
  | DReadNext (head tail : ptr)                               (* line 110 *)
  | DCheckHead (head tail : ptr) (next : option ptr)          (* 111-113 *)
  | DHelp (tail next : ptr)                                   (* line 116 *)
  | DReadValue (head : ptr) (next : option ptr)               (* line 118 *)
  | DCasHead (head next : ptr) (value : Z)                    (* line 119 *)
  | DDecSize (head : ptr) (value : Z).                        (* 120-122 *)

(** What [dequeue] hands back: the returned [int] and, when it was written,
    [*dequeuedNode]. *)
Definition dresult : Type := (Z * option ptr)%type.

Definition deq_step (w : nat) (m : qmem) (pc : dpc)
  : option (option event * qmem * (dpc + dresult)) :=
  match pc with
  | DReadHead => Some (None, m, inl (DReadTail (head (queue m))))
  | DReadTail hd => Some (None, m, inl (DReadNext hd (tail (queue m))))
  | DReadNext hd tl =>
      match node_at m hd with
      | Some nd => Some (None, m, inl (DCheckHead hd tl (next nd)))
      | None => None
      end
  | DCheckHead hd tl nx =>
      if decide (hd = head (queue m)) then
        if decide (hd = tl) then
          match nx with
          | None => Some (Some (Empty w), m, inr (-1, None))
          | Some n => Some (None, m, inl (DHelp tl n))
          end
        else Some (None, m, inl (DReadValue hd nx))
      else Some (None, m, inl DReadHead)
  | DHelp tl nx => Some (None, snd (cas_tail m tl nx), inl DReadHead)
  | DReadValue hd nx =>
      match nx with
      | Some n =>
          match node_at m n with
          | Some nd => Some (None, m, inl (DCasHead hd n (value nd)))
          | None => None
          end
      | None => None
      end
  | DCasHead hd nx v =>
      match cas_head m hd nx with
      | (true, m') => Some (Some (Unlinked w v), m', inl (DDecSize hd v))
      | (false, m') => Some (None, m', inl DReadHead)
      end
  | DDecSize hd v => Some (Some (Dequeued w v hd), add_size m (-1), inr (v, Some hd))
  end.

(** ** The functions run alone (no other thread between their steps) *)

Fixpoint enqueue_from (fuel : nat) (m : qmem) (pc : epc) : option qmem :=
  match fuel with
  | O => None
  | S fuel' =>
      match enq_step m pc with
      | Some (_, m', Some pc') => enqueue_from fuel' m' pc'
      | Some (_, m', None) => Some m'
      | None => None
      end
  end.

Definition enqueue (fuel : nat) (m : qmem) (v : Z) : option qmem :=
  enqueue_from fuel m (EMalloc v).

Fixpoint dequeue_from (fuel : nat) (m : qmem) (pc : dpc) : option (dresult * qmem) :=
  match fuel with
  | O => None
  | S fuel' =>
      match deq_step 0 m pc with
      | Some (_, m', inl pc') => dequeue_from fuel' m' pc'
      | Some (_, m', inr r) => Some (r, m')
      | None => None
      end
  end.

Definition dequeue (fuel : nat) (m : qmem) : option (dresult * qmem) :=
  dequeue_from fuel m DReadHead.

(** [freeQueue]: the blocks handed to [free], in order.  [None] is a memory
    fault or, with [fuel] exhausted, a chain that does not end.  The writes
    to [queue->head] are not recorded: nothing reads the queue afterwards. *)
Fixpoint freeQueue (fuel : nat) (m : qmem) (hd : option ptr) : option (list ptr) :=
  match hd with
  | None => Some []
  | Some temp =>
      match fuel with
      | O => None
      | S fuel' =>
          match node_at m temp with
          | Some nd => cons temp <$> freeQueue fuel' m (next nd)
          | None => None
          end
      end
  end.

(** ** The program: [main] and the workers *)

(** Program points of [primeCounterWorker]. *)
Inductive wpc : Type :=
  | WLoadDone                 (* line 172, [!atomic_load(state->done)] *)
  | WLoadSize                 (* line 172, [atomic_load(&queue->size) > 0] *)
  | WDequeue (pc : dpc)       (* line 173, inside [dequeue] *)
  | WTest (num : Z)           (* lines 174-178, [num] just returned *)
  | WCount                    (* line 179 *)
  | WExit.                    (* line 182 *)

(** Program points of [main], from the creation of the threads on. *)
Inductive mpc : Type :=
  | MCreate (i : nat)         (* lines 218-227 *)
  | MScanf                    (* line 231 *)
  | MBackpressure (num : Z)   (* lines 232-234 *)
  | MAllocate (num : Z)       (* lines 235-236 *)
  | MEnqueue (pc : epc)       (* line 237, inside [enqueue] *)
  | MSetDone                  (* line 242 *)
  | MJoin (i : nat)           (* lines 245-247 *)
  | MReport                   (* line 249 *)
  | MCleanup                  (* lines 252-255, in one step *)
  | MReturn                   (* line 257 *)
  | MAborted (num : Z).       (* [exit(EXIT_FAILURE)] in allocateNode (for num) *)

Record state : Type := mkState {
  qm : qmem;
  memoryPool : MemoryPool;
  total_counter : Z;
  done : bool;
  stdin : list Z;             (* what [scanf] has not read yet *)
  numCPU : nat;
  main : mpc;
  threads : list wpc
}.

Definition set_main (pc : mpc) (s : state) : state :=
  mkState (qm s) (memoryPool s) (total_counter s) (done s) (stdin s) (numCPU s)
          pc (threads s).

Definition set_qm (m : qmem) (s : state) : state :=
  mkState m (memoryPool s) (total_counter s) (done s) (stdin s) (numCPU s)
          (main s) (threads s).

Definition set_thread (w : nat) (pc : wpc) (s : state) : state :=
  mkState (qm s) (memoryPool s) (total_counter s) (done s) (stdin s) (numCPU s)
          (main s) (<[w := pc]> (threads s)).

(** The state when [main] reaches the thread-creation loop.  [sysconf] is
    what [sysconf(_SC_NPROCESSORS_ONLN)] returned. *)
Definition init (sysconf junk : Z) (input : list Z) : state :=
  mkState (createQueue junk) createMemoryPool 0 false input
          (Z.to_nat (if sysconf <? 1 then 1 else sysconf))
          (MCreate 0) [].

Definition main_step (s : state) : option (option event * state) :=
  match main s with
  | MCreate i =>
      if (i <? numCPU s)%nat
      then Some (None, mkState (qm s) (memoryPool s) (total_counter s) (done s)
                               (stdin s) (numCPU s) (MCreate (S i))
                               (threads s ++ [WLoadDone]))
      else Some (None, set_main MScanf s)
  | MScanf =>
      match stdin s with
      | num :: rest =>
          Some (None, mkState (qm s) (memoryPool s) (total_counter s) (done s)
                              rest (numCPU s) (MBackpressure num) (threads s))
      | [] => Some (None, set_main MSetDone s)
      end
  | MBackpressure num =>
      if MAX_QUEUE_SIZE <=? size (queue (qm s))
      then Some (None, s)                               (* usleep(10) *)
      else Some (None, set_main (MAllocate num) s)
  | MAllocate num =>
      match allocateNode (memoryPool s) with
      | (Some node, pool) =>
          let pool' := store_value pool node num in
          match load_value pool' node with
          | Some v =>
              Some (None, mkState (qm s) pool' (total_counter s) (done s)
                                  (stdin s) (numCPU s) (MEnqueue (EMalloc v))
                                  (threads s))
          | None => None
          end
      | (None, pool) =>
          Some (Some Exhausted,
                mkState (qm s) pool (total_counter s) (done s) (stdin s)
                        (numCPU s) (MAborted num) (threads s))
      end
  | MEnqueue pc =>
      match enq_step (qm s) pc with
      | Some (ev, m, Some pc') => Some (ev, set_main (MEnqueue pc') (set_qm m s))
      | Some (ev, m, None) => Some (ev, set_main MScanf (set_qm m s))
      | None => None
      end
  | MSetDone =>
      Some (None, mkState (qm s) (memoryPool s) (total_counter s) true (stdin s)
                          (numCPU s) (MJoin 0) (threads s))
  | MJoin i =>
      if (i <? numCPU s)%nat then
        match threads s !! i with
        | Some WExit => Some (None, set_main (MJoin (S i)) s)
        | _ => None                                     (* pthread_join blocks *)
        end
      else Some (None, set_main MReport s)
  | MReport => Some (Some (Report (total_counter s)), set_main MCleanup s)
  | MCleanup =>
      match freeQueue (S (length (heap (qm s)))) (qm s) (Some (head (queue (qm s)))) with
      | Some ps => Some (Some (Freed ps), set_main MReturn s)
      | None => None
      end
  | MReturn => None
  | MAborted _ => None
  end.

Definition worker_step (w : nat) (pc : wpc) (s : state) : option (option event * state) :=
  match pc with
  | WLoadDone =>
      if done s then Some (None, set_thread w WLoadSize s)
      else Some (None, set_thread w (WDequeue DReadHead) s)
  | WLoadSize =>
      if 0 <? size (queue (qm s))
      then Some (None, set_thread w (WDequeue DReadHead) s)
      else Some (None, set_thread w WExit s)
  | WDequeue d =>
      match deq_step w (qm s) d with
      | Some (ev, m, inl d') => Some (ev, set_thread w (WDequeue d') (set_qm m s))
      | Some (ev, m, inr (num, _)) => Some (ev, set_thread w (WTest num) (set_qm m s))
      | None => None
      end
  | WTest num =>
      if num =? -1 then Some (None, set_thread w WLoadDone s)     (* usleep(10) *)
      else if isPrime num
           then Some (Some (Classified w num true), set_thread w WCount s)
           else Some (Some (Classified w num false), set_thread w WLoadDone s)
  | WCount =>
      Some (None, mkState (qm s) (memoryPool s) (wrap (total_counter s + 1)) (done s)
                          (stdin s) (numCPU s) (main s) (<[w := WLoadDone]> (threads s)))
  | WExit => None
  end.

Inductive tid : Type :=
  | Main
  | Worker (w : nat).

#[global] Instance tid_eq_dec : EqDecision tid.
Proof. solve_decision. Defined.

(** Whether the process has ended: [exit] was called or [main] returned. *)
Definition terminated (s : state) : bool :=
  match main s with
  | MReturn | MAborted _ => true
  | _ => false
  end.

(** One atomic step of thread [t]; [None] when [t] cannot move. *)
Definition step (t : tid) (s : state) : option (option event * state) :=
  if terminated s then None
  else match t with
       | Main => main_step s
       | Worker w =>
           match threads s !! w with
           | Some pc => worker_step w pc s
           | None => None
           end
       end.

Definition add_event (ev : option event) (tr : list event) : list event :=
  match ev with
  | Some e => tr ++ [e]
  | None => tr
  end.

Arguments add_event _ _ : simpl never.

(** Executions: [run s tr s'] when some interleaving leads from [s] to [s']
    and produces the events [tr], oldest first. *)
Inductive run (s : state) : list event -> state -> Prop :=
  | run_nil : run s [] s
  | run_step tr s1 t ev s2 :
      run s tr s1 -> step t s1 = Some (ev, s2) -> run s (add_event ev tr) s2.

(** The execution a given schedule produces; a thread that cannot move when
    its turn comes is skipped. *)
Fixpoint exec (sched : list tid) (s : state) (tr : list event) : list event * state :=
  match sched with
  | [] => (tr, s)
  | t :: sched' =>
      match step t s with
      | Some (ev, s') => exec sched' s' (add_event ev tr)
      | None => exec sched' s tr
      end
  end.

(** Round-robin over [main] and [k] workers, [n] rounds. *)
Definition round (k : nat) : list tid := Main :: map Worker (seq 0 k).

Fixpoint round_robin (k n : nat) : list tid :=
  match n with
  | O => []
  | S n' => round k ++ round_robin k n'
  end.

(** Projections of a trace *)
Definition linked (tr : list event) : list Z :=
  omap (fun e => match e with Linked v => Some v | _ => None end) tr.

Definition unlinked (tr : list event) : list Z :=
  omap (fun e => match e with Unlinked _ v => Some v | _ => None end) tr.

Definition dequeued (tr : list event) : list Z :=
  omap (fun e => match e with Dequeued _ v _ => Some v | _ => None end) tr.

Definition classified (tr : list event) : list Z :=
  omap (fun e => match e with Classified _ v _ => Some v | _ => None end) tr.

Definition reports (tr : list event) : list Z :=
  omap (fun e => match e with Report x => Some x | _ => None end) tr.

Definition freed (tr : list event) : list ptr :=
  mbind (fun e => match e with Freed ps => ps | _ => [] end) tr.

(** The number of elements of [l] that [isPrime] accepts. *)
Definition count_primes (l : list Z) : Z :=
  Z.of_nat (length (filter (fun n => isPrime n = true) l)).

(** ** The invariant of the program *)

Definition addr (p : ptr) : nat :=
  match p with
  | Heap a => a
  | Slot _ => O
  end.

(** Positions of [head] and [tail] in the chain. *)
Definition hidx (s : state) : nat := addr (head (queue (qm s))).
Definition tidx (s : state) : nat := addr (tail (queue (qm s))).

(** The [value] fields of the [malloc]ed nodes, in allocation order. *)
Definition vals (s : state) : list Z := map value (heap (qm s)).

(** [main] holds a node that is allocated but not linked yet. *)
Definition unlinked_pending (pc : mpc) : nat :=
  match pc with
  | MEnqueue (EReadTail _ _) | MEnqueue (EReadNext _ _ _)
  | MEnqueue (ECheckTail _ _ _ _) | MEnqueue (ECasNext _ _ _)
  | MEnqueue (EHelp _ _ _ _) => 1
  | _ => 0
  end.

(** Number of nodes in the chain, the dummy included. *)
Definition nlinked (s : state) : nat :=
  length (heap (qm s)) - unlinked_pending (main s).

(** [main] has linked a node and not moved [tail] yet. *)
Definition tail_lag (pc : mpc) : nat :=
  match pc with
  | MEnqueue (ECasTail _ _) => 1
  | _ => 0
  end.

(** [main] has linked a node and not incremented [size] yet. *)
Definition pending_inc (pc : mpc) : nat :=
  match pc with
  | MEnqueue (ECasTail _ _) | MEnqueue EIncSize => 1
  | _ => 0
  end.

(** [main] has seen [size < MAX_QUEUE_SIZE] and not incremented [size] yet. *)
Definition bp_pending (pc : mpc) : nat :=
  match pc with
  | MAllocate _ | MEnqueue _ => 1
  | _ => 0
  end.

(** The value [main] has read and not stored in a node yet. *)
Definition pending_num (pc : mpc) : list Z :=
  match pc with
  | MBackpressure n | MAllocate n | MEnqueue (EMalloc n) | MAborted n => [n]
  | _ => []
  end.

(** [main] has claimed an arena slot for a node it has not allocated. *)
Definition alloc_pending (pc : mpc) : nat :=
  match pc with
  | MEnqueue (EMalloc _) | MAborted _ => 1
  | _ => 0
  end.

Definition past_input (pc : mpc) : bool :=
  match pc with
  | MSetDone | MJoin _ | MReport | MCleanup | MReturn => true
  | _ => false
  end.

Definition past_done (pc : mpc) : bool :=
  match pc with
  | MJoin _ | MReport | MCleanup | MReturn => true
  | _ => false
  end.

Definition aborted (pc : mpc) : Z :=
  match pc with
  | MAborted _ => 1
  | _ => 0
  end.

(** A worker has moved [head] and not decremented [size] yet. *)
Definition in_dec (pc : wpc) : nat :=
  match pc with
  | WDequeue (DDecSize _ _) => 1
  | _ => 0
  end.

(** The value a worker has unlinked and [dequeue] has not returned yet. *)
Definition pending_deq (pc : wpc) : list Z :=
  match pc with
  | WDequeue (DDecSize _ v) => [v]
  | _ => []
  end.

(** A worker holds a prime that [total_counter] does not count yet. *)
Definition pending_prime (pc : wpc) : nat :=
  match pc with
  | WDequeue (DDecSize _ v) | WTest v => if isPrime v then 1 else 0
  | WCount => 1
  | _ => 0
  end.

(** What a thread inside [dequeue] knows about its locals, in terms of the
    positions [h] of [head], [t] of [tail], the chain length [L] and the
    values [vs]. *)
Definition dinv (h t L : nat) (vs : list Z) (pc : dpc) : Prop :=
  match pc with
  | DReadHead => True
  | DReadTail hd => exists a, hd = Heap a /\ (a <= h)%nat
  | DReadNext hd tl =>
      exists a b, hd = Heap a /\ tl = Heap b /\ (a <= h)%nat /\ (a <= b)%nat /\ (b <= t)%nat
  | DCheckHead hd tl nx =>
      exists a b, hd = Heap a /\ tl = Heap b /\ (a <= h)%nat /\ (a <= b)%nat /\ (b <= t)%nat /\
        ((a < b)%nat -> nx = Some (Heap (a + 1))) /\
        (forall x, nx = Some x -> x = Heap (a + 1) /\ (a + 1 < L)%nat)
  | DHelp tl nx => exists b, tl = Heap b /\ nx = Heap (b + 1) /\ (b + 1 < L)%nat
  | DReadValue hd nx =>
      exists a, hd = Heap a /\ nx = Some (Heap (a + 1)) /\ (a <= h)%nat /\ (a + 1 <= t)%nat
  | DCasHead hd nx v =>
      exists a, hd = Heap a /\ nx = Heap (a + 1) /\ (a <= h)%nat /\ (a + 1 <= t)%nat /\
        vs !! (a + 1)%nat = Some v
  | DDecSize hd v => True
  end.

Definition winv (dn : bool) (h t L : nat) (vs : list Z) (sz : Z) (pc : wpc) : Prop :=
  match pc with
  | WLoadSize => dn = true
  | WDequeue d => dinv h t L vs d
  | WExit => dn = true /\ sz <= 0
  | _ => True
  end.

(** What [main] knows inside [enqueue]. *)
Definition einv (L : nat) (vs : list Z) (pc : epc) : Prop :=
  match pc with
  | EMalloc v => True
  | EReadTail v nw => nw = Heap L /\ vs !! L = Some v
  | EReadNext v nw tl => nw = Heap L /\ vs !! L = Some v /\ tl = Heap (L - 1)
  | ECheckTail v nw tl nx =>
      nw = Heap L /\ vs !! L = Some v /\ tl = Heap (L - 1) /\ nx = None
  | ECasNext v nw tl => nw = Heap L /\ vs !! L = Some v /\ tl = Heap (L - 1)
  | ECasTail nw tl => (2 <= L)%nat /\ nw = Heap (L - 1) /\ tl = Heap (L - 2)
  | EIncSize => True
  | EHelp _ _ _ _ => False
  end.

Definition minv (ncpu : nat) (ths : list wpc) (L : nat) (vs : list Z) (pc : mpc) : Prop :=
  match pc with
  | MCreate i => (i <= ncpu)%nat /\ length ths = i
  | MEnqueue e => einv L vs e
  | MJoin i => (i <= ncpu)%nat /\ forall j, (j < i)%nat -> ths !! j = Some WExit
  | MReport | MCleanup | MReturn => forall j, (j < ncpu)%nat -> ths !! j = Some WExit
  | _ => True
  end.

Record Inv (input : list Z) (tr : list event) (s : state) : Prop := mkInv {
  inv_head : head (queue (qm s)) = Heap (hidx s);
  inv_tail : tail (queue (qm s)) = Heap (tidx s);
  inv_order : (hidx s <= tidx s < nlinked s)%nat;
  inv_lag : (nlinked s <= tidx s + 1 + tail_lag (main s))%nat;
  inv_len : (1 + unlinked_pending (main s) <= length (heap (qm s)))%nat;
  inv_heap : forall a nd, heap (qm s) !! a = Some nd ->
      next nd = if decide (a + 1 < nlinked s)%nat then Some (Heap (a + 1)) else None;
  inv_input : input = drop 1 (vals s) ++ pending_num (main s) ++ stdin s;
  inv_stdin : past_input (main s) = true -> stdin s = [];
  inv_done : done s = past_done (main s);
  inv_size : size (queue (qm s)) =
      Z.of_nat (nlinked s) - 1 - Z.of_nat (pending_inc (main s)) - Z.of_nat (hidx s)
      + Z.of_nat (sum_list_with in_dec (threads s));
  inv_bound : size (queue (qm s)) + Z.of_nat (bp_pending (main s)) <= MAX_QUEUE_SIZE;
  inv_total : total_counter s + Z.of_nat (sum_list_with pending_prime (threads s)) =
      count_primes (take (hidx s) (drop 1 (vals s)));
  inv_total_pos : 0 <= total_counter s;
  inv_pool : index (memoryPool s) =
      Z.of_nat (length (heap (qm s))) - 1 + Z.of_nat (alloc_pending (main s));
  inv_cap : index (memoryPool s) <= MEMORY_POOL_SIZE + aborted (main s);
  inv_ncpu : (1 <= numCPU s)%nat;
  inv_nthreads : (length (threads s) <= numCPU s)%nat /\
      (match main s with MCreate _ => True | _ => length (threads s) = numCPU s end);
  inv_main : minv (numCPU s) (threads s) (nlinked s) (vals s) (main s);
  inv_threads : Forall (winv (done s) (hidx s) (tidx s) (nlinked s) (vals s)
                             (size (queue (qm s)))) (threads s);
  inv_linked : linked tr = drop 1 (take (nlinked s) (vals s));
  inv_unlinked : unlinked tr = take (hidx s) (drop 1 (vals s));
  inv_dequeued : dequeued tr ++ mbind pending_deq (threads s) ≡ₚ unlinked tr;
  inv_reports : reports tr =
      match main s with MCleanup | MReturn => [total_counter s] | _ => [] end;
  inv_freed : freed tr =
      match main s with MReturn => [head (queue (qm s))] | _ => [] end
}.

(** Events that none of the trace projections retains. *)
Definition quiet (ev : option event) : Prop :=
  match ev with
  | None | Some (Empty _) | Some (Classified _ _ _) => True
  | _ => False
  end.

(** ** The queue seen from outside *)

(** The nodes reachable from [p] through [next], [p] first. *)
Fixpoint chain (fuel : nat) (m : qmem) (p : option ptr) : list ptr :=
  match p, fuel with
  | Some x, S fuel' => x :: chain fuel' m (node_at m x ≫= next)
  | _, _ => []
  end.

(** The nodes of the queue: the sentinel [head] and the nodes behind it. *)
Definition queue_nodes (m : qmem) : list ptr :=
  chain (length (heap m)) m (Some (head (queue m))).

(** The values that were enqueued and not dequeued yet, oldest first. *)
Definition unconsumed (m : qmem) : list Z :=
  omap (fun p => value <$> node_at m p) (drop 1 (queue_nodes m)).

(** A queue at rest (no operation in progress) that holds [vs]. *)
Definition wfq (m : qmem) (vs : list Z) : Prop :=
  exists h : nat,
    head (queue m) = Heap h /\
    tail (queue m) = Heap (length (heap m) - 1) /\
    (h + length vs + 1 = length (heap m))%nat /\
    (forall a nd, heap m !! a = Some nd ->
       next nd = if decide (a + 1 < length (heap m))%nat then Some (Heap (a + 1)) else None) /\
    drop (h + 1) (map value (heap m)) = vs /\
    size (queue m) = Z.of_nat (length vs) /\
    size (queue m) <= INT_MAX.

(** ** Sequential use of the queue, against a FIFO list *)

Inductive op : Type :=
  | Enq (v : Z)
  | Deq.

(** Steps granted to one call; a call that runs alone needs at most 7. *)
Definition CALL_FUEL : nat := 8.

Fixpoint run_ops (ops : list op) (m : qmem) : option (list dresult * qmem) :=
  match ops with
  | [] => Some ([], m)
  | Enq v :: ops' =>
      match enqueue CALL_FUEL m v with
      | Some m' => run_ops ops' m'
      | None => None
      end
  | Deq :: ops' =>
      match dequeue CALL_FUEL m with
      | Some (r, m') =>
          match run_ops ops' m' with
          | Some (rs, m'') => Some (r :: rs, m'')
          | None => None
          end
      | None => None
      end
  end.

(** The specification's queue: [enqueue(value)], [dequeue() -> value or
    Empty] on a list, [None] standing for [Empty]. *)
Fixpoint fifo_spec (ops : list op) (q : list Z) : list (option Z) * list Z :=
  match ops with
  | [] => ([], q)
  | Enq v :: ops' => fifo_spec ops' (q ++ [v])
  | Deq :: ops' =>
      match q with
      | [] => let (rs, q') := fifo_spec ops' [] in (None :: rs, q')
      | v :: q0 => let (rs, q') := fifo_spec ops' q0 in (Some v :: rs, q')
      end
  end.

(** How a caller that looks at [*dequeuedNode] reads the result of [dequeue]. *)
Definition as_option (r : dresult) : option Z :=
  match r with
  | (v, Some _) => Some v
  | (_, None) => None
  end.

Fixpoint enq_count (ops : list op) : nat :=
  match ops with
  | [] => O
  | Enq _ :: ops' => S (enq_count ops')
  | Deq :: ops' => enq_count ops'
  end.

(** ** The arena used on its own *)

(** The pools [main] can hold: the fresh one and those left by successful
    allocations (a failed allocation ends the process). *)
Inductive pool_reachable : MemoryPool -> Prop :=
  | pool_fresh : pool_reachable createMemoryPool
  | pool_alloc p node p' :
      pool_reachable p -> allocateNode p = (Some node, p') -> pool_reachable p'
  | pool_store p node v :
      pool_reachable p -> pool_reachable (store_value p node v).

(** [later p p']: [p'] is [p] after further successful allocations. *)
Inductive later (p : MemoryPool) : MemoryPool -> Prop :=
  | later_refl : later p p
  | later_alloc p1 node p2 :
      later p p1 -> allocateNode p1 = (Some node, p2) -> later p p2
  | later_store p1 node v :
      later p p1 -> later p (store_value p1 node v).

(** ** Leaving the worker loop *)






(** The returns of [dequeue] to worker [w] among the events [tr]. *)
Definition is_return (w : nat) (e : event) : bool :=
  match e with
  | Empty w' | Dequeued w' _ _ => Nat.eqb w' w
  | _ => false
  end.

Definition returns (w : nat) (tr : list event) : list event :=
  omap (fun e => if is_return w e then Some e else None) tr.

(** ** Progress measures

    Used to show that every execution can be continued to its end. *)

(** What [main] still has to do at [pc], with [n] workers. *)
Definition mrank (n : nat) (pc : mpc) : nat :=
  match pc with
  | MReturn | MAborted _ => 0
  | MCleanup => 1
  | MReport => 2
  | MJoin i => 3 + (n - i)
  | MSetDone => 4 + n
  | MScanf => 5 + n
  | MEnqueue EIncSize => 6 + n
  | MEnqueue (ECasTail _ _) => 7 + n
  | MEnqueue (ECasNext _ _ _) => 8 + n
  | MEnqueue (ECheckTail _ _ _ _) => 9 + n
  | MEnqueue (EReadNext _ _ _) => 10 + n
  | MEnqueue (EReadTail _ _) => 11 + n
  | MEnqueue (EMalloc _) => 12 + n
  | MEnqueue (EHelp _ _ _ _) => 13 + n
  | MAllocate _ => 14 + n
  | MBackpressure _ => 15 + n
  | MCreate i => 6 + n + (n - i)
  end.

Definition mmeasure (s : state) : nat :=
  20 * length (stdin s) + mrank (numCPU s) (main s).

(** What the workers still have to do on the queue as it is: values to
    unlink, [tail] to catch up, decrements to make. *)
Definition qmeasure (s : state) : nat :=
  3 * (nlinked s - 1 - hidx s) + (nlinked s - 1 - tidx s)
  + sum_list_with in_dec (threads s).

(** [main] waits: for room in the queue, or for a worker to leave. *)
Definition blocked (s : state) : bool :=
  match main s with
  | MBackpressure _ => MAX_QUEUE_SIZE <=? size (queue (qm s))
  | MJoin i =>
      (i <? numCPU s)%nat &&
      match threads s !! i with Some WExit => false | _ => true end
  | _ => false
  end.

(** Steps of its own a worker at the top of its loop needs while the other
    threads stand still; 0 when it would only poll an empty queue. *)
Definition wtop (s : state) : nat :=
  if (hidx s + 1 =? nlinked s)%nat
  then (if done s && negb (0 <? size (queue (qm s))) then 2 else 0)
  else 10.

(** The same at the start of [dequeue]. *)
Definition wrestart (s : state) : nat :=
  if (hidx s + 1 =? nlinked s)%nat then 5 + wtop s else 6.

Definition drank (s : state) (d : dpc) : nat :=
  let H := head (queue (qm s)) in
  let T := tail (queue (qm s)) in
  let G := wtop s in
  let R := wrestart s in
  match d with
  | DReadHead => R
  | DReadTail hd =>
      if decide (hd = H)
      then (if (hidx s + 1 =? nlinked s)%nat then 4 + G else 5)
      else 3 + R
  | DReadNext hd tl =>
      if decide (hd = H)
      then (if (hidx s + 1 =? nlinked s)%nat then 3 + G
            else if decide (hd = tl) then (if decide (tl = T) then 3 else 3 + R)
            else 4)
      else 2 + R
  | DCheckHead hd tl nx =>
      if decide (hd = H)
      then (if decide (hd = tl)
            then match nx with
                 | None => 2 + G
                 | Some _ => if decide (tl = T) then 2 else 2 + R
                 end
            else 3)
      else 1 + R
  | DHelp tl _ => if decide (tl = T) then 1 else 1 + R
  | DReadValue hd _ => if decide (hd = H) then 2 else 2 + R
  | DCasHead hd _ _ => if decide (hd = H) then 1 else 1 + R
  | DDecSize _ _ => 1
  end.

Definition wrank (s : state) (pc : wpc) : nat :=
  match pc with
  | WLoadDone => wtop s
  | WLoadSize => if 0 <? size (queue (qm s)) then 1 + wrestart s else 1
  | WDequeue d => drank s d
  | WTest v => if v =? -1 then 1 + wtop s else if isPrime v then 2 + wtop s else 1 + wtop s
  | WCount => 1 + wtop s
  | WExit => 0
  end.

Definition rmeasure (s : state) : nat := sum_list_with (wrank s) (threads s).

(** ** Further notions used for the properties of the code *)

#[global] Instance prime_decision (n : Z) : Decision (prime n) := prime_dec n.

(** The number of primes in [l]. *)
Definition real_primes (l : list Z) : Z := Z.of_nat (length (filter prime l)).

(** The nodes that [dequeue] handed back through [*dequeuedNode]. *)
Definition dequeued_nodes (tr : list event) : list ptr :=
  omap (fun e => match e with Dequeued _ _ p => Some p | _ => None end) tr.

(** What the calls of [dequeue] returned, in the order of their returns:
    the worker, the value and the node handed back. *)
Definition results (tr : list event) : list (nat * Z * ptr) :=
  omap (fun e => match e with Dequeued w v p => Some (w, v, p) | _ => None end) tr.

(** The numbers of the nodes handed back to worker [w], in the order of the
    returns. *)
Definition positions (w : nat) (tr : list event) : list nat :=
  omap (fun e => match e with
                 | Dequeued w' _ p => if decide (w' = w) then Some (addr p) else None
                 | _ => None
                 end) tr.

Definition increasing (l : list nat) : Prop :=
  forall i j a b, (i < j)%nat -> l !! i = Some a -> l !! j = Some b -> (a < b)%nat.

(** The node a worker has unlinked and [dequeue] has not handed back yet. *)
Definition pending_node (pc : wpc) : list ptr :=
  match pc with
  | WDequeue (DDecSize hd _) => [hd]
  | _ => []
  end.

(** The value a worker holds and will pass to [isPrime]. *)
Definition pending_test (pc : wpc) : list Z :=
  match pc with
  | WTest v => if v =? -1 then [] else [v]
  | _ => []
  end.

(** The calls of [isPrime] with their results. *)
Definition verdicts (tr : list event) : list (Z * bool) :=
  omap (fun e => match e with Classified _ v b => Some (v, b) | _ => None end) tr.

(** The arena slots written so far. *)
Definition written (s : state) : Z := index (memoryPool s) - aborted (main s).

(** [main] has joined every worker and has not started the clean-up of
    lines 252-255. *)
Definition joined (s : state) : Prop := main s = MReport \/ main s = MCleanup.

(** The nodes allocated by a run on [input] that has come to that point: the
    sentinel that [createQueue] allocated, then one node for each value,
    chained. *)
Definition final_heap (junk : Z) (input : list Z) : list Node :=
  imap (fun a v =>
          mkNode v (if decide (a + 1 < S (length input))%nat
                    then Some (Heap (a + 1)) else None))
       (junk :: input).

(** ** [dequeue] with its two plain loads exchanged

    [queue->tail] and [head->next] are plain fields that [dequeue] loads at
    lines 109 and 110 while [enqueue] may write them; nothing orders the two
    loads.  [deq_step] performs them in the order of the source.  Here
    [head->next] is loaded first; from line 111 on all is as in [deq_step]. *)
Inductive rpc : Type :=
  | RReadHead                                   (* line 108 *)
  | RReadNext (head : ptr)                      (* line 110, moved up *)
  | RReadTail (head : ptr) (next : option ptr)  (* line 109 *)
  | RRest (pc : dpc).                           (* lines 111-122 *)

Definition deq_step_reordered (w : nat) (m : qmem) (pc : rpc)
  : option (option event * qmem * (rpc + dresult)) :=
  match pc with
  | RReadHead => Some (None, m, inl (RReadNext (head (queue m))))
  | RReadNext hd =>
      match node_at m hd with
      | Some nd => Some (None, m, inl (RReadTail hd (next nd)))
      | None => None
      end
  | RReadTail hd nx => Some (None, m, inl (RRest (DCheckHead hd (tail (queue m)) nx)))
  | RRest d =>
      match deq_step w m d with
      | Some (ev, m', inl DReadHead) => Some (ev, m', inl RReadHead)
      | Some (ev, m', inl d') => Some (ev, m', inl (RRest d'))
      | Some (ev, m', inr r) => Some (ev, m', inr r)
      | None => None
      end
  end.

(** One call of [enqueue] and one call of [dequeue] on the same queue, by
    two threads: the memory, where [enqueue] is ([None] when it has
    returned) and where [dequeue] is, or what it returned. *)
Record race : Type := mkRace { rmem : qmem; enq : option epc; deq : rpc + dresult }.

(** [Main] is the thread in [enqueue], any [Worker] the one in [dequeue]. *)
Definition race_step (t : tid) (r : race) : option race :=
  match t with
  | Main =>
      match enq r with
      | Some pc =>
          match enq_step (rmem r) pc with
          | Some (_, m, pc') => Some (mkRace m pc' (deq r))
          | None => None
          end
      | None => None
      end
  | Worker w =>
      match deq r with
      | inl pc =>
          match deq_step_reordered w (rmem r) pc with
          | Some (_, m, d) => Some (mkRace m (enq r) d)
          | None => None
          end
      | inr _ => None
      end
  end.

Fixpoint race_exec (sched : list tid) (r : race) : race :=
  match sched with
  | [] => r
  | t :: sched' =>
      match race_step t r with
      | Some r' => race_exec sched' r'
      | None => race_exec sched' r
      end
  end.

(** * The buffered version of the program ([part_000])

    [main] reads the input into a buffer of [BUFFER_SIZE] ints; each time the
    buffer is full, and once more for what is left at the end of the input,
    it starts [MAX_THREADS] threads that run [countPrimes] on a quarter of
    the buffer each and add their count to [prime_count] under a mutex, and
    joins them.  [isPrime] is the function above.

    As for the queue version: the threads interleave at the granularity of
    the program points below, the input is a list of ints that [scanf] reads
    one by one until EOF, [pthread_create] succeeds, and [None] is a step
    that cannot be taken.  Of what [printMemoryUsage] and [printCPUUsage]
    print only the fact that a line is printed is modelled: its content is
    the operating system's answer. *)

Module Buffered.

Definition MAX_THREADS : nat := 4.
Definition BUFFER_SIZE : Z := 1024.

(** [ThreadData] without [buffer], [prime_count] and [mutex], which are the
    same pointers for every thread; [stop] is the field [end]. *)
Record ThreadData : Type := mkThreadData { start : Z; stop : Z }.

(** Program points of [countPrimes], with the locals that are live. *)
Inductive tpc : Type :=
  | TLoop (i count : Z)       (* the test of the for loop *)
  | TLock (count : Z)         (* pthread_mutex_lock *)
  | TRead (count : Z)         (* the read of *(data->prime_count) += count *)
  | TWrite (v : Z)            (* its write *)
  | TUnlock                   (* pthread_mutex_unlock *)
  | TDone.

(** Program points of [main]; [final] tells the two creation and join loops
    apart. *)
Inductive bpc : Type :=
  | BScanf
  | BStore (num : Z)                                (* buffer[index++] = num *)
  | BFull                                           (* index == BUFFER_SIZE *)
  | BCreate (final : bool) (chunk_size : Z) (i : nat)
  | BJoin (final : bool) (i : nat)
  | BReset                                          (* index = 0 *)
  | BRest                                           (* index > 0 *)
  | BPrint                                          (* "%d total primes." *)
  | BReturn
  | BMemory (final : bool)                          (* printMemoryUsage() *)
  | BCPU (final : bool).                            (* printCPUUsage() *)

(** The lines written to the standard output. *)
Inductive output : Type :=
  | MemoryUsage                 (* "Memory used: ..." or "Failed to get ..." *)
  | CPUUsage                    (* "CPU time: ..." *)
  | Total (prime_count : Z).    (* "%d total primes." *)

(** [threads] holds the threads of the batch in progress. *)
Record bstate : Type := mkState {
  buffer : list Z;
  index : Z;
  prime_count : Z;
  mutex : bool;                                     (* locked *)
  stdin : list Z;
  threads : list (ThreadData * tpc);
  main : bpc
}.

(** [buffer] is not initialised: [junk] is what it holds at first. *)
Definition binit (junk : nat -> Z) (input : list Z) : bstate :=
  mkState (junk <$> seq 0 (Z.to_nat BUFFER_SIZE)) 0 0 false input [] (BMemory false).

(** What the creation loops store in [thread_data[i]]. *)
Definition thread_data (final : bool) (chunk_size idx : Z) (i : nat) : ThreadData :=
  mkThreadData (wrap (Z.of_nat i * chunk_size))
               (if final && (i =? MAX_THREADS - 1)%nat then idx
                else wrap ((Z.of_nat i + 1) * chunk_size)).

Definition bmain_step (s : bstate) : option (option output * bstate) :=
  match main s with
  | BScanf =>
      match stdin s with
      | num :: rest =>
          Some (None, mkState (buffer s) (index s) (prime_count s) (mutex s) rest
                              (threads s) (BStore num))
      | [] =>
          Some (None, mkState (buffer s) (index s) (prime_count s) (mutex s) []
                              (threads s) BRest)
      end
  | BStore num =>
      if (0 <=? index s) && (index s <? BUFFER_SIZE)
      then Some (None, mkState (<[Z.to_nat (index s) := num]> (buffer s))
                               (wrap (index s + 1)) (prime_count s) (mutex s)
                               (stdin s) (threads s) BFull)
      else None
  | BFull =>
      if index s =? BUFFER_SIZE
      then Some (None, mkState (buffer s) (index s) (prime_count s) (mutex s) (stdin s)
                               [] (BCreate false (Z.quot BUFFER_SIZE 4) 0))
      else Some (None, mkState (buffer s) (index s) (prime_count s) (mutex s) (stdin s)
                               (threads s) BScanf)
  | BCreate final chunk_size i =>
      if (i <? MAX_THREADS)%nat
      then let d := thread_data final chunk_size (index s) i in
           Some (None, mkState (buffer s) (index s) (prime_count s) (mutex s) (stdin s)
                               (threads s ++ [(d, TLoop (start d) 0)])
                               (BCreate final chunk_size (S i)))
      else Some (None, mkState (buffer s) (index s) (prime_count s) (mutex s) (stdin s)
                               (threads s) (BJoin final 0))
  | BJoin final i =>
      if (i <? MAX_THREADS)%nat then
        match threads s !! i with
        | Some (_, TDone) =>
            Some (None, mkState (buffer s) (index s) (prime_count s) (mutex s) (stdin s)
                                (threads s) (BJoin final (S i)))
        | _ => None                                 (* pthread_join blocks *)
        end
      else Some (None, mkState (buffer s) (index s) (prime_count s) (mutex s) (stdin s)
                               (threads s) (if final then BPrint else BReset))
  | BReset =>
      Some (None, mkState (buffer s) 0 (prime_count s) (mutex s) (stdin s)
                          (threads s) BScanf)
  | BRest =>
      if 0 <? index s
      then Some (None, mkState (buffer s) (index s) (prime_count s) (mutex s) (stdin s)
                               [] (BCreate true (Z.quot (index s) 4) 0))
      else Some (None, mkState (buffer s) (index s) (prime_count s) (mutex s) (stdin s)
                               (threads s) BPrint)
  | BPrint =>
      Some (Some (Total (prime_count s)),
            mkState (buffer s) (index s) (prime_count s) (mutex s) (stdin s)
                    (threads s) (BMemory true))
  | BReturn => None
  | BMemory final =>
      Some (Some MemoryUsage,
            mkState (buffer s) (index s) (prime_count s) (mutex s) (stdin s)
                    (threads s) (BCPU final))
  | BCPU final =>
      Some (Some CPUUsage,
            mkState (buffer s) (index s) (prime_count s) (mutex s) (stdin s)
                    (threads s) (if final then BReturn else BScanf))
  end.

Definition set_tpc (i : nat) (d : ThreadData) (pc : tpc) (s : bstate) : bstate :=
  mkState (buffer s) (index s) (prime_count s) (mutex s) (stdin s)
          (<[i := (d, pc)]> (threads s)) (main s).

(** One step of thread [i]; [None] when it waits for the mutex, has
    returned, or reads outside the buffer. *)
Definition thread_step (i : nat) (s : bstate) : option (option output * bstate) :=
  match threads s !! i with
  | Some (d, TLoop j count) =>
      if j <? stop d then
        match (if 0 <=? j then buffer s !! Z.to_nat j else None) with
        | Some v =>
            Some (None, set_tpc i d
                          (TLoop (wrap (j + 1))
                                 (if isPrime v then wrap (count + 1) else count)) s)
        | None => None
        end
      else Some (None, set_tpc i d (TLock count) s)
  | Some (d, TLock count) =>
      if mutex s then None
      else Some (None, mkState (buffer s) (index s) (prime_count s) true (stdin s)
                               (<[i := (d, TRead count)]> (threads s)) (main s))
  | Some (d, TRead count) =>
      Some (None, set_tpc i d (TWrite (wrap (prime_count s + count))) s)
  | Some (d, TWrite v) =>
      Some (None, mkState (buffer s) (index s) v (mutex s) (stdin s)
                          (<[i := (d, TUnlock)]> (threads s)) (main s))
  | Some (d, TUnlock) =>
      Some (None, mkState (buffer s) (index s) (prime_count s) false (stdin s)
                          (<[i := (d, TDone)]> (threads s)) (main s))
  | Some (_, TDone) | None => None
  end.

Definition bstep (t : tid) (s : bstate) : option (option output * bstate) :=
  match t with
  | Main => bmain_step s
  | Worker i => thread_step i s
  end.

(** The execution a schedule produces, with the number of steps taken; a
    thread that cannot move when its turn comes is skipped. *)
Definition add_output (out : option output) (tr : list output) : list output :=
  match out with
  | Some o => tr ++ [o]
  | None => tr
  end.

Fixpoint bexec (sched : list tid) (s : bstate) (tr : list output) (n : nat)
  : list output * bstate * nat :=
  match sched with
  | [] => (tr, s, n)
  | t :: sched' =>
      match bstep t s with
      | Some (out, s') => bexec sched' s' (add_output out tr) (S n)
      | None => bexec sched' s tr n
      end
  end.

(** The execution of the program on [input]: what it has printed, its last
    state and the number of steps taken. *)
Definition run_trace (junk : nat -> Z) (input : list Z) (sched : list tid) : list output :=
  (bexec sched (binit junk input) [] 0).1.1.

Definition run_state (junk : nat -> Z) (input : list Z) (sched : list tid) : bstate :=
  (bexec sched (binit junk input) [] 0).1.2.

Definition run_steps (junk : nat -> Z) (input : list Z) (sched : list tid) : nat :=
  (bexec sched (binit junk input) [] 0).2.

(** ** Notions used to state the properties *)

(** The totals among the lines printed. *)
Definition totals (tr : list output) : list Z :=
  omap (fun o => match o with Total n => Some n | _ => None end) tr.

(** What has been printed when [main] is at a program point, [total] being
    the number in the line "%d total primes.". *)
Definition printed (pc : bpc) (total : Z) : list output :=
  match pc with
  | BMemory false => []
  | BCPU false => [MemoryUsage]
  | BMemory true => [MemoryUsage; CPUUsage; Total total]
  | BCPU true => [MemoryUsage; CPUUsage; Total total; MemoryUsage]
  | BReturn => [MemoryUsage; CPUUsage; Total total; MemoryUsage; CPUUsage]
  | _ => [MemoryUsage; CPUUsage]
  end.

(** The elements [a .. b-1] of the buffer. *)
Definition slice (buf : list Z) (a b : Z) : list Z :=
  take (Z.to_nat (b - a)) (drop (Z.to_nat a) buf).

(** The threads that hold the mutex. *)
Definition holder (x : ThreadData * tpc) : nat :=
  match x.2 with
  | TRead _ | TWrite _ | TUnlock => 1
  | _ => 0
  end.

(** What a thread counts in its part of the buffer, and what it has added
    to [prime_count] so far. *)
Definition chunk_count (buf : list Z) (x : ThreadData * tpc) : Z :=
  count_primes (slice buf (start x.1) (stop x.1)).

Definition added (buf : list Z) (x : ThreadData * tpc) : Z :=
  match x.2 with
  | TUnlock | TDone => chunk_count buf x
  | _ => 0
  end.

Definition zsum (l : list Z) : Z := foldr Z.add 0 l.

(** The steps a thread still takes. *)
Definition trank (x : ThreadData * tpc) : nat :=
  match x.2 with
  | TLoop j _ => Z.to_nat (stop x.1 - j) + 5
  | TLock _ => 4
  | TRead _ => 3
  | TWrite _ => 2
  | TUnlock => 1
  | TDone => 0
  end.

Definition brank (pc : bpc) : nat :=
  match pc with
  | BReturn => 0
  | BCPU true => 1
  | BMemory true => 2
  | BPrint => 3
  | BJoin true i => 4 + (4 - i)
  | BCreate true _ i => 9 + (4 - i)
  | BRest => 14
  | BScanf => 15
  | BReset => 16
  | BJoin false i => 17 + (4 - i)
  | BCreate false _ i => 22 + (4 - i)
  | BFull => 27
  | BStore _ => 28
  | BCPU false => 16
  | BMemory false => 17
  end.

(** A bound on the steps still to come. *)
Definition weight (s : bstate) : nat :=
  (40 * length (stdin s) + brank (main s)) * 1100 + sum_list_with trank (threads s).

(** ** The invariant *)

(** The values in the buffer, and the value read and not stored yet. *)
Definition cur (s : bstate) : list Z := take (Z.to_nat (index s)) (buffer s).

Definition pending (pc : bpc) : list Z :=
  match pc with
  | BStore num => [num]
  | _ => []
  end.

(** Where the part of thread [i] starts; the last part ends at [idx]. *)
Definition bound (chunk_size idx : Z) (i : nat) : Z :=
  if (i <? MAX_THREADS)%nat then Z.of_nat i * chunk_size else idx.

Definition tinv (buf : list Z) (idx pcount : Z) (x : ThreadData * tpc) : Prop :=
  0 <= start x.1 <= stop x.1 /\ stop x.1 <= idx /\
  match x.2 with
  | TLoop j c =>
      start x.1 <= j <= stop x.1 /\ c = count_primes (slice buf (start x.1) j)
  | TLock c | TRead c => c = chunk_count buf x
  | TWrite v => v = pcount + chunk_count buf x
  | TUnlock | TDone => True
  end.

Definition all_done (s : bstate) : Prop :=
  Forall (fun x => x.2 = TDone) (threads s) /\ mutex s = false.

Definition in_batch (final : bool) (chunk_size : Z) (s : bstate) : Prop :=
  (if final
   then 0 < index s < BUFFER_SIZE /\ chunk_size = Z.quot (index s) 4 /\ stdin s = []
   else index s = BUFFER_SIZE /\ chunk_size = 256) /\
  Forall (tinv (buffer s) (index s) (prime_count s)) (threads s) /\
  sum_list_with holder (threads s) = (if mutex s then 1 else 0)%nat.

(** The part of [prime_count] that comes from the values in the buffer. *)
Definition counted (s : bstate) : Z :=
  match main s with
  | BReset | BPrint | BReturn | BMemory true | BCPU true => count_primes (cur s)
  | BCreate _ _ _ | BJoin _ _ => zsum (added (buffer s) <$> threads s)
  | _ => 0
  end.

Record BInv (input : list Z) (tr : list output) (s : bstate) : Prop := mkBInv {
  inv_buffer : length (buffer s) = Z.to_nat BUFFER_SIZE;
  inv_index : 0 <= index s <= BUFFER_SIZE;
  inv_input : exists P,
      input = P ++ cur s ++ pending (main s) ++ stdin s /\
      prime_count s = count_primes P + counted s;
  inv_main :
    match main s with
    | BScanf | BStore _ | BMemory false | BCPU false =>
        index s < BUFFER_SIZE /\ all_done s
    | BRest => index s < BUFFER_SIZE /\ all_done s /\ stdin s = []
    | BFull => all_done s
    | BReset => index s = BUFFER_SIZE /\ all_done s
    | BPrint | BReturn | BMemory true | BCPU true => all_done s /\ stdin s = []
    | BCreate final chunk_size i =>
        in_batch final chunk_size s /\ length (threads s) = i /\ (i <= MAX_THREADS)%nat /\
        zsum (chunk_count (buffer s) <$> threads s)
        = count_primes (slice (buffer s) 0 (bound chunk_size (index s) i))
    | BJoin final i =>
        (exists chunk_size, in_batch final chunk_size s) /\
        length (threads s) = MAX_THREADS /\ (i <= MAX_THREADS)%nat /\
        zsum (chunk_count (buffer s) <$> threads s) = count_primes (cur s) /\
        forall j, (j < i)%nat -> exists d, threads s !! j = Some (d, TDone)
    end;
  inv_printed : tr = printed (main s) (prime_count s)
}.

(** The reads and writes of the buffer that are next are inside it, and the
    reads are of values that were stored. *)
Definition in_bounds (s : bstate) : Prop :=
  (forall num, main s = BStore num -> 0 <= index s < BUFFER_SIZE) /\
  (forall i d j c, threads s !! i = Some (d, TLoop j c) -> j < stop d ->
                   0 <= j < index s) /\
  index s <= Z.of_nat (length (buffer s)).

(** [main] waits in a [pthread_join]. *)
Definition joining (s : bstate) : bool :=
  match main s with
  | BJoin _ i =>
      (i <? MAX_THREADS)%nat &&
      match threads s !! i with Some (_, TDone) => false | _ => true end
  | _ => false
  end.

(** Thread [i] waits for the mutex. *)
Definition waiting (i : nat) (s : bstate) : bool :=
  match threads s !! i with
  | Some (_, TLock _) => mutex s
  | _ => false
  end.

Definition returned (i : nat) (s : bstate) : bool :=
  match threads s !! i with
  | Some (_, TDone) | None => true
  | _ => false
  end.

End Buffered.

(** ** Facts on machine integers *)

Lemma wrap_id z : in_int z -> wrap z = z.
Proof.
  unfold in_int, wrap, INT_MIN, INT_MAX. intros H.
  rewrite Z.mod_small by lia. lia.
Qed.

Lemma wrap_range z : in_int (wrap z).
Proof.
  unfold in_int, wrap, INT_MIN, INT_MAX.
  pose proof (Z.mod_pos_bound (z + 2147483648) 4294967296 ltac:(lia)). lia.
Qed.


(** ** Facts on [isPrime] *)

Section PrimeFacts.

Lemma no_divisor_sound k : forall lo n d,
  no_divisor k lo n = true -> lo <= d < lo + Z.of_nat k -> 0 < lo ->
  ~ (d | n).
Proof.
  induction k as [|k IH]; intros lo n d Hnd Hd Hlo; [lia|].
  cbn [no_divisor] in Hnd. apply andb_true_iff in Hnd as [H1 H2].
  destruct (Z.eq_dec d lo) as [->|Hne].
  - intros Hdiv. apply negb_true_iff, Z.eqb_neq in H1. apply H1.
    apply Z.rem_divide; [lia|assumption].
  - apply (IH (lo + 1) n d H2); lia.
Qed.

(** A number above 1 without divisor in [2 .. r] with [n < (r+1)^2] is prime. *)
Lemma prime_by_trial n r :
  1 < n -> 0 <= r -> n < (r + 1) * (r + 1) ->
  (forall d, 2 <= d <= r -> ~ (d | n)) -> prime n.
Proof.
  intros Hn Hr Hsq Hnd. apply prime_alt. split; [assumption|].
  intros d Hd [q Hq].
  assert (Hqpos : 1 < q) by nia.
  destruct (Z_le_gt_dec d r) as [Hle|Hgt].
  - apply (Hnd d); [lia|]. exists q; assumption.
  - destruct (Z_le_gt_dec q r) as [Hle'|Hgt'].
    + apply (Hnd q); [lia|]. exists d; lia.
    + nia.
Qed.

End PrimeFacts.

Section PrimeLoop.

Lemma isPrime_fuel_loop fuel n :
  3 < n -> Z.rem n 2 <> 0 -> Z.rem n 3 <> 0 ->
  isPrime_fuel fuel n = isPrime_loop fuel n 5.
Proof.
  intros Hn H2 H3. unfold isPrime_fuel.
  destruct (Z.leb_spec n 1); [lia|]. destruct (Z.leb_spec n 3); [lia|].
  apply Z.eqb_neq in H2, H3. rewrite H2, H3. reflexivity.
Qed.

Lemma isPrime_loop_step fuel n i :
  isPrime_loop (S fuel) n i =
  if wrap (i * i) <=? n then
    if (Z.rem n i =? 0) || (Z.rem n (wrap (i + 2)) =? 0) then Some false
    else isPrime_loop fuel n (wrap (i + 6))
  else Some true.
Proof. reflexivity. Qed.

(** With [n = INT_MAX] the guard [i * i <= n] can never fail, so the loop
    only leaves through [return false]; it does so at [i + 2 = n] at the
    latest. *)
Lemma isPrime_loop_INT_MAX (m : nat) : forall fuel i,
  i = 2147483645 - 6 * Z.of_nat m -> 5 <= i -> (m < fuel)%nat ->
  isPrime_loop fuel INT_MAX i = Some false.
Proof.
  induction m as [|m IH]; intros fuel i Hi H5 Hf.
  - destruct fuel as [|fuel]; [lia|]. rewrite isPrime_loop_step.
    pose proof (wrap_range (i * i)) as Hr. unfold in_int in Hr.
    destruct (Z.leb_spec (wrap (i * i)) INT_MAX); [|lia].
    replace i with 2147483645 by lia.
    replace (Z.rem INT_MAX (wrap (2147483645 + 2)) =? 0) with true by reflexivity.
    rewrite orb_true_r. reflexivity.
  - destruct fuel as [|fuel]; [lia|]. rewrite isPrime_loop_step.
    pose proof (wrap_range (i * i)) as Hr. unfold in_int in Hr.
    destruct (Z.leb_spec (wrap (i * i)) INT_MAX); [|lia].
    destruct (_ || _); [reflexivity|].
    rewrite (wrap_id (i + 6)) by (unfold in_int, INT_MIN, INT_MAX; lia).
    apply IH; lia.
Qed.

Lemma prime_INT_MAX : prime INT_MAX.
Proof.
  apply (prime_by_trial INT_MAX 46340); unfold INT_MAX; try lia.
  intros d Hd.
  apply (no_divisor_sound (Z.to_nat 46339) 2 2147483647 d); [|lia|lia].
  vm_compute. reflexivity.
Qed.

Lemma isPrime_INT_MAX : isPrime INT_MAX = false.
Proof.
  unfold isPrime.
  rewrite isPrime_fuel_loop; [|unfold INT_MAX; lia|discriminate|discriminate].
  rewrite (isPrime_loop_INT_MAX (Z.to_nat 357913940)); [reflexivity| |lia|].
  - rewrite Z2Nat.id; lia.
  - unfold INT_MAX. lia.
Qed.

End PrimeLoop.

Section PrimeCorrect.

Lemma rem_eqb_divide n d : d <> 0 -> (Z.rem n d =? 0) = true <-> (d | n).
Proof. intros Hd. rewrite Z.eqb_eq. apply Z.rem_divide, Hd. Qed.

Lemma rem_eqb_not_divide n d : d <> 0 -> (Z.rem n d =? 0) = false <-> ~ (d | n).
Proof. intros Hd. rewrite Z.eqb_neq. apply not_iff_compat, Z.rem_divide, Hd. Qed.

Lemma not_divide_multiple n a d : ~ (a | n) -> (a | d) -> ~ (d | n).
Proof. intros Hn Had Hdn. apply Hn. eapply Z.divide_trans; eassumption. Qed.

(** The candidates skipped between [i] and [i + 6] are multiples of 2 or 3. *)
Lemma sieve_step n k d :
  ~ (2 | n) -> ~ (3 | n) ->
  ~ (5 + 6 * k | n) -> ~ (5 + 6 * k + 2 | n) ->
  5 + 6 * k <= d < 5 + 6 * k + 6 -> ~ (d | n).
Proof.
  intros H2 H3 Hi Hi2 Hd.
  assert (d = 5 + 6 * k \/ d = 5 + 6 * k + 1 \/ d = 5 + 6 * k + 2 \/
          d = 5 + 6 * k + 3 \/ d = 5 + 6 * k + 4 \/ d = 5 + 6 * k + 5)
    as [->|[->|[->|[->|[->| ->]]]]] by lia; try assumption.
  - apply (not_divide_multiple n 2); [assumption|]. exists (3 + 3 * k). lia.
  - apply (not_divide_multiple n 2); [assumption|]. exists (4 + 3 * k). lia.
  - apply (not_divide_multiple n 3); [assumption|]. exists (3 + 2 * k). lia.
  - apply (not_divide_multiple n 2); [assumption|]. exists (5 + 3 * k). lia.
Qed.

(** Below [FIRST_OVERFLOW] no product leaves [int] and the loop decides
    primality. *)
Lemma isPrime_loop_correct (fuel : nat) : forall n k,
  3 < n < FIRST_OVERFLOW -> 0 <= k ->
  ~ (2 | n) -> ~ (3 | n) ->
  (forall d, 2 <= d < 5 + 6 * k -> ~ (d | n)) ->
  5 + 6 * k <= n -> 5 + 6 * k <= 46337 ->
  n - (5 + 6 * k) < Z.of_nat fuel ->
  exists b, isPrime_loop fuel n (5 + 6 * k) = Some b /\ (b = true <-> prime n).
Proof.
  unfold FIRST_OVERFLOW.
  induction fuel as [|fuel IH]; intros n k Hn Hk H2 H3 Hinv Hle Hub Hf; [lia|].
  rewrite isPrime_loop_step. set (i := 5 + 6 * k) in *.
  rewrite (wrap_id (i * i)) by (unfold in_int, INT_MIN, INT_MAX; nia).
  rewrite (wrap_id (i + 2)) by (unfold in_int, INT_MIN, INT_MAX; lia).
  rewrite (wrap_id (i + 6)) by (unfold in_int, INT_MIN, INT_MAX; lia).
  destruct (Z.leb_spec (i * i) n) as [Hsq|Hsq].
  - destruct (Z.rem n i =? 0) eqn:Hri.
    { exists false. split; [reflexivity|]. split; [discriminate|].
      intros Hp. apply rem_eqb_divide in Hri; [|lia].
      apply prime_alt in Hp. destruct Hp as [_ Hp]. exfalso.
      apply (Hp i); [nia|assumption]. }
    destruct (Z.rem n (i + 2) =? 0) eqn:Hri2.
    { exists false. split; [reflexivity|]. split; [discriminate|].
      intros Hp. apply rem_eqb_divide in Hri2; [|lia].
      apply prime_alt in Hp. destruct Hp as [_ Hp]. exfalso.
      apply (Hp (i + 2)); [nia|assumption]. }
    cbn [orb]. apply rem_eqb_not_divide in Hri; [|lia].
    apply rem_eqb_not_divide in Hri2; [|lia].
    replace (i + 6) with (5 + 6 * (k + 1)) by lia.
    assert (Hk6 : 5 + 6 * (k + 1) <= 46337).
    { destruct (Z_le_gt_dec (5 + 6 * (k + 1)) 46337); [assumption|].
      assert (46337 <= i) by lia. nia. }
    apply IH; try assumption; try lia; try nia.
    intros d Hd. destruct (Z_lt_ge_dec d i) as [Hlt|Hge].
    + apply Hinv. lia.
    + apply (sieve_step n k d); try assumption. subst i. lia.
  - exists true. split; [reflexivity|]. split; [intros _|reflexivity].
    apply (prime_by_trial n (i - 1)); try lia.
    intros d Hd. apply Hinv. lia.
Qed.

Lemma small_divisors_excluded n d :
  ~ (2 | n) -> ~ (3 | n) -> 2 <= d < 5 + 6 * 0 -> ~ (d | n).
Proof.
  intros H2 H3 Hd.
  assert (d = 2 \/ d = 3 \/ d = 4) as [->|[->| ->]] by lia; try assumption.
  apply (not_divide_multiple n 2); [assumption|]. exists 2. lia.
Qed.

Lemma isPrime_fuel_correct n :
  n < FIRST_OVERFLOW ->
  exists b, isPrime_fuel (Z.to_nat n) n = Some b /\ (b = true <-> prime n).
Proof.
  intros Hn. unfold isPrime_fuel.
  destruct (Z.leb_spec n 1) as [H1|H1].
  { exists false. split; [reflexivity|]. split; [discriminate|].
    intros Hp%prime_alt. destruct Hp. lia. }
  destruct (Z.leb_spec n 3) as [H3|H3].
  { exists true. split; [reflexivity|]. split; [intros _|reflexivity].
    assert (n = 2 \/ n = 3) as [->| ->] by lia;
      [apply prime_alt, Z.prime_2|apply prime_alt, Z.prime_3]. }
  destruct (Z.rem n 2 =? 0) eqn:Hr2.
  { exists false. split; [reflexivity|]. split; [discriminate|].
    intros Hp%prime_alt. destruct Hp as [_ Hp]. exfalso.
    apply (Hp 2); [lia|]. apply rem_eqb_divide in Hr2; [assumption|lia]. }
  destruct (Z.rem n 3 =? 0) eqn:Hr3.
  { exists false. split; [reflexivity|]. split; [discriminate|].
    intros Hp%prime_alt. destruct Hp as [_ Hp]. exfalso.
    apply (Hp 3); [lia|]. apply rem_eqb_divide in Hr3; [assumption|lia]. }
  cbn [orb]. apply rem_eqb_not_divide in Hr2; [|lia].
  apply rem_eqb_not_divide in Hr3; [|lia].
  assert (5 <= n).
  { destruct (Z.eq_dec n 4) as [->|]; [|lia]. exfalso. apply Hr2. exists 2. lia. }
  change 5 with (5 + 6 * 0).
  apply isPrime_loop_correct; try assumption; try lia.
  intros d Hd. apply small_divisors_excluded; assumption.
Qed.

(** [isPrime] is a correct primality test on every input below
    [FIRST_OVERFLOW], negative numbers included. *)
Lemma isPrime_correct_below n :
  n < FIRST_OVERFLOW -> (isPrime n = true <-> prime n).
Proof.
  intros Hn. destruct (isPrime_fuel_correct n Hn) as (b & Hb & Hiff).
  unfold isPrime. rewrite Hb. exact Hiff.
Qed.

Lemma isPrime_minus_one : isPrime (-1) = false.
Proof. reflexivity. Qed.

Lemma isPrime_one_to_ten :
  filter (fun n => isPrime n = true) [1; 2; 3; 4; 5; 6; 7; 8; 9; 10] = [2; 3; 5; 7].
Proof. reflexivity. Qed.

End PrimeCorrect.

Section PrimeTotal.

(** Totality: the candidate [i] never passes [n], because [n] divides
    itself; so [n] iterations are enough for every [int]. *)
Lemma isPrime_loop_total (fuel : nat) : forall n k,
  in_int n -> ~ (2 | n) -> ~ (3 | n) -> 0 <= k -> 5 + 6 * k <= n ->
  n - (5 + 6 * k) < Z.of_nat fuel ->
  exists b, isPrime_loop fuel n (5 + 6 * k) = Some b.
Proof.
  unfold in_int, INT_MIN, INT_MAX.
  induction fuel as [|fuel IH]; intros n k Hn H2 H3 Hk Hle Hf; [lia|].
  rewrite isPrime_loop_step. set (i := 5 + 6 * k) in *.
  destruct (wrap (i * i) <=? n); [|eexists; reflexivity].
  rewrite (wrap_id (i + 2)) by (unfold in_int, INT_MIN, INT_MAX; lia).
  destruct (Z.rem n i =? 0) eqn:Hri; [eexists; reflexivity|].
  destruct (Z.rem n (i + 2) =? 0) eqn:Hri2; [eexists; reflexivity|].
  cbn [orb]. apply rem_eqb_not_divide in Hri; [|lia].
  apply rem_eqb_not_divide in Hri2; [|lia].
  assert (Hn6 : i + 6 <= n).
  { destruct (Z_le_gt_dec (i + 6) n); [assumption|]. exfalso.
    apply (sieve_step n k n H2 H3 Hri Hri2); [subst i; lia|].
    apply Z.divide_refl. }
  rewrite (wrap_id (i + 6)) by (unfold in_int, INT_MIN, INT_MAX; lia).
  replace (i + 6) with (5 + 6 * (k + 1)) by lia.
  apply IH; unfold in_int, INT_MIN, INT_MAX; try assumption; lia.
Qed.

Lemma isPrime_total n :
  in_int n -> isPrime_fuel (Z.to_nat n) n = Some (isPrime n).
Proof.
  intros Hn. unfold isPrime.
  enough (exists b, isPrime_fuel (Z.to_nat n) n = Some b) as [b ->] by reflexivity.
  unfold isPrime_fuel.
  destruct (Z.leb_spec n 1); [eexists; reflexivity|].
  destruct (Z.leb_spec n 3); [eexists; reflexivity|].
  destruct (Z.rem n 2 =? 0) eqn:Hr2; [eexists; reflexivity|].
  destruct (Z.rem n 3 =? 0) eqn:Hr3; [eexists; reflexivity|].
  cbn [orb]. apply rem_eqb_not_divide in Hr2; [|lia].
  apply rem_eqb_not_divide in Hr3; [|lia].
  assert (5 <= n).
  { destruct (Z.eq_dec n 4) as [->|]; [|lia]. exfalso. apply Hr2. exists 2. lia. }
  change 5 with (5 + 6 * 0). apply isPrime_loop_total; try assumption; lia.
Qed.

(** Under the C standard the run on [INT_MAX] reaches [46343 * 46343], which
    does not fit in [int]. *)
Lemma isPrime_std_INT_MAX : isPrime_std (Z.to_nat 7724) INT_MAX = Overflow.
Proof. vm_compute. reflexivity. Qed.

End PrimeTotal.

(** ** Lists, sums and traces *)

Section ListFacts.

Context {A : Type}.

Lemma sum_list_with_insert (f : A -> nat) (l : list A) (i : nat) (x y : A) :
  l !! i = Some x ->
  (sum_list_with f (<[i := y]> l) + f x = sum_list_with f l + f y)%nat.
Proof.
  revert i. induction l as [|z l IH]; intros [|i] Hl; simplify_eq/=; [lia|].
  specialize (IH i Hl). lia.
Qed.

Lemma sum_list_with_zero (f : A -> nat) (l : list A) :
  Forall (fun x => f x = O) l -> sum_list_with f l = O.
Proof. induction 1 as [|x l Hx _ IH]; simpl; [reflexivity|]. rewrite Hx, IH. reflexivity. Qed.

Lemma sum_list_with_ext (f g : A -> nat) (l : list A) :
  (forall x, f x = g x) -> sum_list_with f l = sum_list_with g l.
Proof. intros Hfg. induction l as [|x l IH]; simpl; [reflexivity|]. by rewrite Hfg, IH. Qed.

Lemma sum_list_with_lookup (f : A -> nat) (l : list A) (i : nat) (x : A) :
  l !! i = Some x -> (f x <= sum_list_with f l)%nat.
Proof.
  revert i. induction l as [|z l IH]; intros [|i] Hl; simplify_eq/=; [lia|].
  specialize (IH i Hl). lia.
Qed.

Lemma mbind_insert_perm {B : Type} (f : A -> list B) (l : list A) (i : nat) (x y : A) :
  l !! i = Some x ->
  f x ++ mbind f (<[i := y]> l) ≡ₚ f y ++ mbind f l.
Proof.
  revert i. induction l as [|z l IH]; intros [|i] Hl; simplify_eq/=.
  - apply Permutation_app_swap_app.
  - specialize (IH i Hl).
    rewrite !(Permutation_app_swap_app _ (f z)). by rewrite IH.
Qed.

End ListFacts.

(** ** Preservation of the invariant *)

Section CountPrimes.

Lemma count_primes_app l1 l2 : count_primes (l1 ++ l2) = count_primes l1 + count_primes l2.
Proof. unfold count_primes. rewrite filter_app, length_app. lia. Qed.

Lemma count_primes_single v : count_primes [v] = if isPrime v then 1 else 0.
Proof.
  unfold count_primes. destruct (isPrime v) eqn:Hv.
  - rewrite filter_cons_True by assumption. reflexivity.
  - rewrite filter_cons_False by congruence. reflexivity.
Qed.

Lemma count_primes_bounds l : 0 <= count_primes l <= Z.of_nat (length l).
Proof. unfold count_primes. pose proof (length_filter (fun n => isPrime n = true) l). lia. Qed.

Lemma count_primes_nil : count_primes [] = 0.
Proof. reflexivity. Qed.

End CountPrimes.

Section Stability.

Lemma dinv_mono h t L vs h' t' L' vs' pc :
  (h <= h')%nat -> (t <= t')%nat -> (L <= L')%nat ->
  (forall a v, vs !! a = Some v -> vs' !! a = Some v) ->
  dinv h t L vs pc -> dinv h' t' L' vs' pc.
Proof.
  intros Hh Ht HL Hvs. destruct pc; simpl; try tauto.
  - intros (a & -> & ?). exists a. split; [reflexivity|lia].
  - intros (a & b & -> & -> & ?). exists a, b. repeat split; lia.
  - intros (a & b & -> & -> & ? & ? & ? & Hn1 & Hn2). exists a, b.
    repeat split; try lia; try assumption.
    + apply (Hn2 x H2).
    + destruct (Hn2 x H2). lia.
  - intros (b & -> & -> & ?). exists b. repeat split; lia.
  - intros (a & -> & -> & ?). exists a. repeat split; lia.
  - intros (a & -> & -> & ? & ? & ?). exists a. repeat split; try lia. auto.
Qed.

Lemma winv_mono dn h t L vs sz dn' h' t' L' vs' sz' pc :
  (dn = true -> dn' = true) ->
  (h <= h')%nat -> (t <= t')%nat -> (L <= L')%nat ->
  (forall a v, vs !! a = Some v -> vs' !! a = Some v) ->
  (dn = true -> sz' <= sz) ->
  winv dn h t L vs sz pc -> winv dn' h' t' L' vs' sz' pc.
Proof.
  intros Hd Hh Ht HL Hvs Hsz. destruct pc; simpl; try tauto.
  - apply dinv_mono; assumption.
  - intros [? ?]. split; [auto|]. specialize (Hsz H). lia.
Qed.

End Stability.

Section TraceProjections.

Lemma linked_add ev tr :
  linked (add_event ev tr) = linked tr ++ match ev with Some (Linked v) => [v] | _ => [] end.
Proof.
  unfold linked. unfold add_event; destruct ev as [e|]; simpl; [|by rewrite app_nil_r].
  rewrite omap_app. by destruct e.
Qed.

Lemma unlinked_add ev tr :
  unlinked (add_event ev tr) =
  unlinked tr ++ match ev with Some (Unlinked _ v) => [v] | _ => [] end.
Proof.
  unfold unlinked. unfold add_event; destruct ev as [e|]; simpl; [|by rewrite app_nil_r].
  rewrite omap_app. by destruct e.
Qed.

Lemma dequeued_add ev tr :
  dequeued (add_event ev tr) =
  dequeued tr ++ match ev with Some (Dequeued _ v _) => [v] | _ => [] end.
Proof.
  unfold dequeued. unfold add_event; destruct ev as [e|]; simpl; [|by rewrite app_nil_r].
  rewrite omap_app. by destruct e.
Qed.

Lemma reports_add ev tr :
  reports (add_event ev tr) = reports tr ++ match ev with Some (Report x) => [x] | _ => [] end.
Proof.
  unfold reports. unfold add_event; destruct ev as [e|]; simpl; [|by rewrite app_nil_r].
  rewrite omap_app. by destruct e.
Qed.

Lemma freed_add ev tr :
  freed (add_event ev tr) = freed tr ++ match ev with Some (Freed ps) => ps | _ => [] end.
Proof.
  unfold freed. unfold add_event; destruct ev as [e|]; simpl; [|by rewrite app_nil_r].
  rewrite bind_app. destruct e; simpl; by rewrite ?app_nil_r.
Qed.

End TraceProjections.

Ltac destruct_inv H :=
  destruct H as [Ihead Itail Iorder Ilag Ilen Iheap Iinput Istdin Idone Isize
                 Ibound Itotal Itotpos Ipool Icap Incpu Inth Imain Ithreads
                 Ilinked Iunlinked Ideq Ireports Ifreed].

Section WorkerSteps.

Lemma in_int_small z : -2 <= z <= 20000000 -> in_int z.
Proof. unfold in_int, INT_MIN, INT_MAX. lia. Qed.

Lemma minv_insert ncpu ths L vs mpc w pc pc' :
  minv ncpu ths L vs mpc -> ths !! w = Some pc -> pc <> WExit ->
  minv ncpu (<[w := pc']> ths) L vs mpc.
Proof.
  intros Hm Hw Hpc.
  assert (Hlook : forall j, ths !! j = Some WExit -> <[w := pc']> ths !! j = Some WExit).
  { intros j Hj. destruct (decide (j = w)) as [->|Hne]; [congruence|].
    by rewrite list_lookup_insert_ne. }
  destruct mpc; simpl in *; try assumption.
  - by rewrite length_insert.
  - destruct Hm as [? Hm]. split; [assumption|]. intros j Hj. apply Hlook, Hm, Hj.
  - intros j Hj. apply Hlook, Hm, Hj.
  - intros j Hj. apply Hlook, Hm, Hj.
  - intros j Hj. apply Hlook, Hm, Hj.
Qed.

(** Once [main] is past the joins no worker can move. *)
Lemma joined_no_worker ncpu ths L vs mpc w pc :
  minv ncpu ths L vs mpc -> ths !! w = Some pc -> pc <> WExit ->
  length ths = ncpu ->
  match mpc with MReport | MCleanup | MReturn => False | _ => True end.
Proof.
  intros Hm Hw Hpc Hlen. apply lookup_lt_Some in Hw as Hlt.
  destruct mpc; simpl in *; try exact I; rewrite Hm in Hw by lia; congruence.
Qed.

Lemma Inv_set_thread input tr s w pc pc' ev :
  Inv input tr s -> threads s !! w = Some pc -> pc <> WExit ->
  in_dec pc' = in_dec pc -> pending_prime pc' = pending_prime pc ->
  pending_deq pc' = pending_deq pc ->
  winv (done s) (hidx s) (tidx s) (nlinked s) (vals s) (size (queue (qm s))) pc' ->
  quiet ev ->
  Inv input (add_event ev tr) (set_thread w pc' s).
Proof.
  intros HI Hw Hpc Hd Hp Hq Hwinv Hev.
  pose proof (sum_list_with_insert in_dec _ w pc pc' Hw) as Hs1.
  pose proof (sum_list_with_insert pending_prime _ w pc pc' Hw) as Hs2.
  pose proof (mbind_insert_perm pending_deq _ w pc pc' Hw) as Hs3.
  rewrite Hq in Hs3. apply (inj (app _)) in Hs3.
  destruct_inv HI.
  constructor; unfold hidx, tidx, nlinked, vals in *; simpl; try assumption.
  - lia.
  - lia.
  - rewrite length_insert. assumption.
  - eapply minv_insert; eassumption.
  - apply Forall_insert; assumption.
  - rewrite linked_add. destruct ev as [[]|]; try contradiction; by rewrite app_nil_r.
  - rewrite unlinked_add. destruct ev as [[]|]; try contradiction; by rewrite app_nil_r.
  - rewrite dequeued_add, unlinked_add, Hs3.
    destruct ev as [[]|]; try contradiction; by rewrite !app_nil_r.
  - rewrite reports_add. destruct ev as [[]|]; try contradiction; by rewrite app_nil_r.
  - rewrite freed_add. destruct ev as [[]|]; try contradiction; by rewrite app_nil_r.
Qed.

(** A helping CAS moves [tail] one node forward. *)
Lemma Inv_set_tail input tr s b :
  Inv input tr s -> tail (queue (qm s)) = Heap b -> (b + 1 < nlinked s)%nat ->
  Inv input tr (set_qm (mkMem (heap (qm s))
                  (mkQueue (head (queue (qm s))) (Heap (b + 1)) (size (queue (qm s))))) s).
Proof.
  intros HI Ht Hb. destruct_inv HI.
  assert (tidx s = b) as Htb by (unfold tidx; rewrite Ht; reflexivity).
  constructor; unfold hidx, tidx, nlinked, vals in *; simpl;
    try assumption; try reflexivity; try lia.
  eapply Forall_impl; [eassumption|]. intros pc. simpl.
  apply winv_mono; auto; lia.
Qed.

(** The CAS on [head] succeeds: the oldest value leaves the queue. *)
Lemma Inv_unlink input tr s w hd nx v :
  Inv input tr s -> threads s !! w = Some (WDequeue (DCasHead hd nx v)) ->
  head (queue (qm s)) = hd ->
  Inv input (add_event (Some (Unlinked w v)) tr)
      (set_thread w (WDequeue (DDecSize hd v))
         (set_qm (mkMem (heap (qm s))
                    (mkQueue nx (tail (queue (qm s))) (size (queue (qm s))))) s)).
Proof.
  intros HI Hw Hhd.
  pose proof (sum_list_with_insert in_dec _ w _ (WDequeue (DDecSize hd v)) Hw) as Hs1.
  pose proof (sum_list_with_insert pending_prime _ w _ (WDequeue (DDecSize hd v)) Hw) as Hs2.
  pose proof (mbind_insert_perm pending_deq _ w _ (WDequeue (DDecSize hd v)) Hw) as Hs3.
  simpl in Hs1, Hs2, Hs3.
  destruct_inv HI.
  pose proof (Forall_lookup_1 _ _ _ _ Ithreads Hw) as Hwinv. simpl in Hwinv.
  destruct Hwinv as (a & Ha & -> & Hah & Hat & Hv).
  assert (hidx s = a) as Hha by (unfold hidx; rewrite Hhd, Ha; reflexivity).
  assert (Hv' : drop 1 (vals s) !! hidx s = Some v).
  { rewrite lookup_drop, Hha. replace (1 + a)%nat with (a + 1)%nat by lia. exact Hv. }
  pose proof (joined_no_worker _ _ _ _ _ _ _ Imain Hw ltac:(discriminate)) as Hnj.
  constructor; unfold hidx, tidx, nlinked, vals in *; simpl; try assumption.
  - reflexivity.
  - lia.
  - lia.
  - replace (a + 1)%nat with (S (addr (head (queue (qm s))))) by lia.
    rewrite (take_S_r _ _ _ Hv'), count_primes_app, count_primes_single.
    destruct (isPrime v); lia.
  - rewrite length_insert. assumption.
  - eapply minv_insert; [eassumption..|discriminate].
  - apply Forall_insert; [|exact I].
    eapply Forall_impl; [eassumption|]. intros pc. simpl.
    apply winv_mono; auto; lia.
  - rewrite linked_add. by rewrite app_nil_r.
  - rewrite unlinked_add.
    replace (a + 1)%nat with (S (addr (head (queue (qm s))))) by lia.
    rewrite (take_S_r _ _ _ Hv'). by f_equal.
  - rewrite dequeued_add, unlinked_add, app_nil_r, Hs3.
    rewrite <- Ideq. rewrite <- (assoc (++)). apply Permutation_app_head.
    apply Permutation_cons_append.
  - rewrite reports_add, app_nil_r. destruct (main s); try assumption; try contradiction.
    all: apply Hnj; destruct Inth; assumption.
  - rewrite freed_add, app_nil_r. destruct (main s); try assumption.
    exfalso. apply Hnj. destruct Inth; assumption.
Qed.

(** [dequeue] decrements [size] and returns the value. *)
Lemma Inv_dec input tr s w hd v :
  Inv input tr s -> threads s !! w = Some (WDequeue (DDecSize hd v)) ->
  Inv input (add_event (Some (Dequeued w v hd)) tr)
      (set_thread w (WTest v) (set_qm (add_size (qm s) (-1)) s)).
Proof.
  intros HI Hw.
  pose proof (sum_list_with_insert in_dec _ w _ (WTest v) Hw) as Hs1.
  pose proof (sum_list_with_insert pending_prime _ w _ (WTest v) Hw) as Hs2.
  pose proof (mbind_insert_perm pending_deq _ w _ (WTest v) Hw) as Hs3.
  pose proof (sum_list_with_lookup in_dec _ w _ Hw) as Hs4.
  simpl in Hs1, Hs2, Hs3, Hs4.
  destruct_inv HI.
  pose proof (joined_no_worker _ _ _ _ _ _ _ Imain Hw ltac:(discriminate)) as Hnj.
  assert (Hwrap : wrap (size (queue (qm s)) + -1) = size (queue (qm s)) - 1).
  { apply wrap_id, in_int_small. unfold nlinked, hidx, MAX_QUEUE_SIZE in *.
    destruct (main s) as [| | | |[]| | | | | |?]; simpl in *; lia. }
  constructor; unfold hidx, tidx, nlinked, vals in *; simpl; rewrite ?Hwrap;
    try assumption; try lia.
  - rewrite length_insert. assumption.
  - eapply minv_insert; [eassumption..|discriminate].
  - apply Forall_insert; [|exact I].
    eapply Forall_impl; [eassumption|]. intros pc. simpl.
    apply winv_mono; auto; lia.
  - rewrite linked_add. by rewrite app_nil_r.
  - rewrite unlinked_add. by rewrite app_nil_r.
  - rewrite dequeued_add, unlinked_add, app_nil_r. rewrite <- Ideq, <- Hs3.
    by rewrite <- (assoc (++)).
  - rewrite reports_add, app_nil_r. assumption.
  - rewrite freed_add, app_nil_r. assumption.
Qed.

(** A worker adds one to [total_counter]. *)
Lemma Inv_count input tr s w :
  Inv input tr s -> threads s !! w = Some WCount ->
  Inv input (add_event None tr)
      (mkState (qm s) (memoryPool s) (wrap (total_counter s + 1)) (done s)
               (stdin s) (numCPU s) (main s) (<[w := WLoadDone]> (threads s))).
Proof.
  intros HI Hw.
  pose proof (sum_list_with_insert in_dec _ w _ WLoadDone Hw) as Hs1.
  pose proof (sum_list_with_insert pending_prime _ w _ WLoadDone Hw) as Hs2.
  pose proof (mbind_insert_perm pending_deq _ w _ WLoadDone Hw) as Hs3.
  simpl in Hs1, Hs2, Hs3.
  destruct_inv HI.
  pose proof (joined_no_worker _ _ _ _ _ _ _ Imain Hw ltac:(discriminate)) as Hnj.
  assert (Hwrap : wrap (total_counter s + 1) = total_counter s + 1).
  { apply wrap_id, in_int_small.
    pose proof (count_primes_bounds (take (hidx s) (drop 1 (vals s)))) as Hb.
    rewrite length_take, length_drop in Hb. unfold vals in *. rewrite length_map in Hb.
    unfold MEMORY_POOL_SIZE in *.
    assert (aborted (main s) <= 1) by (destruct (main s); simpl; lia).
    lia. }
  constructor; unfold hidx, tidx, nlinked, vals in *; simpl; rewrite ?Hwrap;
    try assumption; try lia.
  - rewrite length_insert. assumption.
  - eapply minv_insert; [eassumption..|discriminate].
  - apply Forall_insert; [assumption|exact I].
  - rewrite dequeued_add, unlinked_add, !app_nil_r, Hs3. assumption.
  - rewrite reports_add, app_nil_r. destruct (main s); try assumption; try contradiction.
    all: exfalso; apply Hnj; destruct Inth; assumption.
Qed.

Lemma set_qm_same s : set_qm (qm s) s = s.
Proof. by destruct s. Qed.

Lemma Inv_worker input tr s w pc ev s' :
  Inv input tr s -> threads s !! w = Some pc ->
  worker_step w pc s = Some (ev, s') ->
  Inv input (add_event ev tr) s'.
Proof.
  intros HI Hw Hstep.
  pose proof (Forall_lookup_1 _ _ _ _ (inv_threads _ _ _ HI) Hw) as Hwinv.
  destruct pc as [| |d| | |]; simpl in Hstep.
  - (* WLoadDone *)
    destruct (done s) eqn:Hdn; simplify_eq;
      eapply Inv_set_thread; eauto; try discriminate; exact I.
  - (* WLoadSize *)
    simpl in Hwinv.
    destruct (Z.ltb_spec 0 (size (queue (qm s)))); simplify_eq;
      eapply Inv_set_thread; eauto; try discriminate; try exact I.
    simpl. split; [assumption|lia].
  - (* WDequeue *)
    simpl in Hwinv.
    destruct d as [|hd|hd tl|hd tl nx|tl nx|hd nx|hd nx v|hd v]; simpl in Hstep.
    + (* DReadHead *)
      simplify_eq. rewrite set_qm_same.
      eapply Inv_set_thread; eauto; try discriminate; try exact I.
      simpl. exists (hidx s). split; [apply HI|lia].
    + (* DReadTail *)
      simplify_eq. rewrite set_qm_same. destruct Hwinv as (a & -> & Ha).
      eapply Inv_set_thread; eauto; try discriminate; try exact I.
      simpl. exists a, (tidx s). pose proof (inv_order _ _ _ HI).
      repeat split; try lia. apply HI.
    + (* DReadNext *)
      destruct (node_at (qm s) hd) as [nd|] eqn:Hnd; simplify_eq.
      rewrite set_qm_same. destruct Hwinv as (a & b & -> & -> & Ha & Hab & Hb).
      eapply Inv_set_thread; eauto; try discriminate; try exact I.
      simpl. exists a, b. pose proof (inv_order _ _ _ HI).
      simpl in Hnd. rewrite (inv_heap _ _ _ HI _ _ Hnd).
      repeat split; try lia.
      * intros Hlt. rewrite decide_True by lia. reflexivity.
      * case_decide; congruence.
      * case_decide; [assumption|congruence].
    + (* DCheckHead *)
      destruct Hwinv as (a & b & -> & -> & Ha & Hab & Hb & Hn1 & Hn2).
      repeat case_decide; simplify_eq; [destruct nx as [n|]; simplify_eq|..];
        rewrite set_qm_same;
        eapply Inv_set_thread; eauto; try discriminate; try exact I; simpl.
      * destruct (Hn2 n eq_refl) as [-> ?]. exists b. repeat split; lia.
      * exists a. assert (a <> b) by congruence.
        repeat split; try lia. apply Hn1. lia.
    + (* DHelp *)
      destruct Hwinv as (b & -> & -> & Hb).
      unfold cas_tail in Hstep. case_decide as Htl; simplify_eq; simpl.
      * eapply Inv_set_thread with (s := set_qm _ s);
          [apply (Inv_set_tail _ _ _ b HI Htl Hb)|eauto..]; try discriminate; exact I.
      * rewrite set_qm_same.
        eapply Inv_set_thread; eauto; try discriminate; exact I.
    + (* DReadValue *)
      destruct nx as [n|]; [|discriminate].
      destruct (node_at (qm s) n) as [nd|] eqn:Hnd; simplify_eq.
      rewrite set_qm_same. destruct Hwinv as (a & -> & Hn & Ha & Hat). simplify_eq.
      eapply Inv_set_thread; eauto; try discriminate; try exact I.
      simpl. exists a. repeat split; try lia.
      unfold vals. rewrite list_lookup_fmap. simpl in Hnd. by rewrite Hnd.
    + (* DCasHead *)
      unfold cas_head in Hstep. case_decide as Hhd; simplify_eq; simpl.
      * by apply Inv_unlink.
      * rewrite set_qm_same.
        eapply Inv_set_thread; eauto; try discriminate; exact I.
    + (* DDecSize *)
      simplify_eq. by apply Inv_dec.
  - (* WTest *)
    destruct (Z.eqb_spec num (-1)) as [->|Hne]; simplify_eq.
    + eapply Inv_set_thread; eauto; try discriminate; exact I.
    + destruct (isPrime num) eqn:Hp; simplify_eq;
        eapply Inv_set_thread; eauto; try discriminate; try exact I;
        simpl; by rewrite Hp.
  - (* WCount *)
    simplify_eq. by apply Inv_count.
  - discriminate.
Qed.

End WorkerSteps.

Ltac inv_goals :=
  constructor; unfold hidx, tidx, nlinked, vals; simpl;
  rewrite ?linked_add, ?unlinked_add, ?dequeued_add, ?reports_add, ?freed_add,
    ?app_nil_r;
  try assumption; try reflexivity; try lia.

Section MainSteps.

Lemma map_value_alter (f : Node -> Node) a (H : list Node) :
  (forall nd, value (f nd) = value nd) -> map value (alter f a H) = map value H.
Proof.
  intros Hf. revert a. induction H as [|nd H IH]; intros [|a]; simpl;
    rewrite ?Hf; try reflexivity.
  f_equal. apply IH.
Qed.

Lemma drop_1_app {A} (l : list A) x : (1 <= length l)%nat -> drop 1 (l ++ [x]) = drop 1 l ++ [x].
Proof. destruct l; simpl; [lia|reflexivity]. Qed.

Lemma freeQueue_None fuel m : freeQueue fuel m None = Some [].
Proof. by destruct fuel. Qed.

Lemma Inv_main input tr s ev s' :
  Inv input tr s -> main_step s = Some (ev, s') ->
  Inv input (add_event ev tr) s'.
Proof.
  intros HI Hstep.
  destruct s as [[H [hd tl sz]] [pn idx] tot dn inp ncpu mpc ths].
  destruct_inv HI; unfold hidx, tidx, nlinked, vals in *; simpl in *.
  destruct hd as [h|]; [|discriminate]. destruct tl as [t|]; [|discriminate].
  simpl in *. clear Ihead Itail.
  unfold main_step in Hstep; simpl in Hstep.
  destruct mpc as [i| |num|num|e| |i| | | |num]; simpl in *.
  - (* MCreate *)
    destruct Imain as [Hi Hlen].
    destruct (Nat.ltb_spec i ncpu); simplify_eq.
    + constructor; unfold hidx, tidx, nlinked, vals; simpl;
        rewrite ?sum_list_with_app, ?bind_app, ?length_app; simpl;
        rewrite ?Nat.add_0_r, ?app_nil_r; try assumption; try reflexivity; try lia.
      apply Forall_app. split; [assumption|]. by repeat constructor.
    + inv_goals.
  - (* MScanf *)
    destruct inp as [|num rest]; simplify_eq.
    + inv_goals.
    + inv_goals.
  - (* MBackpressure *)
    destruct (Z.leb_spec MAX_QUEUE_SIZE sz); simplify_eq.
    + inv_goals.
    + inv_goals.
  - (* MAllocate *)
    unfold allocateNode in Hstep. simpl in Hstep.
    assert (Hwrap : wrap (idx + 1) = idx + 1).
    { apply wrap_id, in_int_small. unfold MEMORY_POOL_SIZE in *. lia. }
    rewrite Hwrap in Hstep.
    destruct (Z.leb_spec MEMORY_POOL_SIZE idx); simplify_eq.
    + inv_goals.
    + simpl in Hstep. rewrite lookup_insert_eq in Hstep. simplify_eq.
      inv_goals.
  - (* MEnqueue *)
    destruct e as [v|v nw|v nw tl|v nw tl nx|v nw tl|nw tl| |v nw tl nx];
      simpl in *.
    + (* EMalloc *)
      simplify_eq.
      assert (Hlenv : length (map value H) = length H) by apply length_map.
      rewrite Nat.sub_0_r in *.
      inv_goals; rewrite ?length_app, ?map_app; simpl; rewrite ?Nat.add_sub;
        rewrite ?drop_1_app by lia; try lia.
      * intros a nd Hl. apply lookup_app_Some in Hl as [Hl|[Hge Hl]].
        { apply Iheap, Hl. }
        apply list_lookup_singleton_Some in Hl as [Ha <-]. simpl.
        rewrite decide_False by lia. reflexivity.
      * by rewrite <- (assoc (++)).
      * rewrite take_app_le by (rewrite length_drop; lia). assumption.
      * split; [f_equal; lia|].
        rewrite lookup_app_r by lia. rewrite Hlenv, Nat.sub_diag. reflexivity.
      * eapply Forall_impl; [eassumption|]. intros pc.
        apply winv_mono; auto; try lia.
        intros a x Hl. by apply lookup_app_l_Some.
      * rewrite take_app_le by lia. assumption.
      * rewrite take_app_le by (rewrite length_drop; lia). assumption.
    + (* EReadTail *)
      destruct Imain as (-> & Hv). simplify_eq. inv_goals.
      repeat split; try assumption. f_equal. lia.
    + (* EReadNext *)
      destruct Imain as (-> & Hv & ->). simpl in Hstep.
      destruct (H !! (length H - 1 - 1)%nat) as [nd|] eqn:Hnd; simplify_eq.
      inv_goals. repeat split; try assumption.
      rewrite (Iheap _ _ Hnd). rewrite decide_False by lia. reflexivity.
    + (* ECheckTail *)
      destruct Imain as (-> & Hv & -> & ->).
      case_decide; simplify_eq; inv_goals; repeat split; assumption.
    + (* ECasNext *)
      destruct Imain as (-> & Hv & ->). unfold cas_next in Hstep. simpl in Hstep.
      destruct (H !! (length H - 1 - 1)%nat) as [nd|] eqn:Hnd; [|discriminate].
      assert (Hnx : next nd = None).
      { rewrite (Iheap _ _ Hnd). apply decide_False. lia. }
      rewrite Hnx in Hstep. simpl in Hstep. simplify_eq.
      assert (Hlenv : length (map value H) = length H) by apply length_map.
      inv_goals; rewrite ?length_alter, ?map_value_alter by reflexivity;
        rewrite ?Nat.sub_0_r; try assumption; try reflexivity; try lia.
      * intros a nd' Hl. destruct (decide (a = length H - 1 - 1)%nat) as [->|Hne].
        { rewrite list_lookup_alter_eq, Hnd in Hl. simpl in Hl. simplify_eq. simpl.
          rewrite decide_True by lia. do 2 f_equal. lia. }
        rewrite list_lookup_alter_ne in Hl by congruence.
        rewrite (Iheap _ _ Hl).
        apply lookup_lt_Some in Hl as Hlt.
        destruct (decide (a + 1 < length H - 1)%nat).
        { rewrite decide_True by lia. reflexivity. }
        rewrite decide_False by lia. reflexivity.
      * repeat split; [lia|f_equal; lia].
      * eapply Forall_impl; [eassumption|]. intros pc.
        apply winv_mono; auto; try lia.
      * rewrite Ilinked.
        replace (length H) with (S (length H - 1)) at 2 by lia.
        rewrite (take_S_r _ _ _ Hv). rewrite drop_1_app; [reflexivity|].
        rewrite length_take. lia.
    + (* ECasTail *)
      destruct Imain as (HL & -> & ->). unfold cas_tail in Hstep. simpl in Hstep.
      case_decide as Hcas; simplify_eq; simpl; inv_goals.
      * eapply Forall_impl; [eassumption|]. intros pc.
        apply winv_mono; auto; try lia.
      * assert (t <> length H - 0 - 2)%nat by congruence. lia.
    + (* EIncSize *)
      assert (Hwrap : wrap (sz + 1) = sz + 1).
      { apply wrap_id, in_int_small. unfold MAX_QUEUE_SIZE in *. lia. }
      unfold add_size in Hstep. simpl in Hstep. rewrite Hwrap in Hstep. simplify_eq.
      inv_goals.
      eapply Forall_impl; [eassumption|]. intros pc.
      apply winv_mono; auto; try lia; discriminate.
    + contradiction.
  - (* MSetDone *)
    simplify_eq. inv_goals.
    + split; [lia|]. intros j Hj. lia.
    + eapply Forall_impl; [eassumption|]. intros pc. apply winv_mono; auto; lia.
  - (* MJoin *)
    destruct Imain as [Hi Hj].
    destruct (Nat.ltb_spec i ncpu).
    + destruct (ths !! i) as [[]|] eqn:Hthi; simplify_eq. inv_goals.
      split; [lia|]. intros j Hlt.
      destruct (decide (j = i)) as [->|Hne]; [assumption|]. apply Hj. lia.
    + simplify_eq. inv_goals. intros j Hlt. apply Hj. lia.
  - (* MReport *)
    simplify_eq. inv_goals. by rewrite Ireports.
  - (* MCleanup *)
    assert (Hex : ths !! O = Some WExit) by (apply Imain; lia).
    pose proof (Forall_lookup_1 _ _ _ _ Ithreads Hex) as [_ Hsz]. simpl in Hsz.
    destruct (lookup_lt_is_Some_2 H h ltac:(lia)) as [nd Hnd].
    rewrite Hnd in Hstep. rewrite (Iheap _ _ Hnd) in Hstep.
    rewrite decide_False in Hstep by lia. rewrite freeQueue_None in Hstep.
    simpl in Hstep. simplify_eq. inv_goals. by rewrite Ifreed.
  - discriminate.
  - discriminate.
Qed.

End MainSteps.

Section Reachability.

Lemma Inv_init sysconf junk input : Inv input [] (init sysconf junk input).
Proof.
  assert (1 <= Z.to_nat (if (sysconf <? 1)%Z then 1%Z else sysconf))%nat
    by (destruct (Z.ltb_spec sysconf 1); lia).
  constructor; unfold hidx, tidx, nlinked, vals; simpl;
    try reflexivity; try lia; try by constructor.
  - intros a nd Hl. apply list_lookup_singleton_Some in Hl as [-> <-]. reflexivity.
  - unfold MAX_QUEUE_SIZE. lia.
  - unfold MEMORY_POOL_SIZE. lia.
Qed.

Lemma Inv_step input tr s t ev s' :
  Inv input tr s -> step t s = Some (ev, s') -> Inv input (add_event ev tr) s'.
Proof.
  intros HI Hstep. unfold step in Hstep.
  destruct (terminated s); [discriminate|]. destruct t as [|w].
  - eapply Inv_main; eassumption.
  - destruct (threads s !! w) as [pc|] eqn:Hw; [|discriminate].
    eapply Inv_worker; eassumption.
Qed.

Lemma Inv_run input s tr s' :
  Inv input [] s -> run s tr s' -> Inv input tr s'.
Proof.
  intros HI Hrun. induction Hrun as [|tr s1 t ev s2 _ IH Hstep]; [assumption|].
  eapply Inv_step; eassumption.
Qed.

(** Every state the program can reach satisfies the invariant. *)
Lemma Inv_reachable sysconf junk input tr s :
  run (init sysconf junk input) tr s -> Inv input tr s.
Proof. apply Inv_run, Inv_init. Qed.

End Reachability.

Section Sequential.

Lemma wfq_createQueue junk : wfq (createQueue junk) [].
Proof.
  exists O. simpl. repeat split; try reflexivity; try (unfold INT_MAX; lia).
  intros a nd Hl. apply list_lookup_singleton_Some in Hl as [-> <-]. reflexivity.
Qed.

Lemma enqueue_spec m vs v :
  wfq m vs -> Z.of_nat (length vs) < INT_MAX ->
  exists m', enqueue CALL_FUEL m v = Some m' /\ wfq m' (vs ++ [v]).
Proof.
  intros (h & Hhd & Htl & Hlen & Hch & Hvs & Hsz & Hmax) Hb.
  destruct m as [H [hd tl sz]]. simpl in *. subst hd tl.
  assert (Hlast : exists nd, H !! (length H - 1)%nat = Some nd /\ next nd = None).
  { destruct (lookup_lt_is_Some_2 H (length H - 1) ltac:(lia)) as [nd Hnd].
    exists nd. split; [assumption|]. rewrite (Hch _ _ Hnd). apply decide_False. lia. }
  destruct Hlast as (nd & Hnd & Hnx).
  unfold enqueue, CALL_FUEL. simpl.
  rewrite lookup_app_l by lia. rewrite Hnd. simpl.
  rewrite decide_True by reflexivity. rewrite Hnx. simpl.
  unfold cas_next. simpl. rewrite lookup_app_l by lia. rewrite Hnd, Hnx. simpl.
  unfold cas_tail. simpl. rewrite decide_True by reflexivity. simpl.
  eexists. split; [reflexivity|].
  exists h. unfold add_size. simpl.
  rewrite !length_alter, !length_app, map_value_alter, map_app by reflexivity. simpl.
  repeat split.
  - f_equal. lia.
  - lia.
  - intros a nd' Hl. destruct (decide (a = length H - 1)%nat) as [->|Hne].
    + rewrite list_lookup_alter_eq, lookup_app_l, Hnd in Hl by lia.
      simpl in Hl. simplify_eq. simpl. rewrite decide_True by lia. do 2 f_equal. lia.
    + rewrite list_lookup_alter_ne in Hl by congruence.
      apply lookup_app_Some in Hl as [Hl|[Hge Hl]].
      * rewrite (Hch _ _ Hl). apply lookup_lt_Some in Hl as Hlt.
        rewrite !decide_True by lia. reflexivity.
      * apply list_lookup_singleton_Some in Hl as [Ha <-]. simpl.
        rewrite decide_False by lia. reflexivity.
  - rewrite drop_app_le by (rewrite length_map; lia). by rewrite Hvs.
  - rewrite wrap_id by (unfold in_int, INT_MIN, INT_MAX in *; lia).
    lia.
  - rewrite wrap_id by (unfold in_int, INT_MIN, INT_MAX in *; lia).
    lia.
Qed.

Lemma dequeue_empty_spec m :
  wfq m [] -> dequeue CALL_FUEL m = Some ((-1, None), m).
Proof.
  intros (h & Hhd & Htl & Hlen & Hch & Hvs & Hsz & Hmax).
  destruct m as [H [hd tl sz]]. simpl in *. subst hd tl.
  replace (length H - 1)%nat with h by lia.
  destruct (lookup_lt_is_Some_2 H h ltac:(lia)) as [nd Hnd].
  assert (Hnx : next nd = None).
  { rewrite (Hch _ _ Hnd). apply decide_False. lia. }
  unfold dequeue, CALL_FUEL. simpl. rewrite Hnd. simpl.
  rewrite !decide_True by reflexivity. rewrite Hnx. reflexivity.
Qed.

Lemma dequeue_value_spec m v vs :
  wfq m (v :: vs) ->
  exists m', dequeue CALL_FUEL m = Some ((v, Some (head (queue m))), m') /\ wfq m' vs.
Proof.
  intros (h & Hhd & Htl & Hlen & Hch & Hvs & Hsz & Hmax).
  destruct m as [H [hd tl sz]]. simpl in *. subst hd tl.
  destruct (lookup_lt_is_Some_2 H h ltac:(lia)) as [nd Hnd].
  assert (Hnx : next nd = Some (Heap (h + 1))).
  { rewrite (Hch _ _ Hnd). apply decide_True. lia. }
  destruct (lookup_lt_is_Some_2 H (h + 1) ltac:(lia)) as [nd1 Hnd1].
  assert (Hv : value nd1 = v).
  { assert (Hl : drop (h + 1) (map value H) !! O = Some v) by (rewrite Hvs; reflexivity).
    rewrite lookup_drop, list_lookup_fmap, Nat.add_0_r, Hnd1 in Hl.
    simpl in Hl. congruence. }
  unfold dequeue, CALL_FUEL. simpl. rewrite Hnd. simpl.
  rewrite decide_True by reflexivity.
  rewrite decide_False by (intros [=]; lia).
  rewrite Hnx. simpl. rewrite Hnd1. simpl.
  unfold cas_head. simpl. rewrite decide_True by reflexivity. simpl.
  eexists. split; [by rewrite Hv|].
  exists (h + 1)%nat. unfold add_size. simpl. repeat split; try assumption; try lia.
  - rewrite <- drop_drop, Hvs. reflexivity.
  - rewrite wrap_id by (unfold in_int, INT_MIN, INT_MAX in *; lia). lia.
  - rewrite wrap_id by (unfold in_int, INT_MIN, INT_MAX in *; lia). lia.
Qed.

Lemma chain_None fuel m : chain fuel m None = [].
Proof. by destruct fuel. Qed.

(** In a heap laid out as a chain of [L] nodes, the walk from node [a]
    visits [a], [a + 1], ..., [L - 1]. *)
Lemma chain_seq m L fuel : forall a,
  (forall a nd, heap m !! a = Some nd ->
     next nd = if decide (a + 1 < L)%nat then Some (Heap (a + 1)) else None) ->
  (L <= length (heap m))%nat -> (a < L)%nat -> (L - a <= fuel)%nat ->
  chain fuel m (Some (Heap a)) = Heap <$> seq a (L - a).
Proof.
  induction fuel as [|fuel IH]; intros a Hch HL Ha Hf; [lia|].
  destruct (lookup_lt_is_Some_2 (heap m) a ltac:(lia)) as [nd Hnd].
  simpl. rewrite Hnd. simpl. rewrite (Hch _ _ Hnd).
  replace (L - a)%nat with (S (L - (a + 1))) by lia. simpl. f_equal.
  case_decide.
  - rewrite IH by (try assumption; lia). by replace (S a) with (a + 1)%nat by lia.
  - rewrite chain_None. by replace (L - (a + 1))%nat with O by lia.
Qed.

Lemma lookup_map_value (H : list Node) a : map value H !! a = value <$> H !! a.
Proof. apply (list_lookup_fmap value). Qed.

Lemma values_seq m n : forall a,
  (a + n <= length (heap m))%nat ->
  omap (fun p => value <$> node_at m p) (Heap <$> seq a n) =
  take n (drop a (map value (heap m))).
Proof.
  induction n as [|n IH]; intros a Ha; [reflexivity|].
  destruct (lookup_lt_is_Some_2 (heap m) a ltac:(lia)) as [nd Hnd].
  simpl. rewrite Hnd. simpl. rewrite IH by lia.
  rewrite (drop_S _ (value nd) a) by (rewrite lookup_map_value, Hnd; reflexivity).
  reflexivity.
Qed.

Lemma unconsumed_chain m L h :
  (forall a nd, heap m !! a = Some nd ->
     next nd = if decide (a + 1 < L)%nat then Some (Heap (a + 1)) else None) ->
  (L <= length (heap m))%nat -> head (queue m) = Heap h -> (h < L)%nat ->
  queue_nodes m = Heap <$> seq h (L - h) /\
  unconsumed m = take (L - 1 - h) (drop (h + 1) (map value (heap m))).
Proof.
  intros Hch HL Hhd Hh.
  assert (Hq : queue_nodes m = Heap <$> seq h (L - h)).
  { unfold queue_nodes. rewrite Hhd. apply chain_seq; try assumption; lia. }
  split; [assumption|]. unfold unconsumed. rewrite Hq.
  replace (L - h)%nat with (S (L - 1 - h)) by lia. simpl. rewrite drop_0.
  replace (S h) with (h + 1)%nat by lia. apply values_seq. lia.
Qed.

Lemma wfq_unconsumed m vs : wfq m vs -> unconsumed m = vs.
Proof.
  intros (h & Hhd & Htl & Hlen & Hch & Hvs & Hsz & Hmax).
  destruct (unconsumed_chain m (length (heap m)) h Hch ltac:(lia) Hhd ltac:(lia)) as [_ ->].
  rewrite Hvs. apply take_ge. lia.
Qed.

(** Used by one thread at a time, the queue is a FIFO list: every call
    returns what the list returns, and is left holding what the list holds. *)
Lemma run_ops_refines ops : forall m q,
  wfq m q -> Z.of_nat (length q + enq_count ops) <= INT_MAX ->
  exists rs m', run_ops ops m = Some (rs, m') /\
    map as_option rs = fst (fifo_spec ops q) /\ wfq m' (snd (fifo_spec ops q)).
Proof.
  induction ops as [|[v|] ops IH]; intros m q Hwf Hb; simpl in *.
  - exists [], m. auto.
  - destruct (enqueue_spec m q v Hwf ltac:(lia)) as (m1 & -> & Hwf1).
    apply IH; [assumption|]. rewrite length_app. simpl. lia.
  - destruct q as [|v q0].
    + rewrite (dequeue_empty_spec m Hwf).
      destruct (IH m [] Hwf Hb) as (rs & m' & -> & Hrs & Hwf').
      exists ((-1, None) :: rs), m'. destruct (fifo_spec ops []) as [rs0 q'].
      simpl in *. by rewrite Hrs.
    + destruct (dequeue_value_spec m v q0 Hwf) as (m1 & -> & Hwf1).
      destruct (IH m1 q0 Hwf1 ltac:(simpl in Hb; lia)) as (rs & m' & -> & Hrs & Hwf').
      eexists (_ :: rs), m'. destruct (fifo_spec ops q0) as [rs0 q'].
      simpl in *. by rewrite Hrs.
Qed.

(** What [enqueue] does to a queue at rest, whatever [size] is: the
    increment of [size] is modulo 2^32. *)
Lemma enqueue_wrap m vs v :
  wfq m vs ->
  exists m', enqueue CALL_FUEL m v = Some m' /\
    size (queue m') = wrap (size (queue m) + 1) /\ unconsumed m' = vs ++ [v].
Proof.
  intros (h & Hhd & Htl & Hlen & Hch & Hvs & Hsz & Hmax).
  destruct m as [H [hd tl sz]]. simpl in *. subst hd tl.
  destruct (lookup_lt_is_Some_2 H (length H - 1) ltac:(lia)) as [nd Hnd].
  assert (Hnx : next nd = None).
  { rewrite (Hch _ _ Hnd). apply decide_False. lia. }
  unfold enqueue, CALL_FUEL. simpl.
  rewrite lookup_app_l by lia. rewrite Hnd. simpl.
  rewrite decide_True by reflexivity. rewrite Hnx. simpl.
  unfold cas_next. simpl. rewrite lookup_app_l by lia. rewrite Hnd, Hnx. simpl.
  unfold cas_tail. simpl. rewrite decide_True by reflexivity. simpl.
  eexists. split; [reflexivity|]. split; [reflexivity|].
  match goal with |- unconsumed ?m' = _ =>
    destruct (unconsumed_chain m' (S (length H)) h) as [_ ->] end.
  - simpl. intros a nd' Hl. destruct (decide (a = length H - 1)%nat) as [->|Hne].
    + rewrite list_lookup_alter_eq, lookup_app_l, Hnd in Hl by lia.
      simpl in Hl. simplify_eq. simpl. rewrite decide_True by lia. do 2 f_equal. lia.
    + rewrite list_lookup_alter_ne in Hl by congruence.
      apply lookup_app_Some in Hl as [Hl|[Hge Hl]].
      * rewrite (Hch _ _ Hl). apply lookup_lt_Some in Hl as Hlt.
        rewrite !decide_True by lia. reflexivity.
      * apply list_lookup_singleton_Some in Hl as [Ha <-]. simpl.
        rewrite decide_False by lia. reflexivity.
  - simpl. rewrite length_alter, length_app. simpl. lia.
  - reflexivity.
  - lia.
  - simpl. rewrite map_value_alter, map_app by reflexivity. simpl.
    rewrite drop_app_le by (rewrite length_map; lia). rewrite Hvs.
    apply take_ge. rewrite length_app. simpl. lia.
Qed.

Lemma run_ops_app ops1 ops2 m rs1 m1 rs2 m2 :
  run_ops ops1 m = Some (rs1, m1) -> run_ops ops2 m1 = Some (rs2, m2) ->
  run_ops (ops1 ++ ops2) m = Some (rs1 ++ rs2, m2).
Proof.
  revert m rs1. induction ops1 as [|[v|] ops1 IH]; intros m rs1 H1 H2; simpl in *.
  - by simplify_eq.
  - destruct (enqueue CALL_FUEL m v) as [m'|]; [|discriminate]. by apply IH.
  - destruct (dequeue CALL_FUEL m) as [[r m']|]; [|discriminate].
    destruct (run_ops ops1 m') as [[rs m'']|] eqn:Hr; [|discriminate]. simplify_eq.
    by rewrite (IH _ _ Hr H2).
Qed.

Lemma fifo_spec_enqueues n v : forall q,
  fifo_spec (replicate n (Enq v)) q = ([], q ++ replicate n v).
Proof.
  induction n as [|n IH]; intros q; simpl; [by rewrite app_nil_r|].
  rewrite IH. by rewrite <- app_assoc.
Qed.

Lemma enq_count_enqueues n v : enq_count (replicate n (Enq v)) = n.
Proof. induction n as [|n IH]; simpl; [reflexivity|]. by rewrite IH. Qed.

(** [n] + 1 enqueues on a new queue when [n] is INT_MAX: the last one takes
    [size] from INT_MAX to INT_MIN. *)
Lemma enqueues_wrap n junk :
  Z.of_nat n = INT_MAX ->
  exists rs m,
    run_ops (replicate n (Enq 0) ++ [Enq 0]) (createQueue junk) = Some (rs, m) /\
    size (queue m) = INT_MIN /\ Z.of_nat (length (unconsumed m)) = INT_MAX + 1.
Proof.
  intros Hn.
  destruct (run_ops_refines (replicate n (Enq 0)) (createQueue junk) []
              (wfq_createQueue junk)) as (rs & m1 & Hrun & _ & Hwf).
  { rewrite enq_count_enqueues. simpl. lia. }
  rewrite fifo_spec_enqueues in Hwf. simpl in Hwf.
  destruct (enqueue_wrap m1 _ 0 Hwf) as (m2 & Henq & Hsz & Hun).
  exists (rs ++ []), m2. split; [|split].
  - apply (run_ops_app _ _ _ _ _ _ _ Hrun). simpl. by rewrite Henq.
  - rewrite Hsz. destruct Hwf as (? & ? & ? & ? & ? & ? & -> & ?).
    rewrite length_replicate, Hn. reflexivity.
  - rewrite Hun, length_app, length_replicate. simpl. lia.
Qed.

End Sequential.

(** ** Consequences of the invariant *)

Section Consequences.

Lemma exec_run sched : forall s0 s tr,
  run s0 tr s -> run s0 (fst (exec sched s tr)) (snd (exec sched s tr)).
Proof.
  induction sched as [|t sched IH]; intros s0 s tr Hrun; simpl; [assumption|].
  destruct (step t s) as [[ev s']|] eqn:Hstep; [|by apply IH].
  apply IH. eapply run_step; eassumption.
Qed.

Lemma exec_app sched1 sched2 s tr :
  exec (sched1 ++ sched2) s tr =
  exec sched2 (snd (exec sched1 s tr)) (fst (exec sched1 s tr)).
Proof.
  revert s tr. induction sched1 as [|t sched1 IH]; intros s tr; simpl; [reflexivity|].
  destruct (step t s) as [[ev s']|]; apply IH.
Qed.

Lemma Inv_exec sysconf junk input sched :
  Inv input (fst (exec sched (init sysconf junk input) []))
            (snd (exec sched (init sysconf junk input) [])).
Proof. apply (Inv_reachable sysconf junk), exec_run, run_nil. Qed.

Lemma Inv_unconsumed input tr s :
  Inv input tr s ->
  queue_nodes (qm s) = Heap <$> seq (hidx s) (nlinked s - hidx s) /\
  unconsumed (qm s) = take (nlinked s - 1 - hidx s) (drop (hidx s + 1) (vals s)).
Proof.
  intros HI. destruct_inv HI.
  apply unconsumed_chain; try assumption; unfold nlinked in *; lia.
Qed.

Lemma unconsumed_length input tr s :
  Inv input tr s ->
  length (unconsumed (qm s)) = (nlinked s - 1 - hidx s)%nat.
Proof.
  intros HI. pose proof (Inv_unconsumed _ _ _ HI) as [_ ->]. destruct_inv HI.
  rewrite length_take, length_drop. unfold vals, nlinked in *. rewrite length_map. lia.
Qed.

(** When [main] is past the joins everything has been counted. *)
Lemma Inv_final input tr s :
  Inv input tr s ->
  match main s with MReport | MCleanup | MReturn => True | _ => False end ->
  threads s = replicate (numCPU s) WExit /\
  hidx s = (length (heap (qm s)) - 1)%nat /\
  input = drop 1 (vals s) /\
  total_counter s = count_primes input.
Proof.
  intros HI Hm. destruct_inv HI.
  assert (Hall : forall j, (j < numCPU s)%nat -> threads s !! j = Some WExit).
  { destruct (main s); simpl in *; try contradiction; assumption. }
  assert (Hlen : length (threads s) = numCPU s).
  { destruct Inth as [_ Hn]. destruct (main s); try contradiction; assumption. }
  assert (Hths : threads s = replicate (numCPU s) WExit).
  { apply list_eq. intros j. destruct (decide (j < numCPU s)%nat).
    - rewrite Hall, lookup_replicate_2 by lia. reflexivity.
    - rewrite !lookup_ge_None_2; [reflexivity|rewrite length_replicate; lia|lia]. }
  pose proof (Forall_lookup_1 _ _ _ _ Ithreads (Hall O ltac:(lia))) as [_ Hsz].
  assert (Hzero1 : sum_list_with in_dec (threads s) = O).
  { rewrite Hths. apply sum_list_with_zero, Forall_replicate. reflexivity. }
  assert (Hzero2 : sum_list_with pending_prime (threads s) = O).
  { rewrite Hths. apply sum_list_with_zero, Forall_replicate. reflexivity. }
  assert (Hmain : unlinked_pending (main s) = O /\ pending_inc (main s) = O /\
                  pending_num (main s) = [] /\ past_input (main s) = true).
  { destruct (main s); try contradiction; repeat split. }
  destruct Hmain as (Hm1 & Hm2 & Hm3 & Hm5).
  unfold nlinked in *. rewrite Hm1, Hm2, Hzero1 in *.
  assert (Hh : hidx s = (length (heap (qm s)) - 1)%nat) by lia.
  assert (Hin : input = drop 1 (vals s)).
  { rewrite Iinput, Hm3, (Istdin Hm5). by rewrite !app_nil_r. }
  repeat split; try assumption.
  rewrite Hzero2 in Itotal. rewrite Hin, <- (take_ge (drop 1 (vals s)) (hidx s)); [lia|].
  rewrite length_drop. unfold vals. rewrite length_map. lia.
Qed.

End Consequences.

(** ** The arena *)

Section Arena.

Lemma allocateNode_Some p node p' :
  allocateNode p = (Some node, p') ->
  index p < MEMORY_POOL_SIZE /\ node = Slot (index p) /\
  p' = mkPool (nodes p) (wrap (index p + 1)).
Proof.
  unfold allocateNode. destruct (Z.leb_spec MEMORY_POOL_SIZE (index p)); intros [= <- <-].
  repeat split. assumption.
Qed.

Lemma allocateNode_None p :
  fst (allocateNode p) = None <-> MEMORY_POOL_SIZE <= index p.
Proof.
  unfold allocateNode. destruct (Z.leb_spec MEMORY_POOL_SIZE (index p)); simpl.
  - tauto.
  - split; [discriminate|lia].
Qed.

Lemma index_store_value p node v : index (store_value p node v) = index p.
Proof. by destruct node. Qed.

Lemma pool_reachable_range p :
  pool_reachable p -> 0 <= index p <= MEMORY_POOL_SIZE.
Proof.
  induction 1 as [|p node p' _ IH Halloc|p node v _ IH].
  - simpl. unfold MEMORY_POOL_SIZE. lia.
  - apply allocateNode_Some in Halloc as (Hlt & _ & ->). simpl.
    rewrite wrap_id; [lia|]. apply in_int_small. unfold MEMORY_POOL_SIZE in *. lia.
  - by rewrite index_store_value.
Qed.

Lemma later_index p p' :
  pool_reachable p -> later p p' -> pool_reachable p' /\ index p <= index p'.
Proof.
  intros Hp. induction 1 as [|p1 node p2 _ [IH1 IH2] Halloc|p1 node v _ [IH1 IH2]].
  - split; [assumption|lia].
  - split; [eapply pool_alloc; eassumption|].
    pose proof (pool_reachable_range _ IH1).
    apply allocateNode_Some in Halloc as (Hlt & _ & ->). simpl.
    rewrite wrap_id; [lia|]. apply in_int_small. unfold MEMORY_POOL_SIZE in *. lia.
  - split; [by apply pool_store|]. by rewrite index_store_value.
Qed.

End Arena.

(** ** Workers leave their loop *)



Section WorkerExit.





Lemma done_main_step input tr s ev s' :
  Inv input tr s -> done s = true -> main_step s = Some (ev, s') ->
  qm s' = qm s /\ done s' = done s /\ threads s' = threads s.
Proof.
  intros HI Hdn Hstep. pose proof (inv_done _ _ _ HI) as Hpd. rewrite Hdn in Hpd.
  unfold main_step in Hstep.
  destruct (main s) as [| | | |[]| |i| | | |?]; simpl in *; try discriminate;
    repeat case_match; by simplify_eq.
Qed.




(** ** Outstanding decrements land

    With [done] set and nothing unconsumed, [size] may still be positive
    because of workers that have unlinked a node and not decremented yet.
    Each of them does so at its next step, and no worker can unlink
    again. *)








End WorkerExit.

(** ** Every execution can be continued to its end *)

Section Progress.

Lemma lex3_ind {A : Type} (f g h : A -> nat) (P : A -> Prop) :
  (forall x,
     (forall y, (f y < f x)%nat \/
                (f y = f x /\ ((g y < g x)%nat \/ (g y = g x /\ (h y < h x)%nat))) ->
                P y) -> P x) ->
  forall x, P x.
Proof.
  intros Hstep.
  assert (H : forall a b c x, f x = a -> g x = b -> h x = c -> P x).
  { induction a as [a IHa] using lt_wf_ind.
    induction b as [b IHb] using lt_wf_ind.
    induction c as [c IHc] using lt_wf_ind.
    intros x <- <- <-. apply Hstep. intros y [Hf|[Hf [Hg|[Hg Hh]]]].
    - by eapply IHa.
    - eapply IHb; [exact Hg|by symmetry|reflexivity..].
    - eapply IHc; [exact Hh|by symmetry..]. }
  intros x. by eapply H.
Qed.

Lemma in_dec_exists ths :
  (0 < sum_list_with in_dec ths)%nat ->
  exists w hd v, ths !! w = Some (WDequeue (DDecSize hd v)).
Proof.
  induction ths as [|pc ths IH]; simpl; [lia|]. intros Hpos.
  destruct (in_dec pc) eqn:Hpc.
  - destruct IH as (w & hd & v & Hw); [lia|]. by exists (S w), hd, v.
  - destruct pc as [| |[| | | | | | |hd v]| | |]; try discriminate. by exists O, hd, v.
Qed.

Lemma worker_step_main w pc s ev s' :
  worker_step w pc s = Some (ev, s') ->
  main s' = main s /\ stdin s' = stdin s /\ numCPU s' = numCPU s /\ done s' = done s /\
  heap (qm s') = heap (qm s) /\
  exists pc', threads s' = <[w := pc']> (threads s).
Proof.
  intros Hstep.
  destruct pc as [| |[|hd|hd tl|hd tl nx|tl nx|hd nx|hd nx v|hd v]| | |]; simpl in Hstep;
    unfold cas_tail, cas_head in Hstep;
    repeat case_match; simplify_eq; simpl; repeat split; try congruence; by eexists.
Qed.

Lemma wrank_ext s s' pc :
  qm s' = qm s -> done s' = done s -> main s' = main s -> wrank s' pc = wrank s pc.
Proof.
  intros Hq Hd Hm.
  unfold wrank, drank, wrestart, wtop, hidx, nlinked. by rewrite Hq, Hd, Hm.
Qed.

(** A step of worker [w] that leaves the shared state alone and lowers its
    own rank lowers the sum of the ranks. *)
Lemma local_step s s' w pc pc' :
  threads s !! w = Some pc ->
  qm s' = qm s -> done s' = done s -> main s' = main s ->
  threads s' = <[w := pc']> (threads s) ->
  in_dec pc = O -> in_dec pc' = O -> (wrank s pc' < wrank s pc)%nat ->
  qmeasure s' = qmeasure s /\ (rmeasure s' < rmeasure s)%nat.
Proof.
  intros Hw Hq Hd Hm Ht Hi Hi' Hlt.
  pose proof (sum_list_with_insert in_dec _ _ _ pc' Hw) as Hdec.
  pose proof (sum_list_with_insert (wrank s) _ _ _ pc' Hw) as Hrk.
  unfold qmeasure, rmeasure, nlinked, hidx, tidx. rewrite Hq, Hm, Ht.
  rewrite (sum_list_with_ext (wrank s') (wrank s)) by (intros; by apply wrank_ext).
  split; lia.
Qed.

Ltac local_step_tac Hw :=
  eexists _, _; split; [reflexivity|]; right;
  eapply (local_step _ _ _ _ _ Hw); try reflexivity.

Ltac rank_tac :=
  try match goal with H : (0 < _)%nat |- _ => revert H end;
  unfold wrank, drank, wrestart, wtop; simpl;
  repeat match goal with
         | H : head (queue (qm ?s)) = _ |- _ => rewrite H
         | H : tail (queue (qm ?s)) = _ |- _ => rewrite H
         | H : _ = true |- _ => rewrite H
         | H : _ = false |- _ => rewrite H
         end;
  simpl;
  repeat match goal with
         | |- context [decide ?P] => destruct (decide P)
         | |- context [(?x =? ?y)%nat] => destruct (Nat.eqb_spec x y) as [?|?]
         | |- context [(0 <? ?z)%Z] => destruct (Z.ltb_spec 0 z) as [?|?]
         | |- context [(?v =? -1)%Z] => destruct (Z.eqb_spec v (-1)) as [?|?]
         | |- context [if ?c then _ else _] => destruct c eqn:?
         end;
  simpl; intros; simplify_eq;
  repeat match goal with
         | H : Heap ?a <> Heap ?b |- _ =>
             assert (a <> b) by congruence; clear H
         end;
  try lia; try congruence.

(** A worker with a positive rank can move, and its step brings the whole
    closer to the end. *)
Lemma worker_progress input tr s w pc :
  Inv input tr s -> threads s !! w = Some pc -> (0 < wrank s pc)%nat ->
  exists ev s', worker_step w pc s = Some (ev, s') /\
    ((qmeasure s' < qmeasure s)%nat \/
     (qmeasure s' = qmeasure s /\ (rmeasure s' < rmeasure s)%nat)).
Proof.
  intros HI Hw Hpos.
  pose proof (Forall_lookup_1 _ _ _ _ (inv_threads _ _ _ HI) Hw) as Hwinv.
  pose proof (inv_head _ _ _ HI) as Hhead. pose proof (inv_tail _ _ _ HI) as Htail.
  pose proof (inv_heap _ _ _ HI) as Hheap.
  pose proof (inv_order _ _ _ HI) as Hord.
  pose proof (inv_len _ _ _ HI) as Hlen.
  pose proof (inv_size _ _ _ HI) as Hsize.
  pose proof (inv_done _ _ _ HI) as Hdone.
  assert (HLlen : (nlinked s <= length (heap (qm s)))%nat) by (unfold nlinked; lia).
  destruct pc as [| |d| | |]; simpl in *.
  - (* WLoadDone *)
    destruct (done s) eqn:Hdn; local_step_tac Hw; rank_tac.
  - (* WLoadSize *)
    destruct (0 <? size (queue (qm s))) eqn:Hsz; local_step_tac Hw; rank_tac.
  - destruct d as [|hd|hd tl|hd tl nx|tl nx|hd nx|hd nx v|hd v]; simpl in *.
    + (* DReadHead *) local_step_tac Hw. rank_tac.
    + (* DReadTail *) local_step_tac Hw. rank_tac.
    + (* DReadNext *)
      destruct Hwinv as (a & b & -> & -> & Ha & Hab & Hb). simpl.
      destruct (lookup_lt_is_Some_2 (heap (qm s)) a ltac:(lia)) as [nd Hnd].
      rewrite Hnd. pose proof (Hheap _ _ Hnd) as Hnx.
      local_step_tac Hw. rewrite Hnx. rank_tac.
    + (* DCheckHead *)
      destruct Hwinv as (a & b & -> & -> & Ha & Hab & Hb & Hn1 & Hn2).
      destruct (decide (Heap a = head (queue (qm s)))) as [Heq|Hne].
      * destruct (decide (Heap a = Heap b)) as [Heq2|Hne2].
        { destruct nx as [x|]; local_step_tac Hw; rank_tac. }
        local_step_tac Hw. rank_tac.
      * local_step_tac Hw. rank_tac.
    + (* DHelp *)
      destruct Hwinv as (b & -> & -> & Hb).
      unfold cas_tail. destruct (decide (tail (queue (qm s)) = Heap b)) as [Heq|Hne].
      * eexists _, _. split; [reflexivity|]. left.
        pose proof (sum_list_with_insert in_dec _ _ _ (WDequeue DReadHead) Hw) as Hdec.
        unfold qmeasure, nlinked, hidx, tidx in *. simpl in *.
        rewrite Heq in *. simpl in *. lia.
      * simpl. local_step_tac Hw. rank_tac.
    + (* DReadValue *)
      destruct Hwinv as (a & -> & -> & Ha & Hat). simpl.
      destruct (lookup_lt_is_Some_2 (heap (qm s)) (a + 1) ltac:(lia)) as [nd Hnd].
      rewrite Hnd. local_step_tac Hw. rank_tac.
    + (* DCasHead *)
      destruct Hwinv as (a & -> & -> & Ha & Hat & Hv).
      unfold cas_head. destruct (decide (head (queue (qm s)) = Heap a)) as [Heq|Hne].
      * eexists _, _. split; [reflexivity|]. left.
        pose proof (sum_list_with_insert in_dec _ _ _ (WDequeue (DDecSize (Heap a) v)) Hw)
          as Hdec.
        unfold qmeasure, nlinked, hidx, tidx in *. simpl in *.
        rewrite Heq in *. simpl in *. lia.
      * local_step_tac Hw. rank_tac.
    + (* DDecSize *)
      eexists _, _. split; [reflexivity|]. left.
      pose proof (sum_list_with_insert in_dec _ _ _ (WTest v) Hw) as Hdec.
      unfold qmeasure, nlinked, hidx, tidx in *. simpl in *. lia.
  - (* WTest *)
    destruct (Z.eqb_spec num (-1)).
    + local_step_tac Hw. rank_tac.
    + destruct (isPrime num) eqn:Hp; local_step_tac Hw; rank_tac.
  - (* WCount *) local_step_tac Hw. rank_tac.
  - lia.
Qed.

Ltac main_done :=
  eexists _, _; split; [reflexivity|]; split;
  [unfold mmeasure; simpl; lia|intros _ ?; discriminate].

(** [main] can move unless it waits, its step brings it closer to its end,
    and within the capacity of the arena it is not the fatal exit. *)
Lemma main_progress input tr s :
  Inv input tr s -> terminated s = false -> blocked s = false ->
  exists ev s', main_step s = Some (ev, s') /\
    (mmeasure s' < mmeasure s)%nat /\
    (Z.of_nat (length input) <= MEMORY_POOL_SIZE -> forall n, main s' <> MAborted n).
Proof.
  intros HI Hterm Hblk.
  destruct s as [[H [hd tl sz]] [pn idx] tot dn inp ncpu mpc ths].
  destruct_inv HI; unfold hidx, tidx, nlinked, vals in *; simpl in *.
  destruct hd as [h|]; [|discriminate]. destruct tl as [t|]; [|discriminate].
  simpl in *. clear Ihead Itail.
  unfold main_step, blocked, terminated in *; simpl in *.
  destruct mpc as [i| |num|num|e| |i| | | |num]; simpl in *; try discriminate.
  - (* MCreate *)
    destruct Imain as [Hi Hlen].
    destruct (Nat.ltb_spec i ncpu); main_done.
  - (* MScanf *)
    destruct inp as [|num rest]; main_done.
  - (* MBackpressure *)
    rewrite Hblk. main_done.
  - (* MAllocate *)
    unfold allocateNode. simpl.
    destruct (Z.leb_spec MEMORY_POOL_SIZE idx).
    + eexists _, _. split; [reflexivity|].
      split; [unfold mmeasure; simpl; lia|]. intros Hcap. exfalso.
      rewrite Iinput in Hcap. rewrite !length_app, length_drop, length_map in Hcap.
      simpl in Hcap. lia.
    + simpl. rewrite lookup_insert_eq. main_done.
  - (* MEnqueue *)
    destruct e as [v|v nw|v nw tl|v nw tl nx|v nw tl|nw tl| |v nw tl nx];
      simpl in *.
    + main_done.
    + main_done.
    + destruct Imain as (-> & Hv & ->). simpl.
      destruct (lookup_lt_is_Some_2 H (length H - 1 - 1) ltac:(lia)) as [nd Hnd].
      rewrite Hnd. main_done.
    + destruct Imain as (-> & Hv & -> & ->).
      rewrite decide_True by (f_equal; lia). main_done.
    + destruct Imain as (-> & Hv & ->). unfold cas_next. simpl.
      destruct (lookup_lt_is_Some_2 H (length H - 1 - 1) ltac:(lia)) as [nd Hnd].
      rewrite Hnd.
      assert (Hnx : next nd = None).
      { rewrite (Iheap _ _ Hnd). apply decide_False. lia. }
      rewrite Hnx. simpl. main_done.
    + main_done.
    + main_done.
    + contradiction.
  - (* MSetDone *) main_done.
  - (* MJoin *)
    destruct (Nat.ltb_spec i ncpu).
    + destruct (ths !! i) as [[]|] eqn:Hthi; simpl in Hblk; try discriminate. main_done.
    + main_done.
  - (* MReport *) main_done.
  - (* MCleanup *)
    destruct (lookup_lt_is_Some_2 H h ltac:(lia)) as [nd Hnd].
    rewrite Hnd.
    destruct (freeQueue (length H) (mkMem H (mkQueue (Heap h) (Heap t) sz)) (next nd))
      as [ps|] eqn:Hfree.
    + simpl. main_done.
    + exfalso.
      assert (Hex : ths !! O = Some WExit) by (apply Imain; lia).
      pose proof (Forall_lookup_1 _ _ _ _ Ithreads Hex) as [_ Hsz]. simpl in Hsz.
      rewrite (Iheap _ _ Hnd) in Hfree.
      rewrite decide_False in Hfree by lia. rewrite freeQueue_None in Hfree.
      discriminate.
Qed.

(** No thread ever faults: a thread that cannot move is a worker that has
    left its loop, or [main] waiting in [pthread_join] for a worker that has
    not, unless the process has ended. *)
Lemma no_fault input tr s t :
  Inv input tr s -> step t s = None ->
  terminated s = true \/
  match t with
  | Worker w => threads s !! w = None \/ threads s !! w = Some WExit
  | Main => exists i, main s = MJoin i /\ (i < numCPU s)%nat /\
                      threads s !! i <> Some WExit
  end.
Proof.
  intros HI Hstep. unfold step in Hstep.
  destruct (terminated s) eqn:Hterm; [by left|]. right. destruct t as [|w].
  - destruct (blocked s) eqn:Hblk.
    + unfold blocked in Hblk. unfold main_step in Hstep.
      destruct (main s) as [| |num| | | |i| | | |]; try discriminate.
      * by rewrite Hblk in Hstep.
      * apply andb_true_iff in Hblk as [Hi Hex]. apply Nat.ltb_lt in Hi.
        exists i. repeat split; [assumption|]. intros Hw. by rewrite Hw in Hex.
    + destruct (main_progress _ _ _ HI Hterm Hblk) as (ev & s' & Hstep' & _). congruence.
  - destruct (threads s !! w) as [pc|] eqn:Hw; [|by left]. right. f_equal.
    destruct (Nat.eq_dec (wrank s pc) O) as [Hz|Hnz].
    + destruct pc as [| |[|hd|hd tl|hd tl nx|tl nx|hd nx|hd nx v|hd v]| | |];
        try reflexivity; exfalso; revert Hz Hstep;
        unfold wrank, drank, wrestart; simpl;
        repeat case_decide; repeat case_match; intros; simplify_eq; lia.
    + destruct (worker_progress _ _ _ _ _ HI Hw ltac:(lia)) as (ev & s' & Hstep' & _).
      congruence.
Qed.

Lemma wrank_pos s pc :
  pc <> WExit -> (pc = WLoadDone -> (0 < wtop s)%nat) -> (0 < wrank s pc)%nat.
Proof.
  intros Hne Htop.
  destruct pc as [| |[|hd|hd tl|hd tl nx|tl nx|hd nx|hd nx v|hd v]| | |];
    try (specialize (Htop eq_refl)); try congruence;
    unfold wrank, drank, wrestart; simpl;
    repeat case_decide; repeat case_match; lia.
Qed.

(** While [main] waits some worker has something to do. *)
Lemma exists_active input tr s :
  Inv input tr s -> blocked s = true ->
  exists w pc, threads s !! w = Some pc /\ (0 < wrank s pc)%nat.
Proof.
  intros HI Hblk.
  destruct (Nat.eq_dec (sum_list_with in_dec (threads s)) O) as [HD|HD].
  2: { destruct (in_dec_exists (threads s)) as (w & hd & v & Hw); [lia|].
       exists w, (WDequeue (DDecSize hd v)). split; [assumption|]. simpl. lia. }
  pose proof (inv_size _ _ _ HI) as Hsize. pose proof (inv_order _ _ _ HI) as Hord.
  pose proof (inv_done _ _ _ HI) as Hdone. pose proof (inv_ncpu _ _ _ HI) as Hn.
  pose proof (inv_nthreads _ _ _ HI) as [_ Hlen].
  pose proof (inv_threads _ _ _ HI) as Hths.
  rewrite HD in Hsize. unfold blocked in Hblk.
  destruct (main s) as [| |num| | | |i| | | |] eqn:Hm; try discriminate; simpl in *.
  - (* backpressure: the queue is full *)
    apply Z.leb_le in Hblk. unfold MAX_QUEUE_SIZE in Hblk.
    destruct (lookup_lt_is_Some_2 (threads s) O ltac:(lia)) as [pc Hpc].
    exists O, pc. split; [assumption|].
    pose proof (Forall_lookup_1 _ _ _ _ Hths Hpc) as Hw.
    apply wrank_pos.
    + intros ->. destruct Hw as [Hw _]. congruence.
    + intros _. unfold wtop. destruct (Nat.eqb_spec (hidx s + 1) (nlinked s)); lia.
  - (* join: worker i has not left *)
    apply andb_true_iff in Hblk as [Hi Hex]. apply Nat.ltb_lt in Hi.
    destruct (lookup_lt_is_Some_2 (threads s) i ltac:(lia)) as [pc Hpc].
    rewrite Hpc in Hex. exists i, pc. split; [assumption|].
    apply wrank_pos.
    + intros ->. discriminate.
    + intros _. unfold wtop. rewrite Hdone.
      destruct (Nat.eqb_spec (hidx s + 1) (nlinked s)); [|lia].
      destruct (Z.ltb_spec 0 (size (queue (qm s)))); simpl; lia.
Qed.

(** From every state of an execution on an input that fits the arena the
    program can run to its end. *)
Lemma can_finish input :
  Z.of_nat (length input) <= MEMORY_POOL_SIZE ->
  forall x : list event * state,
    Inv input (fst x) (snd x) -> (forall n, main (snd x) <> MAborted n) ->
    exists sched, main (snd (exec sched (snd x) (fst x))) = MReturn.
Proof.
  intros Hcap x.
  induction x as [[tr s] IH]
    using (lex3_ind (fun x => mmeasure (snd x)) (fun x => qmeasure (snd x))
                    (fun x => rmeasure (snd x))).
  simpl in *. intros HI Hab.
  destruct (terminated s) eqn:Hterm.
  { exists []. simpl. unfold terminated in Hterm.
    destruct (main s) eqn:Hm; try discriminate; [reflexivity|]. by destruct (Hab num). }
  destruct (blocked s) eqn:Hblk.
  - destruct (exists_active _ _ _ HI Hblk) as (w & pc & Hw & Hpos).
    destruct (worker_progress _ _ _ _ _ HI Hw Hpos) as (ev & s' & Hstep & Hlt).
    destruct (worker_step_main _ _ _ _ _ Hstep) as (Hm & Hin & Hn & _).
    assert (Hst : step (Worker w) s = Some (ev, s')).
    { unfold step. rewrite Hterm, Hw. exact Hstep. }
    destruct (IH (add_event ev tr, s')) as [sched Hsched]; simpl.
    + right. split; [unfold mmeasure; by rewrite Hm, Hin, Hn|].
      destruct Hlt as [Hlt|[Heq Hlt]]; [by left|right; by split].
    + eapply Inv_step; eassumption.
    + intros n. rewrite Hm. apply Hab.
    + exists (Worker w :: sched). simpl. rewrite Hst. exact Hsched.
  - destruct (main_progress _ _ _ HI Hterm Hblk) as (ev & s' & Hstep & Hlt & Hprog).
    pose proof (Hprog Hcap) as Hab'.
    assert (Hst : step Main s = Some (ev, s')).
    { unfold step. rewrite Hterm. exact Hstep. }
    destruct (IH (add_event ev tr, s')) as [sched Hsched]; simpl.
    + by left.
    + eapply Inv_step; eassumption.
    + exact Hab'.
    + exists (Main :: sched). simpl. rewrite Hst. exact Hsched.
Qed.

(** Within the capacity of the arena [allocateNode] does not end the
    process. *)
Lemma step_not_aborted input tr s t ev s' :
  Inv input tr s -> Z.of_nat (length input) <= MEMORY_POOL_SIZE ->
  step t s = Some (ev, s') -> forall n, main s' <> MAborted n.
Proof.
  intros HI Hcap Hstep n. unfold step in Hstep.
  destruct (terminated s) eqn:Hterm; [discriminate|]. destruct t as [|w].
  - destruct (blocked s) eqn:Hblk.
    + unfold blocked in Hblk. unfold main_step in Hstep.
      destruct (main s) eqn:Hm; try discriminate.
      * rewrite Hblk in Hstep. simplify_eq. by rewrite Hm.
      * repeat case_match; simplify_eq; simpl; discriminate.
    + destruct (main_progress _ _ _ HI Hterm Hblk) as (ev' & s'' & Hstep' & _ & Hprog).
      rewrite Hstep in Hstep'. simplify_eq. apply (Hprog Hcap).
  - destruct (threads s !! w) as [pc|]; [|discriminate].
    destruct (worker_step_main _ _ _ _ _ Hstep) as (Hm & _). rewrite Hm.
    unfold terminated in Hterm. destruct (main s); discriminate.
Qed.

Lemma exec_not_aborted input sched : forall s tr,
  Inv input tr s -> Z.of_nat (length input) <= MEMORY_POOL_SIZE ->
  (forall n, main s <> MAborted n) ->
  forall n, main (snd (exec sched s tr)) <> MAborted n.
Proof.
  induction sched as [|t sched IH]; intros s tr HI Hcap Hab; simpl; [assumption|].
  destruct (step t s) as [[ev s']|] eqn:Hstep.
  - apply IH; [by eapply Inv_step|assumption|by eapply step_not_aborted].
  - by apply IH.
Qed.

(** Any execution, stopped anywhere, can be continued to the end. *)
Lemma completable sysconf junk input sched :
  Z.of_nat (length input) <= MEMORY_POOL_SIZE ->
  exists sched',
    main (snd (exec (sched ++ sched') (init sysconf junk input) [])) = MReturn.
Proof.
  intros Hcap.
  destruct (can_finish input Hcap (exec sched (init sysconf junk input) []))
    as [sched' Hs].
  - apply Inv_exec.
  - apply (exec_not_aborted input); [apply Inv_init|assumption|discriminate].
  - exists sched'. by rewrite exec_app.
Qed.

End Progress.

(** * The properties of the specification *)

Section CountCorrectness.

(** A total is only reported when everything fitted in the arena. *)
Lemma reported_within_capacity input tr s :
  Inv input tr s -> reports tr <> [] -> Z.of_nat (length input) <= MEMORY_POOL_SIZE.
Proof.
  intros HI Hrep.
  assert (Hm : match main s with MReport | MCleanup | MReturn => True | _ => False end).
  { rewrite (inv_reports _ _ _ HI) in Hrep. destruct (main s); try exact I; contradiction. }
  destruct (Inv_final _ _ _ HI Hm) as (_ & _ & Hin & _).
  pose proof (inv_pool _ _ _ HI) as Hp. pose proof (inv_cap _ _ _ HI) as Hc.
  pose proof (inv_len _ _ _ HI) as Hl.
  rewrite Hin, length_drop. unfold vals. rewrite length_map.
  destruct (main s); try contradiction; simpl in *; lia.
Qed.

Lemma reported_total input tr s :
  Inv input tr s -> reports tr = [] \/ reports tr = [count_primes input].
Proof.
  intros HI. rewrite (inv_reports _ _ _ HI).
  destruct (main s) eqn:Hm; auto; right; f_equal;
    apply (Inv_final _ _ _ HI); rewrite Hm; exact I.
Qed.

End CountCorrectness.

(** C1, as amended: for every input sequence of at most MEMORY_POOL_SIZE
    integers, whatever the number of workers and the interleaving, the only
    total the program ever reports is the number of elements that isPrime
    accepts: no execution reports anything else or reports twice, main
    returns only after it has reported that total, and there is an execution
    in which it does; the total of the empty input is 0.  (Whether every
    execution comes to the report is left open here: that depends on how
    dequeue's unsynchronised loads are ordered.) *)
Theorem count_correct sysconf junk input :
  Z.of_nat (length input) <= MEMORY_POOL_SIZE ->
  (forall sched,
     reports (fst (exec sched (init sysconf junk input) [])) = [] \/
     reports (fst (exec sched (init sysconf junk input) [])) = [count_primes input]) /\
  (forall sched,
     main (snd (exec sched (init sysconf junk input) [])) = MReturn ->
     reports (fst (exec sched (init sysconf junk input) [])) = [count_primes input]) /\
  (exists sched,
     reports (fst (exec sched (init sysconf junk input) [])) = [count_primes input] /\
     main (snd (exec sched (init sysconf junk input) [])) = MReturn) /\
  (input = [] -> count_primes input = 0).
Proof.
  intros Hcap.
  assert (Hret : forall sched,
            main (snd (exec sched (init sysconf junk input) [])) = MReturn ->
            reports (fst (exec sched (init sysconf junk input) [])) = [count_primes input]).
  { intros sched Hm. pose proof (Inv_exec sysconf junk input sched) as HI.
    rewrite (inv_reports _ _ _ HI), Hm. f_equal.
    apply (Inv_final _ _ _ HI). rewrite Hm. exact I. }
  split; [|split; [exact Hret|split]]; [| |intros ->; apply count_primes_nil].
  - intros sched. eapply reported_total, Inv_exec.
  - destruct (completable sysconf junk input [] Hcap) as [sched Hm].
    exists sched. split; [apply Hret|]; exact Hm.
Qed.

(** C1 on the numbers 1 to 10 with four workers: 4 is reported. *)
Lemma count_correct_witness :
  Z.of_nat (length [1; 2; 3; 4; 5; 6; 7; 8; 9; 10]) <= MEMORY_POOL_SIZE /\
  exists sched,
    reports (fst (exec sched (init 4 0 [1; 2; 3; 4; 5; 6; 7; 8; 9; 10]) [])) = [4] /\
    main (snd (exec sched (init 4 0 [1; 2; 3; 4; 5; 6; 7; 8; 9; 10]) [])) = MReturn.
Proof.
  assert (H : Z.of_nat (length [1; 2; 3; 4; 5; 6; 7; 8; 9; 10]) <= MEMORY_POOL_SIZE)
    by (vm_compute; discriminate).
  split; [exact H|].
  exact (proj1 (proj2 (proj2 (count_correct 4 0 [1; 2; 3; 4; 5; 6; 7; 8; 9; 10] H)))).
Defined.

(** C1, as stated, fails: on an input of 10,000,001 values no execution
    reports a total (allocateNode ends the process first). *)
Lemma count_fails_beyond_arena :
  ~ exists sched,
      reports (fst (exec sched (init 1 0 (repeat 0 (Z.to_nat 10000001))) [])) <> [].
Proof.
  intros [sched Hrep].
  pose proof (reported_within_capacity _ _ _ (Inv_exec 1 0 _ sched) Hrep) as Hcap.
  rewrite repeat_length, Z2Nat.id in Hcap by lia.
  unfold MEMORY_POOL_SIZE in Hcap. lia.
Qed.

(** C3: isPrime is a function of its argument and total on int
    (the loop ends within n iterations), it accepts exactly 2, 3, 5 and 7
    among 1..10, and it is a correct primality test below FIRST_OVERFLOW.
    It is not one on every int: 2147483647 is prime, and the code answers
    false for it with wrap-around arithmetic, and overflows 46343 * 46343
    under the C standard. *)
Theorem isPrime_wrong_on_INT_MAX :
  (forall n, n < FIRST_OVERFLOW -> (isPrime n = true <-> prime n)) /\
  (forall n, in_int n -> isPrime_fuel (Z.to_nat n) n = Some (isPrime n)) /\
  filter (fun n => isPrime n = true) [1; 2; 3; 4; 5; 6; 7; 8; 9; 10] = [2; 3; 5; 7] /\
  prime INT_MAX /\ isPrime INT_MAX = false /\
  isPrime_std (Z.to_nat 7724) INT_MAX = Overflow.
Proof.
  split; [apply isPrime_correct_below|]. split; [apply isPrime_total|].
  split; [apply isPrime_one_to_ten|].
  split; [apply prime_INT_MAX|]. split; [apply isPrime_INT_MAX|apply isPrime_std_INT_MAX].
Qed.

(** C6: on the pools main can hold, allocateNode fails exactly when the index
    it reads is at or above MEMORY_POOL_SIZE; otherwise it returns the slot
    at that index; the index never decreases; and an allocation made later
    returns a different slot. *)
Theorem arena_allocation p :
  pool_reachable p ->
  (fst (allocateNode p) = None <-> MEMORY_POOL_SIZE <= index p) /\
  (index p < MEMORY_POOL_SIZE -> fst (allocateNode p) = Some (Slot (index p))) /\
  index p <= index (snd (allocateNode p)) /\
  (forall n1 p1 p2 n2 p3,
     allocateNode p = (Some n1, p1) -> later p1 p2 ->
     allocateNode p2 = (Some n2, p3) -> n1 <> n2).
Proof.
  intros Hp. pose proof (pool_reachable_range p Hp) as Hr.
  split; [apply allocateNode_None|]. split; [|split].
  - intros Hlt. unfold allocateNode.
    destruct (Z.leb_spec MEMORY_POOL_SIZE (index p)); [lia|reflexivity].
  - unfold allocateNode. destruct (MEMORY_POOL_SIZE <=? index p); simpl;
      (rewrite wrap_id; [lia|]); apply in_int_small; unfold MEMORY_POOL_SIZE in *; lia.
  - intros n1 p1 p2 n2 p3 H1 Hl H2.
    assert (Hp1 : pool_reachable p1) by (eapply pool_alloc; eassumption).
    destruct (later_index _ _ Hp1 Hl) as [_ Hle].
    apply allocateNode_Some in H1 as (Hlt1 & -> & ->).
    apply allocateNode_Some in H2 as (Hlt2 & -> & _). simpl in Hle.
    rewrite wrap_id in Hle by (apply in_int_small; unfold MEMORY_POOL_SIZE in *; lia).
    intros [=]. lia.
Qed.

Lemma arena_allocation_witness :
  pool_reachable createMemoryPool /\
  fst (allocateNode createMemoryPool) = Some (Slot 0) /\
  fst (allocateNode (snd (allocateNode createMemoryPool))) = Some (Slot 1).
Proof.
  split; [apply pool_fresh|]. split.
  - apply (proj1 (proj2 (arena_allocation createMemoryPool pool_fresh))).
    vm_compute. reflexivity.
  - reflexivity.
Defined.

Section SizeCounter.

Lemma Inv_size_range input tr s :
  Inv input tr s ->
  - Z.of_nat (pending_inc (main s)) <= size (queue (qm s)) /\
  size (queue (qm s)) + Z.of_nat (bp_pending (main s)) <= MAX_QUEUE_SIZE.
Proof. intros HI. destruct_inv HI. split; [lia|assumption]. Qed.

Lemma enqueue_size m vs v :
  wfq m vs -> Z.of_nat (length vs) < INT_MAX ->
  exists m', enqueue CALL_FUEL m v = Some m' /\
    size (queue m') = size (queue m) + 1 /\ unconsumed m' = vs ++ [v].
Proof.
  intros Hwf Hb. destruct (enqueue_spec m vs v Hwf Hb) as (m' & He & Hwf').
  exists m'. split; [assumption|]. split; [|by apply wfq_unconsumed].
  destruct Hwf as (? & ? & ? & ? & ? & ? & -> & ?).
  destruct Hwf' as (? & ? & ? & ? & ? & ? & -> & ?). rewrite length_app. simpl. lia.
Qed.

Lemma dequeue_value_size m v vs :
  wfq m (v :: vs) ->
  exists m', dequeue CALL_FUEL m = Some ((v, Some (head (queue m))), m') /\
    size (queue m') = size (queue m) - 1 /\ unconsumed m' = vs.
Proof.
  intros Hwf. destruct (dequeue_value_spec m v vs Hwf) as (m' & Hd & Hwf').
  exists m'. split; [assumption|]. split; [|by apply wfq_unconsumed].
  destruct Hwf as (? & ? & ? & ? & ? & ? & -> & ?).
  destruct Hwf' as (? & ? & ? & ? & ? & ? & -> & ?). simpl. lia.
Qed.

End SizeCounter.

(** C7, as amended: size mirrors the successful operations as long as it
    fits an int.  In a queue at rest that holds fewer than INT_MAX values an
    enqueue adds one to size; a dequeue that returns a value subtracts one,
    a dequeue that returns Empty changes nothing; and after any sequence of
    calls made one at a time, with at most INT_MAX enqueues, size is the
    number of unconsumed values.  In the running program, where backpressure
    keeps size small, size is that number, less the enqueue whose increment
    is still to come, plus the dequeues whose decrement is still to come;
    the increment and the decrements are by exactly one. *)
Theorem size_mirrors_operations :
  (forall m vs v, wfq m vs -> Z.of_nat (length vs) < INT_MAX ->
     exists m', enqueue CALL_FUEL m v = Some m' /\
       size (queue m') = size (queue m) + 1 /\ unconsumed m' = vs ++ [v]) /\
  (forall m v vs, wfq m (v :: vs) ->
     exists m', dequeue CALL_FUEL m = Some ((v, Some (head (queue m))), m') /\
       size (queue m') = size (queue m) - 1 /\ unconsumed m' = vs) /\
  (forall m, wfq m [] -> dequeue CALL_FUEL m = Some ((-1, None), m)) /\
  (forall ops junk, Z.of_nat (enq_count ops) <= INT_MAX ->
     exists rs m, run_ops ops (createQueue junk) = Some (rs, m) /\
       unconsumed m = snd (fifo_spec ops []) /\
       size (queue m) = Z.of_nat (length (unconsumed m))) /\
  (forall sysconf junk input sched,
     let s := snd (exec sched (init sysconf junk input) []) in
     size (queue (qm s)) =
       Z.of_nat (length (unconsumed (qm s))) - Z.of_nat (pending_inc (main s))
       + Z.of_nat (sum_list_with in_dec (threads s)) /\
     (main s = MEnqueue EIncSize ->
        exists s', step Main s = Some (None, s') /\
          size (queue (qm s')) = size (queue (qm s)) + 1) /\
     (forall w hd v, terminated s = false ->
        threads s !! w = Some (WDequeue (DDecSize hd v)) ->
        exists s', step (Worker w) s = Some (Some (Dequeued w v hd), s') /\
          size (queue (qm s')) = size (queue (qm s)) - 1)).
Proof.
  split; [|split; [|split; [|split]]].
  - apply enqueue_size.
  - apply dequeue_value_size.
  - apply dequeue_empty_spec.
  - intros ops junk Hb.
    destruct (run_ops_refines ops (createQueue junk) [] (wfq_createQueue junk) Hb)
      as (rs & m & Hrun & _ & Hwf).
    exists rs, m. split; [assumption|]. rewrite (wfq_unconsumed _ _ Hwf).
    split; [reflexivity|]. by destruct Hwf as (? & ? & ? & ? & ? & ? & -> & ?).
  - intros sysconf junk input sched s.
    pose proof (Inv_exec sysconf junk input sched) as HI. fold s in HI.
    pose proof (unconsumed_length _ _ _ HI) as Hlen.
    pose proof (inv_order _ _ _ HI) as Hord.
    pose proof (inv_size _ _ _ HI) as Hsz.
    destruct (Inv_size_range _ _ _ HI) as [Hlo Hhi].
    split; [lia|]. split.
    + intros Hm. rewrite Hm in *. simpl in *.
      unfold step, terminated, main_step. rewrite Hm. simpl.
      eexists. split; [reflexivity|]. simpl.
      apply wrap_id, in_int_small. unfold MAX_QUEUE_SIZE in *. lia.
    + intros w hd v Hterm Hw.
      pose proof (sum_list_with_lookup in_dec _ _ _ Hw) as Hdec. simpl in Hdec.
      unfold step. rewrite Hterm, Hw. simpl.
      eexists. split; [reflexivity|]. simpl.
      replace (size (queue (qm s)) + -1) with (size (queue (qm s)) - 1) by lia.
      apply wrap_id, in_int_small. unfold MAX_QUEUE_SIZE in *.
      assert (pending_inc (main s) <= 1)%nat by (destruct (main s) as [| | | |[]| | | | | |?]; simpl; lia).
      lia.
Qed.

(** C7 on the queue that createQueue returns: enqueue 5 takes size from 0
    to 1. *)
Lemma size_mirrors_operations_witness :
  wfq (createQueue 0) [] /\ Z.of_nat (length (@nil Z)) < INT_MAX /\
  exists m', enqueue CALL_FUEL (createQueue 0) 5 = Some m' /\
    size (queue m') = size (queue (createQueue 0)) + 1 /\ unconsumed m' = [] ++ [5].
Proof.
  assert (Hwf : wfq (createQueue 0) []).
  { exists O. repeat split; try reflexivity; [|vm_compute; discriminate].
    intros [|a] nd Hnd; simpl in Hnd; [|discriminate]. by simplify_eq. }
  assert (Hb : Z.of_nat (length (@nil Z)) < INT_MAX) by (vm_compute; reflexivity).
  split; [exact Hwf|]. split; [exact Hb|].
  exact (proj1 size_mirrors_operations (createQueue 0) [] 5 Hwf Hb).
Defined.

(** C7, as stated, fails: size is an int.  After INT_MAX enqueues on a new
    queue, made one at a time, one more enqueue succeeds and takes size from
    INT_MAX to INT_MIN, while the queue holds INT_MAX + 1 values. *)
Lemma size_wraps_at_INT_MAX :
  exists rs m,
    run_ops (replicate (Z.to_nat INT_MAX) (Enq 0) ++ [Enq 0]) (createQueue 0)
    = Some (rs, m) /\
    size (queue m) = INT_MIN /\ Z.of_nat (length (unconsumed m)) = INT_MAX + 1.
Proof. apply enqueues_wrap. apply Z2Nat.id. unfold INT_MAX. lia. Qed.

(** C8: main passes the backpressure loop only when the size it reads is
    below MAX_QUEUE_SIZE, and with main the only thread that enqueues, size
    never exceeds MAX_QUEUE_SIZE: it stays below it from that read until the
    increment at the end of enqueue. *)
Theorem backpressure_bound sysconf junk input sched :
  let s := snd (exec sched (init sysconf junk input) []) in
  size (queue (qm s)) <= MAX_QUEUE_SIZE /\
  (match main s with
   | MAllocate _ | MEnqueue _ => size (queue (qm s)) < MAX_QUEUE_SIZE
   | _ => True
   end) /\
  (forall num, main s = MBackpressure num ->
     step Main s =
       Some (None, if MAX_QUEUE_SIZE <=? size (queue (qm s)) then s
                   else set_main (MAllocate num) s)).
Proof.
  intros s. pose proof (Inv_exec sysconf junk input sched) as HI. fold s in HI.
  pose proof (inv_bound _ _ _ HI) as Hb.
  split; [lia|]. split.
  - destruct (main s); simpl in *; try exact I; lia.
  - intros num Hm. unfold step, terminated, main_step. rewrite Hm.
    destruct (MAX_QUEUE_SIZE <=? size (queue (qm s))); reflexivity.
Qed.

(** C8 where main reads size for the value 7: size is 0 and main goes on
    to allocateNode. *)
Lemma backpressure_bound_witness :
  let s := snd (exec (replicate 3 Main) (init 1 0 [7]) []) in
  main s = MBackpressure 7 /\
  step Main s =
    Some (None, if MAX_QUEUE_SIZE <=? size (queue (qm s)) then s
                else set_main (MAllocate 7) s).
Proof.
  intros s. assert (Hm : main s = MBackpressure 7) by (vm_compute; reflexivity).
  split; [exact Hm|].
  exact (proj2 (proj2 (backpressure_bound 1 0 [7] (replicate 3 Main))) 7 Hm).
Defined.

Section Provenance.

(** Every node of the queue is a [malloc] block; none is an arena slot. *)
Lemma queue_nodes_malloced sysconf junk input sched :
  Forall (fun p => exists a, p = Heap a)
         (queue_nodes (qm (snd (exec sched (init sysconf junk input) [])))).
Proof.
  pose proof (Inv_exec sysconf junk input sched) as HI.
  destruct (Inv_unconsumed _ _ _ HI) as [-> _].
  apply Forall_fmap, Forall_forall. intros a _. by exists a.
Qed.

(** Nothing is freed before the end; at the end freeQueue frees, one by
    one, the nodes still in the queue, which is then just the sentinel. *)
Lemma freed_at_teardown sysconf junk input sched :
  let tr := fst (exec sched (init sysconf junk input) []) in
  let s := snd (exec sched (init sysconf junk input) []) in
  freed tr = match main s with MReturn => queue_nodes (qm s) | _ => [] end.
Proof.
  intros tr s. pose proof (Inv_exec sysconf junk input sched) as HI. fold tr s in HI.
  rewrite (inv_freed _ _ _ HI). destruct (main s) eqn:Hm; try reflexivity.
  assert (Hf : match main s with MReport | MCleanup | MReturn => True | _ => False end)
    by (rewrite Hm; exact I).
  destruct (Inv_final _ _ _ HI Hf) as (_ & Hh & _).
  destruct (Inv_unconsumed _ _ _ HI) as [-> _].
  pose proof (inv_head _ _ _ HI) as Hhd. pose proof (inv_len _ _ _ HI).
  unfold nlinked. rewrite Hm, Hhd, Hh. simpl.
  replace (length (heap (qm s)) - 0 - (length (heap (qm s)) - 1))%nat with 1%nat by lia.
  reflexivity.
Qed.

End Provenance.

(** C9: the claim does not hold of the code.  In every execution the nodes
    of the queue are malloc blocks, none is an arena slot, and at the end
    freeQueue passes the nodes still in the queue to free, one by one.  On
    the input 7 with one worker, allocateNode hands out arena slot 0 and
    main stores 7 in it, but the node that enqueue links is a fresh malloc
    block (Heap 1): the slot never enters the queue, and Heap 1 is freed. *)
Theorem queue_nodes_bypass_arena :
  (forall sysconf junk input sched,
     let tr := fst (exec sched (init sysconf junk input) []) in
     let s := snd (exec sched (init sysconf junk input) []) in
     Forall (fun p => exists a, p = Heap a) (queue_nodes (qm s)) /\
     freed tr = match main s with MReturn => queue_nodes (qm s) | _ => [] end) /\
  (let tr := fst (exec (round_robin 1 40) (init 1 0 [7]) []) in
   let s := snd (exec (round_robin 1 40) (init 1 0 [7]) []) in
   main s = MReturn /\ linked tr = [7] /\
   memoryPool s = mkPool (<[0 := 7]> ∅) 1 /\
   heap (qm s) = [mkNode 0 (Some (Heap 1)); mkNode 7 None] /\
   queue_nodes (qm s) = [Heap 1] /\
   freed tr = [Heap 1]).
Proof.
  split.
  - intros sysconf junk input sched tr s.
    split; [apply queue_nodes_malloced|apply freed_at_teardown].
  - vm_compute. repeat split.
Qed.

Section Classification.

Lemma classified_add ev tr :
  classified (add_event ev tr) =
  classified tr ++ match ev with Some (Classified _ v _) => [v] | _ => [] end.
Proof.
  unfold classified, add_event. destruct ev as [e|]; simpl; [|by rewrite app_nil_r].
  rewrite omap_app. by destruct e.
Qed.

(** isPrime is only ever called on a value other than -1. *)
Lemma step_classified t s ev s' w v b :
  step t s = Some (ev, s') -> ev = Some (Classified w v b) ->
  v <> -1 /\ b = isPrime v.
Proof.
  intros Hstep ->. unfold step in Hstep.
  destruct (terminated s); [discriminate|]. destruct t as [|w'].
  - unfold main_step in Hstep.
    destruct (main s) as [| | | |e| | | | | |?]; simpl in Hstep;
      repeat case_match; simplify_eq.
    all: destruct e; simpl in *; repeat case_match; simplify_eq.
  - destruct (threads s !! w') as [pc|]; [|discriminate].
    destruct pc as [| |d| | |]; simpl in Hstep; repeat case_match; simplify_eq.
    + destruct d; simpl in *; repeat case_match; simplify_eq.
    + destruct d; simpl in *; repeat case_match; simplify_eq.
    + split; [by apply Z.eqb_neq|congruence].
    + split; [by apply Z.eqb_neq|congruence].
Qed.

Lemma run_classified s0 tr s :
  run s0 tr s -> Forall (fun v => v <> -1) (classified tr).
Proof.
  induction 1 as [|tr s1 t ev s2 _ IH Hstep]; [constructor|].
  rewrite classified_add. apply Forall_app. split; [assumption|].
  destruct ev as [[]|]; try constructor; [|constructor].
  eapply step_classified; [eassumption|reflexivity].
Qed.

End Classification.

(** C10: dequeue returns the int -1 both for Empty and for an enqueued value
    of -1.  Dequeuing an enqueued -1 does unlink its node and decrement
    size, and returns -1 as an empty queue does; the worker, which looks at
    the int only, sleeps and loops without calling isPrime; so no execution
    ever classifies a value of -1. *)
Theorem minus_one_is_read_as_empty :
  (forall m vs, wfq m (-1 :: vs) ->
     exists m', dequeue CALL_FUEL m = Some ((-1, Some (head (queue m))), m') /\
       size (queue m') = size (queue m) - 1 /\ unconsumed m' = vs) /\
  (forall m, wfq m [] -> dequeue CALL_FUEL m = Some ((-1, None), m)) /\
  (forall w s, worker_step w (WTest (-1)) s = Some (None, set_thread w WLoadDone s)) /\
  (forall sysconf junk input sched,
     Forall (fun v => v <> -1)
            (classified (fst (exec sched (init sysconf junk input) [])))).
Proof.
  split; [|split; [|split]].
  - intros m vs. apply dequeue_value_size.
  - apply dequeue_empty_spec.
  - reflexivity.
  - intros sysconf junk input sched.
    eapply run_classified, exec_run, run_nil.
Qed.

(** C10 on a queue at rest that holds the value -1 alone. *)
Lemma minus_one_is_read_as_empty_witness :
  let m := mkMem [mkNode 0 (Some (Heap 1)); mkNode (-1) None]
                 (mkQueue (Heap 0) (Heap 1) 1) in
  wfq m [-1] /\
  exists m', dequeue CALL_FUEL m = Some ((-1, Some (head (queue m))), m') /\
    size (queue m') = size (queue m) - 1 /\ unconsumed m' = [].
Proof.
  intros m.
  assert (Hwf : wfq m [-1]).
  { exists O. repeat split; try reflexivity; [|vm_compute; discriminate].
    intros [|[|a]] nd Hnd; simpl in Hnd; try discriminate; by simplify_eq. }
  split; [exact Hwf|]. exact (proj1 minus_one_is_read_as_empty m [] Hwf).
Defined.



Section DequeueWrites.

(** What one step of [dequeue] can write. *)
Lemma deq_step_writes w m pc ev m' r :
  deq_step w m pc = Some (ev, m', r) ->
  heap m' = heap m /\
  (head (queue m') <> head (queue m) ->
     exists hd nx v, pc = DCasHead hd nx v /\ r = inl (DDecSize hd v)) /\
  (size (queue m') <> size (queue m) ->
     exists hd v, pc = DDecSize hd v /\ r = inr (v, Some hd)) /\
  (tail (queue m') <> tail (queue m) ->
     exists tl nx, pc = DHelp tl nx /\ tail (queue m) = tl /\
       tail (queue m') = nx /\ r = inl DReadHead).
Proof.
  intros Hstep.
  destruct pc as [|hd|hd tl|hd tl nx|tl nx|hd nx|hd nx v|hd v]; simpl in Hstep;
    unfold cas_tail, cas_head in Hstep;
    repeat case_match; simplify_eq; simpl;
    (split; [reflexivity|]); repeat split; intros Hne; try congruence; eauto.
  by eexists _, _.
Qed.

(** The step that returns without a node. *)
Lemma deq_step_empty w m pc ev m' r :
  deq_step w m pc = Some (ev, m', inr r) -> snd r = None ->
  ev = Some (Empty w) /\ r = (-1, None) /\ m' = m /\
  exists hd, pc = DCheckHead hd hd None /\ hd = head (queue m).
Proof.
  intros Hstep Hr.
  destruct pc as [|hd|hd tl|hd tl nx|tl nx|hd nx|hd nx v|hd v]; simpl in Hstep;
    unfold cas_tail, cas_head in Hstep;
    repeat case_match; simplify_eq; simpl in *; try discriminate.
  repeat split. by eexists.
Qed.

End DequeueWrites.

(** C5, as amended: in a queue at rest dequeue returns Empty exactly when
    nothing is unconsumed, and then leaves the queue as it was.  In general
    the step that returns Empty is taken when the head read is still the
    head, equals the tail read and had an empty next link, and it writes
    nothing; a call never writes the nodes; it writes head and size only on
    its way to returning a value, so a call that returns Empty has not
    touched them; tail is written by the helping CAS alone, which moves it
    to the next node and restarts the call.  Returning Empty is an ordinary
    return. *)
Theorem dequeue_empty :
  (forall m vs, wfq m vs ->
     exists r m', dequeue CALL_FUEL m = Some (r, m') /\
       (r = (-1, None) <-> vs = []) /\ (r = (-1, None) -> m' = m)) /\
  (forall w m pc ev m' r,
     deq_step w m pc = Some (ev, m', inr r) -> snd r = None ->
     ev = Some (Empty w) /\ r = (-1, None) /\ m' = m /\
     exists hd, pc = DCheckHead hd hd None /\ hd = head (queue m)) /\
  (forall w m pc ev m' r,
     deq_step w m pc = Some (ev, m', r) ->
     heap m' = heap m /\
     (head (queue m') <> head (queue m) ->
        exists hd nx v, pc = DCasHead hd nx v /\ r = inl (DDecSize hd v)) /\
     (size (queue m') <> size (queue m) ->
        exists hd v, pc = DDecSize hd v /\ r = inr (v, Some hd)) /\
     (tail (queue m') <> tail (queue m) ->
        exists tl nx, pc = DHelp tl nx /\ tail (queue m) = tl /\
          tail (queue m') = nx /\ r = inl DReadHead)) /\
  (forall w m hd v,
     deq_step w m (DDecSize hd v) =
       Some (Some (Dequeued w v hd), add_size m (-1), inr (v, Some hd))).
Proof.
  split; [|split; [|split]].
  - intros m [|v vs] Hwf.
    + exists (-1, None), m. rewrite (dequeue_empty_spec m Hwf). repeat split.
    + destruct (dequeue_value_spec m v vs Hwf) as (m' & -> & _).
      eexists _, _. split; [reflexivity|]. split; [split|]; discriminate.
  - apply deq_step_empty.
  - apply deq_step_writes.
  - reflexivity.
Qed.

(** C5 at rest, on the queue that createQueue returns: Empty, and the
    queue is the one it was. *)
Lemma dequeue_empty_witness :
  wfq (createQueue 0) [] /\
  exists r m', dequeue CALL_FUEL (createQueue 0) = Some (r, m') /\
    (r = (-1, None) <-> @nil Z = []) /\ (r = (-1, None) -> m' = createQueue 0).
Proof.
  assert (Hwf : wfq (createQueue 0) []).
  { exists O. repeat split; try reflexivity; [|vm_compute; discriminate].
    intros [|a] nd Hnd; simpl in Hnd; [|discriminate]. by simplify_eq. }
  split; [exact Hwf|]. exact (proj1 dequeue_empty (createQueue 0) [] Hwf).
Defined.

(** C5, as stated, fails: with two workers and the input 5, worker 0 is
    inside dequeue while main has linked the node of 5 and not moved tail
    yet; worker 0 moves tail from the sentinel to that node; worker 1 then
    takes the value; worker 0, still in the same call (it has not returned
    in between), finds the queue empty and returns Empty.  The call that
    returned Empty has modified tail. *)
Lemma dequeue_empty_after_helping :
  let s1 := snd (exec (replicate 11 Main ++ replicate 5 (Worker 0)) (init 2 0 [5]) []) in
  let s2 := snd (exec [Worker 0] s1 []) in
  let r3 := exec (replicate 7 (Worker 1) ++ replicate 3 (Worker 0)) s2 [] in
  threads s1 !! O = Some (WDequeue (DHelp (Heap 0) (Heap 1))) /\
  step (Worker 0) s1 = Some (None, s2) /\
  tail (queue (qm s1)) = Heap 0 /\ tail (queue (qm s2)) = Heap 1 /\
  returns 0 (fst r3) = [] /\
  fst <$> step (Worker 0) (snd r3) = Some (Some (Empty 0)).
Proof. vm_compute. repeat split. Qed.

(** * Further properties of the code *)

(** ** [isPrime] on every [int] *)

Section PrimeSound.

(** Whatever the products do, the loop only answers [true] for a prime: a
    guard that fails, with or without wrap-around, is met at an [i] whose
    true square exceeds [n]. *)
Lemma isPrime_loop_sound (fuel : nat) : forall n k,
  3 < n <= INT_MAX -> 0 <= k ->
  ~ (2 | n) -> ~ (3 | n) ->
  (forall d, 2 <= d < 5 + 6 * k -> ~ (d | n)) ->
  5 + 6 * k <= n ->
  isPrime_loop fuel n (5 + 6 * k) = Some true -> prime n.
Proof.
  unfold INT_MAX.
  induction fuel as [|fuel IH]; intros n k Hn Hk H2 H3 Hinv Hle Hres; [discriminate|].
  rewrite isPrime_loop_step in Hres. set (i := 5 + 6 * k) in *.
  rewrite (wrap_id (i + 2)) in Hres by (unfold in_int, INT_MIN, INT_MAX; lia).
  destruct (Z.leb_spec (wrap (i * i)) n) as [Hsq|Hsq].
  - destruct (Z.rem n i =? 0) eqn:Hri; [discriminate|].
    destruct (Z.rem n (i + 2) =? 0) eqn:Hri2; [discriminate|].
    cbn [orb] in Hres. apply rem_eqb_not_divide in Hri; [|lia].
    apply rem_eqb_not_divide in Hri2; [|lia].
    assert (Hnext : forall d, 2 <= d < i + 6 -> ~ (d | n)).
    { intros d Hd. destruct (Z_lt_ge_dec d i) as [Hlt|Hge].
      - apply Hinv. lia.
      - apply (sieve_step n k d); try assumption. subst i. lia. }
    assert (Hfar : i + 6 <= n).
    { destruct (Z_le_gt_dec (i + 6) n); [assumption|]. exfalso.
      apply (Hnext n); [lia|]. apply Z.divide_refl. }
    rewrite (wrap_id (i + 6)) in Hres by (unfold in_int, INT_MIN, INT_MAX; lia).
    replace (i + 6) with (5 + 6 * (k + 1)) in Hres by lia.
    apply (IH n (k + 1)); try assumption; try lia.
    intros d Hd. apply Hnext. lia.
  - apply (prime_by_trial n (i - 1)); try lia.
    + replace (i - 1 + 1) with i by lia.
      destruct (Z_le_gt_dec (i * i) 2147483647) as [Hfit|Hover]; [|lia].
      rewrite wrap_id in Hsq by (unfold in_int, INT_MIN, INT_MAX; nia). lia.
    + intros d Hd. apply Hinv. lia.
Qed.

Lemma isPrime_true_prime n : in_int n -> isPrime n = true -> prime n.
Proof.
  intros Hn. unfold isPrime, isPrime_fuel. unfold in_int in Hn.
  destruct (Z.leb_spec n 1) as [H1|H1]; [discriminate|].
  destruct (Z.leb_spec n 3) as [H3|H3].
  { intros _. assert (n = 2 \/ n = 3) as [->| ->] by lia;
      [apply prime_alt, Z.prime_2|apply prime_alt, Z.prime_3]. }
  destruct (Z.rem n 2 =? 0) eqn:Hr2; [discriminate|].
  destruct (Z.rem n 3 =? 0) eqn:Hr3; [discriminate|].
  cbn [orb]. apply rem_eqb_not_divide in Hr2; [|lia].
  apply rem_eqb_not_divide in Hr3; [|lia].
  assert (5 <= n).
  { destruct (Z.eq_dec n 4) as [->|]; [|lia]. exfalso. apply Hr2. exists 2. lia. }
  destruct (isPrime_loop (Z.to_nat n) n 5) as [[]|] eqn:Hloop; try discriminate.
  intros _. change 5 with (5 + 6 * 0) in Hloop.
  apply (isPrime_loop_sound (Z.to_nat n) n 0); try assumption; try lia.
  intros d Hd. apply small_divisors_excluded; assumption.
Qed.

(** The total that [isPrime] gives against the number of primes. *)
Lemma count_primes_le_real l : Forall in_int l -> count_primes l <= real_primes l.
Proof.
  unfold count_primes, real_primes. intros Hl. apply inj_le.
  induction Hl as [|n l Hn _ IH]; [reflexivity|].
  destruct (isPrime n) eqn:Hp.
  - rewrite filter_cons_True by assumption.
    rewrite (filter_cons_True prime) by (by apply isPrime_true_prime).
    simpl. lia.
  - rewrite filter_cons_False by congruence.
    destruct (decide (prime n)).
    + rewrite (filter_cons_True prime) by assumption. simpl. lia.
    + rewrite (filter_cons_False prime) by assumption. assumption.
Qed.

Lemma count_primes_eq_real l :
  Forall (fun n => n < FIRST_OVERFLOW) l -> count_primes l = real_primes l.
Proof.
  unfold count_primes, real_primes. intros Hl. f_equal.
  induction Hl as [|n l Hn _ IH]; [reflexivity|].
  pose proof (isPrime_correct_below n Hn) as Hiff.
  destruct (isPrime n) eqn:Hp.
  - rewrite filter_cons_True by assumption.
    rewrite (filter_cons_True prime) by (by apply Hiff).
    simpl. by rewrite IH.
  - rewrite filter_cons_False by congruence.
    rewrite (filter_cons_False prime); [assumption|].
    intros Hpr. apply Hiff in Hpr. congruence.
Qed.

End PrimeSound.

(** X1: isPrime never accepts a number that is not prime, on any int, the
    wrap-around of i * i notwithstanding; a prime that it rejects is at
    least FIRST_OVERFLOW = 46337 * 46337. *)
Theorem isPrime_sound n :
  in_int n ->
  (isPrime n = true -> prime n) /\
  (prime n -> isPrime n = false -> FIRST_OVERFLOW <= n).
Proof.
  intros Hn. split; [by apply isPrime_true_prime|].
  intros Hp Hfalse. destruct (Z_le_gt_dec FIRST_OVERFLOW n) as [|Hlt]; [assumption|].
  apply (isPrime_correct_below n) in Hp; [congruence|lia].
Qed.

(** X1 at 7. *)
Lemma isPrime_sound_witness : in_int 7 /\ prime 7.
Proof.
  assert (H7 : in_int 7) by (unfold in_int, INT_MIN, INT_MAX; lia).
  split; [exact H7|]. apply (proj1 (isPrime_sound 7 H7)). reflexivity.
Defined.

(** ** [isPrime] under the C standard *)

Section PrimeStd.

Lemma in_intb_true z : in_int z -> in_intb z = true.
Proof.
  unfold in_int, in_intb. intros [H1 H2].
  apply andb_true_iff. split; by apply Z.leb_le.
Qed.

(** The loop entered at [i = 5 + 6 * k], all smaller candidates excluded and
    the previous guard passed: it decides primality without overflow, except
    that it reaches [46343 * 46343] exactly when [n] is a prime from
    [FIRST_OVERFLOW] up. *)
Lemma isPrime_loop_std_spec (m : nat) : forall fuel n k,
  k = 7723 - Z.of_nat m -> 0 <= k -> (m < fuel)%nat ->
  3 < n <= INT_MAX -> ~ (2 | n) -> ~ (3 | n) ->
  (forall d, 2 <= d < 5 + 6 * k -> ~ (d | n)) ->
  (1 <= k -> (5 + 6 * (k - 1)) * (5 + 6 * (k - 1)) <= n) ->
  isPrime_loop_std fuel n (5 + 6 * k) =
    if decide (prime n /\ FIRST_OVERFLOW <= n) then Overflow
    else Returns (bool_decide (prime n)).
Proof.
  unfold INT_MAX, FIRST_OVERFLOW.
  induction m as [|m IH]; intros fuel n k Hk Hk0 Hf Hn H2 H3 Hinv Hprev;
    (destruct fuel as [|fuel]; [lia|]); cbn [isPrime_loop_std]; set (i := 5 + 6 * k) in *.
  - assert (Hi : i = 46343) by lia.
    assert (Hov : in_intb (i * i) = false).
    { rewrite Hi. reflexivity. }
    rewrite Hov.
    assert (Hp : prime n).
    { apply (prime_by_trial n 46342); try lia. intros d Hd. apply Hinv. lia. }
    rewrite decide_True; [reflexivity|]. split; [assumption|].
    specialize (Hprev ltac:(lia)). replace (5 + 6 * (k - 1)) with 46337 in Hprev by lia.
    lia.
  - assert (Hi : 5 <= i <= 46337) by lia.
    rewrite (in_intb_true (i * i)) by (unfold in_int, INT_MIN, INT_MAX; nia).
    rewrite (in_intb_true (i + 2)) by (unfold in_int, INT_MIN, INT_MAX; lia).
    rewrite (in_intb_true (i + 6)) by (unfold in_int, INT_MIN, INT_MAX; lia).
    destruct (Z.leb_spec (i * i) n) as [Hsq|Hsq].
    + assert (Hcomp : forall d, 1 < d < n -> (d | n) ->
                (if decide (prime n /\ 46337 * 46337 <= n) then Overflow
                 else Returns (bool_decide (prime n))) = Returns false).
      { intros d Hd Hdiv.
        assert (Hnp : ~ prime n).
        { intros Hp. apply prime_alt in Hp. destruct Hp as [_ Hp]. by apply (Hp d). }
        rewrite decide_False by tauto. by rewrite bool_decide_eq_false_2. }
      destruct (Z.rem n i =? 0) eqn:Hri.
      { apply rem_eqb_divide in Hri; [|lia]. symmetry. apply (Hcomp i); [nia|assumption]. }
      destruct (Z.rem n (i + 2) =? 0) eqn:Hri2.
      { apply rem_eqb_divide in Hri2; [|lia]. symmetry.
        apply (Hcomp (i + 2)); [nia|assumption]. }
      apply rem_eqb_not_divide in Hri; [|lia].
      apply rem_eqb_not_divide in Hri2; [|lia].
      replace (i + 6) with (5 + 6 * (k + 1)) by lia.
      apply (IH fuel n (k + 1)); try assumption; try lia.
      intros d Hd. destruct (Z_lt_ge_dec d i) as [Hlt|Hge].
      { apply Hinv. lia. }
      apply (sieve_step n k d); try assumption. subst i. lia.
    + assert (Hp : prime n).
      { apply (prime_by_trial n (i - 1)); try lia. intros d Hd. apply Hinv. lia. }
      rewrite decide_False by nia. by rewrite bool_decide_eq_true_2.
Qed.

Lemma isPrime_std_spec n :
  in_int n ->
  isPrime_std (Z.to_nat 7724) n =
    if decide (prime n /\ FIRST_OVERFLOW <= n) then Overflow
    else Returns (bool_decide (prime n)).
Proof.
  intros Hn. unfold in_int in Hn. unfold isPrime_std.
  assert (Hsmall : forall b, n < FIRST_OVERFLOW -> (b = true <-> prime n) ->
            Returns b = if decide (prime n /\ FIRST_OVERFLOW <= n) then Overflow
                        else Returns (bool_decide (prime n))).
  { intros b Hlt Hiff. rewrite decide_False by lia. f_equal.
    destruct b.
    - symmetry. apply bool_decide_eq_true_2. by apply Hiff.
    - symmetry. apply bool_decide_eq_false_2. intros Hp. apply Hiff in Hp. discriminate. }
  assert (Hnp : forall d, 1 < d < n -> (d | n) ->
            Returns false = if decide (prime n /\ FIRST_OVERFLOW <= n) then Overflow
                            else Returns (bool_decide (prime n))).
  { intros d Hd Hdiv.
    assert (~ prime n).
    { intros Hp. apply prime_alt in Hp. destruct Hp as [_ Hp]. by apply (Hp d). }
    rewrite decide_False by tauto. by rewrite bool_decide_eq_false_2. }
  destruct (Z.leb_spec n 1) as [H1|H1].
  { apply Hsmall; [unfold FIRST_OVERFLOW; lia|]. split; [discriminate|].
    intros Hp%prime_alt. destruct Hp. lia. }
  destruct (Z.leb_spec n 3) as [H3|H3].
  { apply Hsmall; [unfold FIRST_OVERFLOW; lia|]. split; [intros _|reflexivity].
    assert (n = 2 \/ n = 3) as [->| ->] by lia;
      [apply prime_alt, Z.prime_2|apply prime_alt, Z.prime_3]. }
  destruct (Z.rem n 2 =? 0) eqn:Hr2.
  { apply rem_eqb_divide in Hr2; [|lia]. apply (Hnp 2); [lia|assumption]. }
  destruct (Z.rem n 3 =? 0) eqn:Hr3.
  { apply rem_eqb_divide in Hr3; [|lia]. apply (Hnp 3); [lia|assumption]. }
  cbn [orb]. apply rem_eqb_not_divide in Hr2; [|lia].
  apply rem_eqb_not_divide in Hr3; [|lia].
  change 5 with (5 + 6 * 0).
  apply (isPrime_loop_std_spec (Z.to_nat 7723)); try assumption; try lia.
  intros d Hd. apply small_divisors_excluded; assumption.
Qed.

End PrimeStd.

(** X17: under the C standard, where i * i must fit in int, 7724 iterations
    of the loop always suffice and isPrime decides primality, except that
    the product overflows (undefined behaviour) exactly on the primes from
    FIRST_OVERFLOW = 46337 * 46337 up. *)
Theorem isPrime_std_overflow n :
  in_int n ->
  isPrime_std (Z.to_nat 7724) n =
    if decide (prime n /\ FIRST_OVERFLOW <= n) then Overflow
    else Returns (bool_decide (prime n)).
Proof. apply isPrime_std_spec. Qed.

(** X17 at 91 = 7 * 13. *)
Lemma isPrime_std_overflow_witness :
  in_int 91 /\ isPrime_std (Z.to_nat 7724) 91 = Returns false /\ ~ prime 91.
Proof.
  assert (Hn : in_int 91) by (unfold in_int, INT_MIN, INT_MAX; lia).
  split; [exact Hn|]. split; [reflexivity|].
  pose proof (isPrime_std_overflow 91 Hn) as Hspec.
  change (isPrime_std (Z.to_nat 7724) 91) with (Returns false) in Hspec.
  destruct (decide (prime 91 /\ FIRST_OVERFLOW <= 91)); [discriminate|].
  intros Hp. rewrite bool_decide_eq_true_2 in Hspec by assumption. discriminate.
Defined.

(** ** The program: further invariants of every execution *)

Section ExecInvariant.

(** A property that every step preserves holds along every execution. *)
Lemma exec_invariant (P : list event -> state -> Prop) input :
  (forall tr s t ev s', Inv input tr s -> P tr s -> step t s = Some (ev, s') ->
     P (add_event ev tr) s') ->
  forall sched tr s, Inv input tr s -> P tr s ->
    P (fst (exec sched s tr)) (snd (exec sched s tr)).
Proof.
  intros Hstep. induction sched as [|t sched IH]; intros tr s HI HP; simpl; [assumption|].
  destruct (step t s) as [[ev s']|] eqn:Hst; [|by apply IH].
  apply IH; [by eapply Inv_step|by eapply Hstep].
Qed.

Lemma Inv_exec_from input sched : forall tr s,
  Inv input tr s -> Inv input (fst (exec sched s tr)) (snd (exec sched s tr)).
Proof. intros tr s HI. by apply (exec_invariant (Inv input) input); [intros; by eapply Inv_step| |]. Qed.

Lemma main_past_done_lengths input tr s :
  Inv input tr s -> done s = true ->
  stdin s = [] /\ linked tr = input /\ nlinked s = length (heap (qm s)).
Proof.
  intros HI Hdn. destruct_inv HI. rewrite Hdn in Idone.
  assert (Hm : past_input (main s) = true /\ pending_num (main s) = [] /\
               unlinked_pending (main s) = O).
  { destruct (main s) as [| | | |[]| | | | | |?]; simpl in *; try discriminate; auto. }
  destruct Hm as (Hpi & Hpn & Hup). specialize (Istdin Hpi).
  unfold nlinked in *. rewrite Hup, Nat.sub_0_r in *.
  split; [assumption|]. split; [|reflexivity].
  rewrite Ilinked, Iinput, Hpn, Istdin, !app_nil_r. f_equal.
  apply take_ge. unfold vals. rewrite length_map. lia.
Qed.

Lemma step_done input tr s t ev s' :
  Inv input tr s -> done s = true -> step t s = Some (ev, s') -> done s' = true.
Proof.
  intros HI Hdn Hstep. unfold step in Hstep.
  destruct (terminated s); [discriminate|]. destruct t as [|w].
  - destruct (done_main_step _ _ _ _ _ HI Hdn Hstep) as (_ & Hd & _). congruence.
  - destruct (threads s !! w) as [pc|]; [|discriminate].
    destruct (worker_step_main _ _ _ _ _ Hstep) as (_ & _ & _ & Hd & _). congruence.
Qed.

Lemma unlinked_prefix_input input tr s :
  Inv input tr s -> unlinked tr `prefix_of` input.
Proof.
  intros HI. rewrite (inv_unlinked _ _ _ HI), (inv_input _ _ _ HI).
  etrans; [apply prefix_take|]. by eexists.
Qed.

Lemma count_primes_prefix l1 l2 : l1 `prefix_of` l2 -> count_primes l1 <= count_primes l2.
Proof.
  intros [k ->]. rewrite count_primes_app. pose proof (count_primes_bounds k). lia.
Qed.

Lemma total_counter_small input tr s :
  Inv input tr s -> 0 <= total_counter s <= MEMORY_POOL_SIZE + 1.
Proof.
  intros HI. destruct_inv HI. split; [assumption|].
  pose proof (count_primes_bounds (take (hidx s) (drop 1 (vals s)))) as Hb.
  rewrite length_take, length_drop in Hb.
  assert (Hlv : length (vals s) = length (heap (qm s))) by (unfold vals; apply length_map).
  assert (0 <= aborted (main s) <= 1) by (destruct (main s); simpl; lia).
  assert (0 <= Z.of_nat (alloc_pending (main s))) by lia.
  lia.
Qed.

Lemma step_total_counter input tr s t ev s' :
  Inv input tr s -> step t s = Some (ev, s') -> total_counter s <= total_counter s'.
Proof.
  intros HI Hstep. pose proof (total_counter_small _ _ _ HI) as Hb.
  unfold step in Hstep. destruct (terminated s); [discriminate|]. destruct t as [|w].
  - unfold main_step in Hstep.
    destruct (main s) as [| | | |e| | | | | |?]; simpl in Hstep;
      repeat case_match; simplify_eq; simpl; lia.
  - destruct (threads s !! w) as [pc|]; [|discriminate].
    destruct pc as [| |d| | |]; simpl in Hstep; repeat case_match; simplify_eq; simpl;
      try lia.
    rewrite wrap_id; [lia|]. apply in_int_small. unfold MEMORY_POOL_SIZE in Hb. lia.
Qed.

End ExecInvariant.

(** X2: whatever the interleaving and the number of workers, a reported
    total never exceeds the number of primes in the input, and it is that
    number when every input value is below FIRST_OVERFLOW. *)
Theorem reported_real_primes sysconf junk input sched r :
  Forall in_int input ->
  reports (fst (exec sched (init sysconf junk input) [])) = [r] ->
  r <= real_primes input /\
  (Forall (fun n => n < FIRST_OVERFLOW) input -> r = real_primes input).
Proof.
  intros Hint Hrep.
  destruct (reported_total _ _ _ (Inv_exec sysconf junk input sched)) as [Hr|Hr];
    rewrite Hr in Hrep; simplify_eq.
  split; [by apply count_primes_le_real|]. apply count_primes_eq_real.
Qed.

(** X2 on the numbers 1 to 10 with four workers. *)
Lemma reported_real_primes_witness :
  Forall in_int [1; 2; 3; 4; 5; 6; 7; 8; 9; 10] /\
  reports (fst (exec (round_robin 4 200) (init 4 0 [1; 2; 3; 4; 5; 6; 7; 8; 9; 10]) []))
    = [4] /\
  4 = real_primes [1; 2; 3; 4; 5; 6; 7; 8; 9; 10].
Proof.
  assert (Hint : Forall in_int [1; 2; 3; 4; 5; 6; 7; 8; 9; 10]).
  { repeat constructor; unfold INT_MIN, INT_MAX; lia. }
  assert (Hrep : reports (fst (exec (round_robin 4 200)
                                (init 4 0 [1; 2; 3; 4; 5; 6; 7; 8; 9; 10]) [])) = [4])
    by (vm_compute; reflexivity).
  split; [exact Hint|]. split; [exact Hrep|].
  apply (proj2 (reported_real_primes 4 0 [1; 2; 3; 4; 5; 6; 7; 8; 9; 10]
                  (round_robin 4 200) 4 Hint Hrep)).
  repeat constructor.
Defined.

(** X3: done is set only after the whole input has been read and enqueued,
    and once set it stays set. *)
Theorem done_after_input sysconf junk input sched :
  let tr := fst (exec sched (init sysconf junk input) []) in
  let s := snd (exec sched (init sysconf junk input) []) in
  done s = true ->
  stdin s = [] /\ linked tr = input /\
  forall sched', done (snd (exec sched' s tr)) = true.
Proof.
  intros tr s Hdn. pose proof (Inv_exec sysconf junk input sched) as HI. fold tr s in HI.
  destruct (main_past_done_lengths _ _ _ HI Hdn) as (Hin & Hlk & _).
  split; [assumption|]. split; [assumption|]. intros sched'.
  apply (exec_invariant (fun _ s => done s = true) input); try assumption.
  intros tr1 s1 t ev s2 HI1 Hd1 Hst. by eapply step_done.
Qed.

(** X3 after main has enqueued 3 and 4 and set done, no worker having run. *)
Lemma done_after_input_witness :
  let tr := fst (exec (replicate 30 Main) (init 2 0 [3; 4]) []) in
  let s := snd (exec (replicate 30 Main) (init 2 0 [3; 4]) []) in
  done s = true /\ linked tr = [3; 4] /\
  done (snd (exec (round_robin 2 50) s tr)) = true.
Proof.
  intros tr s. assert (Hdn : done s = true) by (vm_compute; reflexivity).
  split; [exact Hdn|].
  destruct (done_after_input 2 0 [3; 4] (replicate 30 Main) Hdn) as (_ & Hlk & Hst).
  split; [exact Hlk|apply Hst].
Defined.

(** X4: the nodes reachable from head are distinct malloc blocks (none is
    an arena slot, each was allocated), head first; tail is always one of
    them: the last, or the last but one while main is between its CAS on
    next and its CAS on tail. *)
Theorem tail_in_chain sysconf junk input sched :
  let s := snd (exec sched (init sysconf junk input) []) in
  let ns := queue_nodes (qm s) in
  ns !! O = Some (head (queue (qm s))) /\ NoDup ns /\
  Forall (fun p => exists a, p = Heap a /\ (a < length (heap (qm s)))%nat) ns /\
  exists k, ns !! k = Some (tail (queue (qm s))) /\
    (length ns = S k \/
     (length ns = S (S k) /\ exists nw tl, main s = MEnqueue (ECasTail nw tl))).
Proof.
  intros s ns. pose proof (Inv_exec sysconf junk input sched) as HI. fold s in HI.
  destruct (Inv_unconsumed _ _ _ HI) as [Hns _]. fold ns in Hns.
  destruct_inv HI. rewrite Hns, Ihead, Itail.
  split; [|split; [|split]].
  - rewrite list_lookup_fmap, lookup_seq_lt by lia. simpl. do 2 f_equal. lia.
  - apply NoDup_fmap_2; [intros ?? [=]; assumption|apply NoDup_seq].
  - apply Forall_fmap, Forall_forall. intros a Ha. apply elem_of_seq in Ha.
    exists a. split; [reflexivity|]. unfold nlinked in *. lia.
  - exists (tidx s - hidx s)%nat. split.
    + rewrite list_lookup_fmap, lookup_seq_lt by lia. simpl. do 2 f_equal. lia.
    + rewrite length_fmap, length_seq.
      destruct (main s) as [| | | |[]| | | | | |?]; simpl in *; try (left; lia).
      destruct (decide (nlinked s = S (tidx s))); [left; lia|right].
      split; [lia|]. by eexists _, _.
Qed.

(** X5: total_counter only grows, never wraps, and never exceeds the number
    of values accepted by isPrime among those taken out of the queue so far,
    hence among the input. *)
Theorem total_counter_bounds sysconf junk input sched :
  let tr := fst (exec sched (init sysconf junk input) []) in
  let s := snd (exec sched (init sysconf junk input) []) in
  0 <= total_counter s <= count_primes (unlinked tr) /\
  count_primes (unlinked tr) <= count_primes input /\
  forall sched', total_counter s <= total_counter (snd (exec sched' s tr)).
Proof.
  intros tr s. pose proof (Inv_exec sysconf junk input sched) as HI. fold tr s in HI.
  split; [|split].
  - rewrite (inv_unlinked _ _ _ HI). pose proof (inv_total _ _ _ HI).
    pose proof (inv_total_pos _ _ _ HI). lia.
  - apply count_primes_prefix. by eapply unlinked_prefix_input.
  - intros sched'.
    apply (exec_invariant (fun _ s' => total_counter s <= total_counter s') input);
      [|assumption|lia].
    intros tr1 s1 t ev s2 HI1 Hle Hst.
    pose proof (step_total_counter _ _ _ _ _ _ HI1 Hst). lia.
Qed.

(** X6: the nodes that dequeue unlinks are never freed.  When main returns,
    length input + 1 nodes have been allocated with malloc and freeQueue has
    freed one, the last. *)
Theorem nodes_leaked sysconf junk input sched :
  let tr := fst (exec sched (init sysconf junk input) []) in
  let s := snd (exec sched (init sysconf junk input) []) in
  main s = MReturn ->
  length (heap (qm s)) = S (length input) /\
  freed tr = [Heap (length input)].
Proof.
  intros tr s Hret. pose proof (Inv_exec sysconf junk input sched) as HI. fold tr s in HI.
  assert (Hm : match main s with MReport | MCleanup | MReturn => True | _ => False end)
    by (rewrite Hret; exact I).
  destruct (Inv_final _ _ _ HI Hm) as (_ & Hh & Hin & _).
  pose proof (inv_len _ _ _ HI) as Hlen.
  assert (Hl : length (heap (qm s)) = S (length input)).
  { rewrite Hin, length_drop. unfold vals. rewrite length_map. lia. }
  split; [assumption|].
  rewrite (inv_freed _ _ _ HI), Hret, (inv_head _ _ _ HI), Hh. do 2 f_equal. lia.
Qed.

(** X6 on a complete run with four workers. *)
Lemma nodes_leaked_witness :
  let tr := fst (exec (round_robin 4 200) (init 4 0 [3; 1; 4; 1; 5]) []) in
  let s := snd (exec (round_robin 4 200) (init 4 0 [3; 1; 4; 1; 5]) []) in
  main s = MReturn /\ length (heap (qm s)) = 6%nat /\ freed tr = [Heap 5].
Proof.
  intros tr s. assert (Hm : main s = MReturn) by (vm_compute; reflexivity).
  split; [exact Hm|]. exact (nodes_leaked 4 0 [3; 1; 4; 1; 5] (round_robin 4 200) Hm).
Defined.

(** X7: with main as the only producer enqueue goes straight through: the
    test tail == queue->tail holds and next is NULL (the helping branch of
    line 98 is never taken), and the CAS on tail->next succeeds at the first
    attempt. *)
Theorem enqueue_never_retries sysconf junk input sched :
  let s := snd (exec sched (init sysconf junk input) []) in
  match main s with
  | MEnqueue (EHelp _ _ _ _) => False
  | MEnqueue (ECheckTail v nw tl nx) =>
      step Main s = Some (None, set_main (MEnqueue (ECasNext v nw tl)) s)
  | MEnqueue (ECasNext v nw tl) =>
      exists m, step Main s = Some (Some (Linked v),
                                    set_main (MEnqueue (ECasTail nw tl)) (set_qm m s))
  | _ => True
  end.
Proof.
  intros s. pose proof (Inv_exec sysconf junk input sched) as HI. fold s in HI.
  destruct s as [[H [hd tl sz]] [pn idx] tot dn inp ncpu mpc ths].
  destruct_inv HI; unfold hidx, tidx, nlinked, vals in *; simpl in *.
  destruct hd as [h|]; [|discriminate]. destruct tl as [t|]; [|discriminate].
  simpl in *. unfold step, terminated, main_step. simpl.
  destruct mpc as [| | | |[v|v nw|v nw tl|v nw tl nx|v nw tl|nw tl| |v nw tl nx]| | | | | |];
    simpl in *; try exact I; try contradiction.
  - destruct Imain as (-> & Hv & -> & ->).
    rewrite decide_True by (f_equal; lia). reflexivity.
  - destruct Imain as (-> & Hv & ->). unfold cas_next. simpl.
    destruct (lookup_lt_is_Some_2 H (length H - 1 - 1) ltac:(lia)) as [nd Hnd].
    rewrite Hnd.
    assert (Hnx : next nd = None).
    { rewrite (Iheap _ _ Hnd). apply decide_False. lia. }
    rewrite Hnx. simpl. by eexists.
Qed.

(** X8: the total is printed, and the queue freed, only after every worker
    has left its loop: total_counter is final then, and no thread can touch
    a freed node. *)
Theorem report_after_workers sysconf junk input sched :
  let tr := fst (exec sched (init sysconf junk input) []) in
  let s := snd (exec sched (init sysconf junk input) []) in
  reports tr <> [] \/ freed tr <> [] ->
  threads s = replicate (numCPU s) WExit /\
  total_counter s = count_primes input /\
  forall sched' w, step (Worker w) (snd (exec sched' s tr)) = None.
Proof.
  intros tr s Hev. pose proof (Inv_exec sysconf junk input sched) as HI. fold tr s in HI.
  assert (Hm : match main s with MReport | MCleanup | MReturn => True | _ => False end).
  { rewrite (inv_reports _ _ _ HI), (inv_freed _ _ _ HI) in Hev.
    destruct (main s); try exact I; by destruct Hev. }
  destruct (Inv_final _ _ _ HI Hm) as (Hths & _ & _ & Htot).
  split; [assumption|]. split; [assumption|]. intros sched' w.
  set (past := fun (_ : list event) (s' : state) =>
         match main s' with MReport | MCleanup | MReturn => True | _ => False end).
  assert (Hpast : past (fst (exec sched' s tr)) (snd (exec sched' s tr))).
  { apply (exec_invariant past input); [|assumption|exact Hm].
    intros tr1 s1 t ev s2 HI1 Hp1 Hst. unfold past in *. unfold step in Hst.
    destruct (terminated s1); [discriminate|]. destruct t as [|w'].
    - unfold main_step in Hst.
      destruct (main s1); try contradiction; simpl in Hst;
        repeat case_match; simplify_eq; exact I.
    - destruct (threads s1 !! w') as [pc|]; [|discriminate].
      destruct (worker_step_main _ _ _ _ _ Hst) as (-> & _). exact Hp1. }
  destruct (Inv_final _ _ _ (Inv_exec_from input sched' tr s HI) Hpast) as (Hall & _).
  unfold step. destruct (terminated _); [reflexivity|]. rewrite Hall.
  destruct (replicate _ WExit !! w) as [pc|] eqn:Hw; [|reflexivity].
  apply lookup_replicate in Hw as [-> _]. reflexivity.
Qed.

(** X8 on a complete run with four workers. *)
Lemma report_after_workers_witness :
  let tr := fst (exec (round_robin 4 200) (init 4 0 [3; 1; 4; 1; 5]) []) in
  let s := snd (exec (round_robin 4 200) (init 4 0 [3; 1; 4; 1; 5]) []) in
  (reports tr <> [] \/ freed tr <> []) /\
  threads s = replicate 4 WExit /\ total_counter s = 2.
Proof.
  intros tr s.
  assert (Hev : reports tr <> [] \/ freed tr <> []) by (left; vm_compute; discriminate).
  split; [exact Hev|].
  destruct (report_after_workers 4 0 [3; 1; 4; 1; 5] (round_robin 4 200) Hev)
    as (Hths & Htot & _).
  split; [exact Hths|exact Htot].
Defined.

(** X9: size stays between -1 and MAX_QUEUE_SIZE.  It is negative only
    while main has linked a node whose increment is still to come and a
    worker has already dequeued it; this does happen. *)
Theorem size_range :
  (forall sysconf junk input sched,
     let s := snd (exec sched (init sysconf junk input) []) in
     -1 <= size (queue (qm s)) <= MAX_QUEUE_SIZE /\
     (size (queue (qm s)) < 0 ->
      unconsumed (qm s) = [] /\
      ((exists nw tl, main s = MEnqueue (ECasTail nw tl)) \/ main s = MEnqueue EIncSize))) /\
  (let s := snd (exec (replicate 11 Main ++ replicate 9 (Worker 0)) (init 1 0 [5]) []) in
   size (queue (qm s)) = -1).
Proof.
  split; [|reflexivity].
  intros sysconf junk input sched s.
  pose proof (Inv_exec sysconf junk input sched) as HI. fold s in HI.
  pose proof (unconsumed_length _ _ _ HI) as Hlen.
  pose proof (inv_size _ _ _ HI) as Hsz. pose proof (inv_bound _ _ _ HI) as Hb.
  pose proof (inv_order _ _ _ HI) as Hord.
  assert (Hp : (pending_inc (main s) <= 1)%nat)
    by (destruct (main s) as [| | | |[]| | | | | |?]; simpl; lia).
  split; [lia|]. intros Hneg. split.
  - apply nil_length_inv. lia.
  - destruct (main s) as [| | | |[]| | | | | |?]; simpl in *; try lia; eauto.
Qed.

(** X7 where main is about to link the node of 7. *)
Lemma enqueue_never_retries_witness :
  let s := snd (exec (replicate 9 Main) (init 1 0 [7]) []) in
  main s = MEnqueue (ECasNext 7 (Heap 1) (Heap 0)) /\
  exists m, step Main s = Some (Some (Linked 7),
                                set_main (MEnqueue (ECasTail (Heap 1) (Heap 0))) (set_qm m s)).
Proof.
  intros s.
  assert (Hm : main s = MEnqueue (ECasNext 7 (Heap 1) (Heap 0))) by (vm_compute; reflexivity).
  split; [exact Hm|].
  pose proof (enqueue_never_retries 1 0 [7] (replicate 9 Main)) as H.
  cbv zeta in H. fold s in H. rewrite Hm in H. exact H.
Defined.

(** ** What the workers do with the values and the nodes *)

Section Handover.

Lemma perm_transfer {B : Type} (A E M M' p p' D S : list B) :
  p ++ M' ≡ₚ p' ++ M -> E ++ p' ≡ₚ p ++ D -> A ++ M ≡ₚ S ->
  (A ++ E) ++ M' ≡ₚ S ++ D.
Proof.
  intros H1 H2 H3. apply (Permutation_app_inv_l p). rewrite <- H3.
  rewrite (Permutation_app_swap_app p (A ++ E) M'), H1.
  rewrite <- (assoc (++) A E), (assoc (++) E p' M), H2.
  rewrite <- !(assoc (++)).
  rewrite (Permutation_app_swap_app A p). do 2 f_equiv. apply Permutation_app_comm.
Qed.

Lemma dequeued_nodes_add ev tr :
  dequeued_nodes (add_event ev tr) =
  dequeued_nodes tr ++ match ev with Some (Dequeued _ _ p) => [p] | _ => [] end.
Proof.
  unfold dequeued_nodes, add_event. destruct ev as [e|]; simpl; [|by rewrite app_nil_r].
  rewrite omap_app. by destruct e.
Qed.

Lemma verdicts_add ev tr :
  verdicts (add_event ev tr) =
  verdicts tr ++ match ev with Some (Classified _ v b) => [(v, b)] | _ => [] end.
Proof.
  unfold verdicts, add_event. destruct ev as [e|]; simpl; [|by rewrite app_nil_r].
  rewrite omap_app. by destruct e.
Qed.

(** What a step of [main] leaves alone. *)
Lemma main_step_frame s ev s' :
  main_step s = Some (ev, s') ->
  head (queue (qm s')) = head (queue (qm s)) /\
  (threads s' = threads s \/ threads s' = threads s ++ [WLoadDone]) /\
  match ev with
  | Some (Dequeued _ _ _) | Some (Classified _ _ _) | Some (Unlinked _ _) => False
  | _ => True
  end.
Proof.
  intros Hstep. unfold main_step in Hstep.
  destruct (main s) as [| | | |e| | | | | |?]; simpl in Hstep.
  5: { destruct e; simpl in Hstep; unfold cas_next, cas_tail, set_next in Hstep;
       repeat case_match; simplify_eq; simpl; auto. }
  all: repeat case_match; simplify_eq; simpl; auto.
Qed.

(** The values: what a worker step classifies and takes over. *)
Lemma worker_step_values w pc s ev s' :
  worker_step w pc s = Some (ev, s') ->
  exists pc', threads s' = <[w := pc']> (threads s) /\
    match ev with Some (Classified _ v _) => [v] | _ => [] end ++ pending_test pc'
    = pending_test pc ++
      filter (fun v => v <> -1) match ev with Some (Dequeued _ v _) => [v] | _ => [] end.
Proof.
  intros Hstep.
  destruct pc as [| |[|hd|hd tl|hd tl nx|tl nx|hd nx|hd nx v|hd v]| | |]; simpl in Hstep;
    unfold cas_tail, cas_head in Hstep;
    repeat case_match; simplify_eq; simpl; eexists; (split; [reflexivity|]); simpl;
    try reflexivity.
  all: repeat match goal with
              | H : (_ =? _) = true |- _ => apply Z.eqb_eq in H
              | H : (_ =? _) = false |- _ => apply Z.eqb_neq in H
              end; subst; try reflexivity; try congruence.
  all: repeat match goal with
              | |- context [?x =? -1] => destruct (Z.eqb_spec x (-1))
              end;
       rewrite ?filter_cons, ?filter_nil; repeat case_decide; simplify_eq;
       try reflexivity; try congruence.
Qed.

Lemma mbind_exited {B : Type} (f : wpc -> list B) n :
  f WExit = [] -> replicate n WExit ≫= f = [].
Proof.
  intros Hf. induction n as [|n IH]; [reflexivity|].
  change (replicate (S n) WExit) with (WExit :: replicate n WExit).
  by rewrite bind_cons, Hf, IH.
Qed.

Lemma dequeued_final input tr s :
  Inv input tr s -> main s = MReturn -> dequeued tr ≡ₚ input.
Proof.
  intros HI Hret.
  assert (Hm : match main s with MReport | MCleanup | MReturn => True | _ => False end)
    by (rewrite Hret; exact I).
  destruct (Inv_final _ _ _ HI Hm) as (Hths & Hh & Hin & _).
  pose proof (inv_dequeued _ _ _ HI) as Hd. rewrite Hths in Hd.
  rewrite (mbind_exited pending_deq) in Hd by reflexivity.
  rewrite app_nil_r in Hd. rewrite Hd.
  rewrite (inv_unlinked _ _ _ HI), Hin. rewrite take_ge; [reflexivity|].
  rewrite length_drop. unfold vals. rewrite length_map. lia.
Qed.

(** Every value handed to a worker, -1 apart, is on its way to [isPrime] or
    has been through it. *)
Lemma tested_step input tr s t ev s' :
  Inv input tr s ->
  (verdicts tr).*1 ++ (threads s ≫= pending_test)
    ≡ₚ filter (fun v => v <> -1) (dequeued tr) ->
  step t s = Some (ev, s') ->
  (verdicts (add_event ev tr)).*1 ++ (threads s' ≫= pending_test)
    ≡ₚ filter (fun v => v <> -1) (dequeued (add_event ev tr)).
Proof.
  intros HI HP Hstep. unfold step in Hstep.
  destruct (terminated s); [discriminate|].
  rewrite verdicts_add, dequeued_add, fmap_app, filter_app.
  destruct t as [|w].
  - destruct (main_step_frame _ _ _ Hstep) as (_ & Hths & Hev).
    assert (Hb : threads s' ≫= pending_test = threads s ≫= pending_test).
    { destruct Hths as [->| ->]; [reflexivity|]. rewrite bind_app. simpl.
      by rewrite app_nil_r. }
    rewrite Hb. destruct ev as [[]|]; try contradiction; simpl;
      rewrite ?filter_nil, ?app_nil_r; assumption.
  - destruct (threads s !! w) as [pc|] eqn:Hw; [|discriminate].
    destruct (worker_step_values _ _ _ _ _ Hstep) as (pc' & -> & Hval).
    eapply (perm_transfer _ _ _ _ (pending_test pc) (pending_test pc'));
      [apply (mbind_insert_perm pending_test _ _ _ _ Hw)| |exact HP].
    rewrite <- Hval. by destruct ev as [[]|].
Qed.

Lemma verdicts_step t s ev s' :
  step t s = Some (ev, s') ->
  Forall (fun vb : Z * bool => vb.2 = isPrime vb.1)
         match ev with Some (Classified _ v b) => [(v, b)] | _ => [] end.
Proof.
  intros Hstep. destruct ev as [[]|]; try constructor; [|constructor].
  eapply step_classified; [eassumption|reflexivity].
Qed.

End Handover.

(** X10: every call of isPrime is on a value that a dequeue returned, its
    result is what isPrime gives, and each returned value other than -1 is
    tested exactly once: at any time the values tested, with those a worker
    is about to test, are the values returned other than -1; when main
    returns, the values tested are the input values other than -1. *)
Theorem every_value_tested_once sysconf junk input sched :
  let tr := fst (exec sched (init sysconf junk input) []) in
  let s := snd (exec sched (init sysconf junk input) []) in
  Forall (fun vb : Z * bool => vb.2 = isPrime vb.1) (verdicts tr) /\
  (verdicts tr).*1 ++ (threads s ≫= pending_test)
    ≡ₚ filter (fun v => v <> -1) (dequeued tr) /\
  (main s = MReturn -> (verdicts tr).*1 ≡ₚ filter (fun v => v <> -1) input).
Proof.
  intros tr s.
  pose proof (Inv_exec sysconf junk input sched) as HI. fold tr s in HI.
  assert (HP : (verdicts tr).*1 ++ (threads s ≫= pending_test)
                 ≡ₚ filter (fun v => v <> -1) (dequeued tr)).
  { apply (exec_invariant
             (fun tr s => (verdicts tr).*1 ++ (threads s ≫= pending_test)
                            ≡ₚ filter (fun v => v <> -1) (dequeued tr)) input);
      [|apply Inv_init|reflexivity].
    intros. by eapply tested_step. }
  split; [|split; [exact HP|]].
  - apply (exec_invariant
             (fun tr _ => Forall (fun vb : Z * bool => vb.2 = isPrime vb.1) (verdicts tr))
             input); [|apply Inv_init|constructor].
    intros tr1 s1 t ev s2 _ Hall Hst. rewrite verdicts_add. apply Forall_app.
    split; [assumption|by eapply verdicts_step].
  - intros Hret.
    assert (Hm : match main s with MReport | MCleanup | MReturn => True | _ => False end)
      by (rewrite Hret; exact I).
    destruct (Inv_final _ _ _ HI Hm) as (Hths & _).
    rewrite Hths, (mbind_exited pending_test), app_nil_r in HP by reflexivity.
    rewrite HP. by rewrite (dequeued_final _ _ _ HI Hret).
Qed.

Section HandedNodes.

(** The nodes: what a worker step unlinks and hands back. *)
Lemma worker_step_nodes input tr s w pc ev s' :
  Inv input tr s -> threads s !! w = Some pc ->
  worker_step w pc s = Some (ev, s') ->
  exists pc', threads s' = <[w := pc']> (threads s) /\ (hidx s <= hidx s')%nat /\
    match ev with Some (Dequeued _ _ p) => [p] | _ => [] end ++ pending_node pc'
    = pending_node pc ++ (Heap <$> seq (hidx s) (hidx s' - hidx s)).
Proof.
  intros HI Hw Hstep.
  pose proof (Forall_lookup_1 _ _ _ _ (inv_threads _ _ _ HI) Hw) as Hwinv.
  pose proof (inv_head _ _ _ HI) as Hhead.
  destruct pc as [| |[|hd|hd tl|hd tl nx|tl nx|hd nx|hd nx v|hd v]| | |]; simpl in Hstep.
  9: { destruct Hwinv as (a & -> & -> & Ha & Hat & Hv).
       unfold cas_head in Hstep. rewrite Hhead in Hstep.
       destruct (decide (Heap (hidx s) = Heap a)) as [Heq|Hne]; simplify_eq.
       - eexists. split; [reflexivity|]. unfold hidx in *. simpl.
         generalize (addr (head (queue (qm s)))). intros h.
         replace (h + 1 - h)%nat with 1%nat by lia. split; [lia|reflexivity].
       - eexists. split; [reflexivity|]. unfold hidx. simpl.
         rewrite Nat.sub_diag. split; [lia|reflexivity]. }
  all: unfold cas_tail in Hstep; repeat case_match; simplify_eq;
    eexists; (split; [reflexivity|]); unfold hidx; simpl;
    rewrite Nat.sub_diag; split; try lia; reflexivity.
Qed.

Lemma handed_step input tr s t ev s' :
  Inv input tr s ->
  dequeued_nodes tr ++ (threads s ≫= pending_node) ≡ₚ Heap <$> seq 0 (hidx s) ->
  step t s = Some (ev, s') ->
  dequeued_nodes (add_event ev tr) ++ (threads s' ≫= pending_node)
    ≡ₚ Heap <$> seq 0 (hidx s').
Proof.
  intros HI HP Hstep. unfold step in Hstep.
  destruct (terminated s); [discriminate|].
  rewrite dequeued_nodes_add. destruct t as [|w].
  - destruct (main_step_frame _ _ _ Hstep) as (Hhd & Hths & Hev).
    assert (Hb : threads s' ≫= pending_node = threads s ≫= pending_node).
    { destruct Hths as [->| ->]; [reflexivity|]. rewrite bind_app. simpl.
      by rewrite app_nil_r. }
    unfold hidx in *. rewrite Hb, Hhd.
    destruct ev as [[]|]; try contradiction; simpl; rewrite ?app_nil_r; assumption.
  - destruct (threads s !! w) as [pc|] eqn:Hw; [|discriminate].
    destruct (worker_step_nodes _ _ _ _ _ _ _ HI Hw Hstep) as (pc' & -> & Hle & Hnd).
    assert (Hseq : seq 0 (hidx s') = seq 0 (hidx s) ++ seq (hidx s) (hidx s' - hidx s)).
    { change (seq (hidx s)) with (seq (0 + hidx s)). rewrite <- seq_app. f_equal. lia. }
    rewrite Hseq, fmap_app.
    eapply (perm_transfer _ _ _ _ (pending_node pc) (pending_node pc'));
      [apply (mbind_insert_perm pending_node _ _ _ _ Hw)| |exact HP].
    by rewrite Hnd.
Qed.

Lemma handed_nodes input sched : forall tr s,
  Inv input tr s ->
  dequeued_nodes tr ++ (threads s ≫= pending_node) ≡ₚ Heap <$> seq 0 (hidx s) ->
  dequeued_nodes (fst (exec sched s tr)) ++ (threads (snd (exec sched s tr)) ≫= pending_node)
    ≡ₚ Heap <$> seq 0 (hidx (snd (exec sched s tr))).
Proof.
  intros tr s HI HP.
  apply (exec_invariant
           (fun tr s => dequeued_nodes tr ++ (threads s ≫= pending_node)
                          ≡ₚ Heap <$> seq 0 (hidx s)) input); try assumption.
  intros. by eapply handed_step.
Qed.

End HandedNodes.

(** X11: the nodes that dequeue hands back through dequeuedNode are pairwise
    distinct, so no node is given to two callers; none of them is still in
    the queue; none is ever freed; when main returns they are the first
    length input nodes that were allocated. *)
Theorem handed_nodes_distinct sysconf junk input sched :
  let tr := fst (exec sched (init sysconf junk input) []) in
  let s := snd (exec sched (init sysconf junk input) []) in
  NoDup (dequeued_nodes tr) /\
  (forall p, p ∈ dequeued_nodes tr -> (p ∉ queue_nodes (qm s)) /\ (p ∉ freed tr)) /\
  (main s = MReturn -> dequeued_nodes tr ≡ₚ Heap <$> seq 0 (length input)).
Proof.
  intros tr s.
  pose proof (Inv_exec sysconf junk input sched) as HI. fold tr s in HI.
  pose proof (handed_nodes input sched [] (init sysconf junk input)
                (Inv_init sysconf junk input) ltac:(reflexivity)) as HP.
  fold tr s in HP.
  assert (Hnd : NoDup (dequeued_nodes tr ++ (threads s ≫= pending_node))).
  { rewrite HP. apply NoDup_fmap_2; [intros ?? [=]; assumption|apply NoDup_seq]. }
  destruct (Inv_unconsumed _ _ _ HI) as [Hns _].
  assert (Hout : forall p, p ∈ dequeued_nodes tr -> p ∉ queue_nodes (qm s)).
  { intros p Hp Hq.
    assert (Hp' : p ∈ Heap <$> seq 0 (hidx s)).
    { rewrite <- HP. apply elem_of_app. by left. }
    rewrite Hns in Hq.
    apply list_elem_of_fmap in Hp' as (a & -> & Ha).
    apply list_elem_of_fmap in Hq as (b & [= <-] & Hb).
    apply elem_of_seq in Ha, Hb. lia. }
  split; [by apply NoDup_app in Hnd as (? & _)|]. split.
  - intros p Hp. split; [by apply Hout|].
    rewrite (inv_freed _ _ _ HI). destruct (main s) eqn:Hm; try apply not_elem_of_nil.
    intros Hf. apply list_elem_of_singleton in Hf. apply (Hout p Hp).
    rewrite Hns, Hf, (inv_head _ _ _ HI).
    apply list_elem_of_fmap. exists (hidx s). split; [reflexivity|].
    pose proof (inv_order _ _ _ HI). apply elem_of_seq. lia.
  - intros Hret.
    assert (Hm : match main s with MReport | MCleanup | MReturn => True | _ => False end)
      by (rewrite Hret; exact I).
    destruct (Inv_final _ _ _ HI Hm) as (Hths & Hh & Hin & _).
    rewrite Hths, (mbind_exited pending_node), app_nil_r in HP by reflexivity.
    rewrite HP, Hh, Hin, length_drop. unfold vals. by rewrite length_map.
Qed.

(** ** The arena, the heap and the end of the process *)

Section Memory.

Lemma worker_step_pool w pc s ev s' :
  worker_step w pc s = Some (ev, s') -> memoryPool s' = memoryPool s.
Proof.
  intros Hstep.
  destruct pc as [| |[|hd|hd tl|hd tl nx|tl nx|hd nx|hd nx v|hd v]| | |]; simpl in Hstep;
    unfold cas_tail, cas_head in Hstep; repeat case_match; by simplify_eq.
Qed.

(** Only the allocation of a slot touches the arena. *)
Lemma main_step_pool s ev s' :
  main_step s = Some (ev, s') -> (forall num, main s <> MAllocate num) ->
  memoryPool s' = memoryPool s /\ aborted (main s') = aborted (main s).
Proof.
  intros Hstep Hna. unfold main_step in Hstep.
  destruct (main s) as [| | |num|e| | | | | |?] eqn:Hmain; simpl in Hstep.
  4: { by destruct (Hna num). }
  4: { destruct e; simpl in Hstep; unfold cas_next, cas_tail in Hstep;
       repeat case_match; simplify_eq; simpl; split; reflexivity. }
  all: repeat case_match; simplify_eq; simpl; rewrite ?Hmain; split; reflexivity.
Qed.

Lemma arena_step input tr s t ev s' :
  Inv input tr s ->
  (forall i, nodes (memoryPool s) !! i =
     if decide (0 <= i < written s) then input !! Z.to_nat i else None) ->
  step t s = Some (ev, s') ->
  forall i, nodes (memoryPool s') !! i =
    if decide (0 <= i < written s') then input !! Z.to_nat i else None.
Proof.
  intros HI HP Hstep. unfold step in Hstep.
  destruct (terminated s); [discriminate|]. destruct t as [|w].
  2: { destruct (threads s !! w) as [pc|]; [|discriminate].
       destruct (worker_step_main _ _ _ _ _ Hstep) as (Hm & _).
       unfold written. rewrite (worker_step_pool _ _ _ _ _ Hstep), Hm. exact HP. }
  destruct (main s) as [| | |num| | | | | | |] eqn:Hmain.
  4: { pose proof (inv_pool _ _ _ HI) as Hpool. pose proof (inv_cap _ _ _ HI) as Hcap.
       pose proof (inv_input _ _ _ HI) as Hin. pose proof (inv_len _ _ _ HI) as Hlen.
       unfold written in *. rewrite Hmain in *. simpl in *.
       assert (Hnum : input !! Z.to_nat (index (memoryPool s)) = Some num).
       { rewrite Hin. rewrite lookup_app_r; rewrite length_drop; unfold vals;
           rewrite length_map; [|lia].
         replace (Z.to_nat (index (memoryPool s)) - (length (heap (qm s)) - 1))%nat
           with O by lia. reflexivity. }
       assert (Hwrap : wrap (index (memoryPool s) + 1) = index (memoryPool s) + 1).
       { apply wrap_id, in_int_small. unfold MEMORY_POOL_SIZE in *. lia. }
       unfold main_step in Hstep. rewrite Hmain in Hstep. unfold allocateNode in Hstep.
       rewrite Hwrap in Hstep.
       destruct (Z.leb_spec MEMORY_POOL_SIZE (index (memoryPool s))); simpl in Hstep.
       - simplify_eq. simpl. intros i. rewrite HP.
         repeat case_decide; try reflexivity; lia.
       - rewrite lookup_insert_eq in Hstep. simplify_eq. simpl. intros i.
         destruct (decide (i = index (memoryPool s))) as [->|Hne].
         + rewrite lookup_insert_eq, decide_True by lia. by rewrite Hnum.
         + rewrite lookup_insert_ne by congruence. rewrite HP.
           repeat case_decide; try reflexivity; lia. }
  all: destruct (main_step_pool _ _ _ Hstep) as [Hp Ha];
    [rewrite Hmain; discriminate|];
    unfold written in *; rewrite Hp, Ha, Hmain; rewrite Hmain in HP; exact HP.
Qed.

(** A node keeps its place and its value, and a next link that is set. *)
Lemma heap_step t s ev s' a nd :
  step t s = Some (ev, s') -> heap (qm s) !! a = Some nd ->
  exists nd', heap (qm s') !! a = Some nd' /\ value nd' = value nd /\
    forall p, next nd = Some p -> next nd' = Some p.
Proof.
  intros Hstep Hnd. unfold step in Hstep.
  destruct (terminated s); [discriminate|]. destruct t as [|w].
  2: { destruct (threads s !! w) as [pc|]; [|discriminate].
       destruct (worker_step_main _ _ _ _ _ Hstep) as (_ & _ & _ & _ & Hh & _).
       rewrite Hh. by exists nd. }
  unfold main_step in Hstep.
  destruct (main s) as [| | | |e| | | | | |?]; simpl in Hstep.
  5: { destruct e as [v|v nw|v nw tl|v nw tl nx|v nw tl|nw tl| |v nw tl nx];
         simpl in Hstep; unfold cas_next, cas_tail, set_next in Hstep;
         repeat case_match; simplify_eq; simpl; try (by exists nd).
       - exists nd. split; [by apply lookup_app_l_Some|auto].
       - match goal with
         | H : node_at _ (Heap ?b) = Some ?n0 |- _ =>
             simpl in H; destruct (decide (a = b)) as [->|Hne];
             [rewrite list_lookup_alter_eq, H; simplify_eq; simpl; eexists;
              repeat split; congruence
             |rewrite list_lookup_alter_ne by congruence; by exists nd]
         end. }
  all: repeat case_match; simplify_eq; simpl; by exists nd.
Qed.

(** [freeQueue] walks the chain to its end. *)
Lemma freeQueue_seq m L : forall d a fuel,
  (forall a nd, heap m !! a = Some nd ->
     next nd = if decide (a + 1 < L)%nat then Some (Heap (a + 1)) else None) ->
  (L <= length (heap m))%nat -> (a + d = L)%nat -> (1 <= d)%nat -> (d <= fuel)%nat ->
  freeQueue fuel m (Some (Heap a)) = Some (Heap <$> seq a d).
Proof.
  induction d as [|d IH]; intros a fuel Hch HL Ha Hd Hf; [lia|].
  destruct fuel as [|fuel]; [lia|].
  destruct (lookup_lt_is_Some_2 (heap m) a ltac:(lia)) as [nd Hnd].
  simpl. rewrite Hnd, (Hch _ _ Hnd). destruct d as [|d].
  - rewrite decide_False by lia. by rewrite freeQueue_None.
  - rewrite decide_True by lia. rewrite (IH (a + 1)%nat fuel); try assumption; try lia.
    simpl. by replace (a + 1)%nat with (S a) by lia.
Qed.

Lemma heap_exec sched : forall s tr a nd,
  heap (qm s) !! a = Some nd ->
  exists nd', heap (qm (snd (exec sched s tr))) !! a = Some nd' /\ value nd' = value nd /\
    forall p, next nd = Some p -> next nd' = Some p.
Proof.
  induction sched as [|t sched IH]; intros s tr a nd Hnd; simpl; [by exists nd|].
  destruct (step t s) as [[ev s1]|] eqn:Hst; [|by apply IH].
  destruct (heap_step _ _ _ _ _ _ Hst Hnd) as (nd1 & Hnd1 & Hv1 & Hn1).
  destruct (IH s1 (add_event ev tr) a nd1 Hnd1) as (nd' & Hnd' & Hv' & Hn').
  exists nd'. split; [assumption|]. split; [congruence|auto].
Qed.

(** From every state the process can be brought to its end, be it the
    return of [main] or the fatal exit of [allocateNode]. *)
Lemma can_terminate input :
  forall x : list event * state,
    Inv input (fst x) (snd x) ->
    exists sched, terminated (snd (exec sched (snd x) (fst x))) = true.
Proof.
  intros x.
  induction x as [[tr s] IH]
    using (lex3_ind (fun x => mmeasure (snd x)) (fun x => qmeasure (snd x))
                    (fun x => rmeasure (snd x))).
  simpl in *. intros HI.
  destruct (terminated s) eqn:Hterm; [by exists []|].
  destruct (blocked s) eqn:Hblk.
  - destruct (exists_active _ _ _ HI Hblk) as (w & pc & Hw & Hpos).
    destruct (worker_progress _ _ _ _ _ HI Hw Hpos) as (ev & s' & Hstep & Hlt).
    destruct (worker_step_main _ _ _ _ _ Hstep) as (Hm & Hin & Hn & _).
    assert (Hst : step (Worker w) s = Some (ev, s')).
    { unfold step. rewrite Hterm, Hw. exact Hstep. }
    destruct (IH (add_event ev tr, s')) as [sched Hsched]; simpl.
    + right. split; [unfold mmeasure; by rewrite Hm, Hin, Hn|].
      destruct Hlt as [Hlt|[Heq Hlt]]; [by left|right; by split].
    + eapply Inv_step; eassumption.
    + exists (Worker w :: sched). simpl. rewrite Hst. exact Hsched.
  - destruct (main_progress _ _ _ HI Hterm Hblk) as (ev & s' & Hstep & Hlt & _).
    assert (Hst : step Main s = Some (ev, s')).
    { unfold step. rewrite Hterm. exact Hstep. }
    destruct (IH (add_event ev tr, s')) as [sched Hsched]; simpl.
    + by left.
    + eapply Inv_step; eassumption.
    + exists (Main :: sched). simpl. rewrite Hst. exact Hsched.
Qed.

(** The fatal exit is taken with the index at the capacity or above. *)
Lemma abort_step input tr s t ev s' :
  Inv input tr s ->
  (forall n, main s = MAborted n -> MEMORY_POOL_SIZE < index (memoryPool s)) ->
  step t s = Some (ev, s') ->
  forall n, main s' = MAborted n -> MEMORY_POOL_SIZE < index (memoryPool s').
Proof.
  intros HI _ Hstep n Hab. unfold step in Hstep.
  destruct (terminated s) eqn:Hterm; [discriminate|]. destruct t as [|w].
  2: { destruct (threads s !! w) as [pc|]; [|discriminate].
       destruct (worker_step_main _ _ _ _ _ Hstep) as (Hm & _). rewrite Hm in Hab.
       unfold terminated in Hterm. by rewrite Hab in Hterm. }
  destruct (main s) as [| | |num| | | | | | |] eqn:Hmain.
  4: { pose proof (inv_pool _ _ _ HI) as Hpool. pose proof (inv_cap _ _ _ HI) as Hcap.
       pose proof (inv_len _ _ _ HI) as Hlen. rewrite Hmain in *. simpl in *.
       assert (Hwrap : wrap (index (memoryPool s) + 1) = index (memoryPool s) + 1).
       { apply wrap_id, in_int_small. unfold MEMORY_POOL_SIZE in *. lia. }
       unfold main_step in Hstep. rewrite Hmain in Hstep. unfold allocateNode in Hstep.
       rewrite Hwrap in Hstep.
       destruct (Z.leb_spec MEMORY_POOL_SIZE (index (memoryPool s))); simpl in Hstep.
       - simplify_eq. simpl. lia.
       - rewrite lookup_insert_eq in Hstep. simplify_eq. }
  all: try (unfold terminated in Hterm; rewrite Hmain in Hterm; discriminate).
  all: destruct (main_step_pool _ _ _ Hstep) as [_ Ha];
    [rewrite Hmain; discriminate|];
    rewrite Hmain, Hab in Ha; simpl in Ha; discriminate.
Qed.

Lemma abort_index sysconf junk input sched n :
  main (snd (exec sched (init sysconf junk input) [])) = MAborted n ->
  MEMORY_POOL_SIZE < index (memoryPool (snd (exec sched (init sysconf junk input) []))).
Proof.
  revert n.
  apply (exec_invariant
           (fun _ s => forall n, main s = MAborted n ->
                                 MEMORY_POOL_SIZE < index (memoryPool s)) input);
    [|apply Inv_init|discriminate].
  intros. by eapply abort_step.
Qed.

Lemma numCPU_exec sched : forall s tr, numCPU (snd (exec sched s tr)) = numCPU s.
Proof.
  induction sched as [|t sched IH]; intros s tr; simpl; [reflexivity|].
  destruct (step t s) as [[ev s1]|] eqn:Hst; [|apply IH].
  rewrite IH. unfold step in Hst. destruct (terminated s); [discriminate|].
  destruct t as [|w].
  - unfold main_step in Hst.
    destruct (main s) as [| | | |e| | | | | |?]; simpl in Hst;
      repeat case_match; by simplify_eq.
  - destruct (threads s !! w) as [pc|]; [|discriminate].
    by destruct (worker_step_main _ _ _ _ _ Hst) as (_ & _ & -> & _).
Qed.

Lemma arena_lookup sysconf junk input sched i :
  nodes (memoryPool (snd (exec sched (init sysconf junk input) []))) !! i =
  if decide (0 <= i < written (snd (exec sched (init sysconf junk input) [])))
  then input !! Z.to_nat i else None.
Proof.
  revert i.
  refine (exec_invariant
            (fun _ s0 => forall i, nodes (memoryPool s0) !! i =
               if decide (0 <= i < written s0) then input !! Z.to_nat i else None)
            input _ sched [] (init sysconf junk input) (Inv_init sysconf junk input) _).
  - intros tr1 s1 t ev s2 HI1 HP1 Hst. by eapply arena_step.
  - intros i. unfold written. simpl. rewrite lookup_empty.
    case_decide; [lia|reflexivity].
Qed.

(** The memory when the workers have been joined. *)
Lemma joined_memory sysconf junk input sched :
  let s := snd (exec sched (init sysconf junk input) []) in
  joined s ->
  heap (qm s) = final_heap junk input /\
  queue (qm s) = mkQueue (Heap (length input)) (Heap (length input)) 0 /\
  index (memoryPool s) = Z.of_nat (length input) /\
  written s = Z.of_nat (length input) /\
  total_counter s = count_primes input.
Proof.
  intros s Hj. pose proof (Inv_exec sysconf junk input sched) as HI. fold s in HI.
  assert (Hm : match main s with MReport | MCleanup | MReturn => True | _ => False end)
    by (destruct Hj as [-> | ->]; exact I).
  assert (Hpend : unlinked_pending (main s) = O /\ pending_inc (main s) = O /\
                  alloc_pending (main s) = O /\ aborted (main s) = 0)
    by (destruct Hj as [-> | ->]; repeat split).
  destruct Hpend as (Hup & Hpi & Hap & Hab).
  destruct (Inv_final _ _ _ HI Hm) as (Hths & Hh & Hin & Htot).
  pose proof (inv_len _ _ _ HI) as Hlen.
  assert (Hl : length (heap (qm s)) = S (length input)).
  { rewrite Hin, length_drop. unfold vals. rewrite length_map. lia. }
  assert (Hnl : nlinked s = length (heap (qm s))).
  { unfold nlinked. rewrite Hup. lia. }
  destruct (heap_exec sched (init sysconf junk input) [] O (mkNode junk None) eq_refl)
    as (nd0 & Hnd0 & Hv0 & _). fold s in Hnd0.
  assert (Hvals : vals s = junk :: input).
  { unfold vals in *. destruct (heap (qm s)) as [|n0 H]; [discriminate|].
    simpl in Hnd0. injection Hnd0 as ->. simpl in Hin. simpl.
    by rewrite Hv0, Hin, drop_0. }
  assert (Hidx : index (memoryPool s) = Z.of_nat (length input)).
  { rewrite (inv_pool _ _ _ HI), Hap. lia. }
  split; [|split; [|split; [|split]]]; try assumption.
  - apply list_eq. intros a. unfold final_heap. rewrite list_lookup_imap.
    destruct (heap (qm s) !! a) as [nd|] eqn:Hnd.
    + pose proof (inv_heap _ _ _ HI _ _ Hnd) as Hnx. rewrite Hnl, Hl in Hnx.
      assert (Hv : (junk :: input) !! a = Some (value nd)).
      { rewrite <- Hvals. unfold vals. rewrite lookup_map_value, Hnd. reflexivity. }
      rewrite Hv. simpl. destruct nd as [v nx]. simpl in *. by rewrite Hnx.
    + apply lookup_ge_None in Hnd.
      rewrite lookup_ge_None_2; [reflexivity|]. simpl. lia.
  - pose proof (inv_head _ _ _ HI) as Hhd. pose proof (inv_tail _ _ _ HI) as Htl.
    pose proof (inv_order _ _ _ HI) as Hord. pose proof (inv_size _ _ _ HI) as Hsz.
    rewrite Hths in Hsz.
    assert (Hz : sum_list_with in_dec (replicate (numCPU s) WExit) = O).
    { apply sum_list_with_zero, Forall_replicate. reflexivity. }
    rewrite Hz, Hpi in Hsz. simpl in Hsz.
    destruct (queue (qm s)) as [hd tl sz]. simpl in *.
    rewrite Hhd, Htl. f_equal; [f_equal; lia|f_equal; lia|lia].
  - unfold written. rewrite Hidx, Hab. lia.
Qed.

Lemma worker_step_quiet w pc s ev s' :
  worker_step w pc s = Some (ev, s') -> ev <> Some Exhausted.
Proof.
  unfold worker_step. destruct pc as [| |d| | |]; try (repeat case_match; congruence).
  destruct d; simpl; repeat case_match; congruence.
Qed.

Lemma main_step_exhausted s ev s' :
  main_step s = Some (ev, s') -> terminated s = false ->
  ev = Some Exhausted <-> exists n, main s' = MAborted n.
Proof.
  unfold main_step, terminated. intros Hstep Hterm.
  destruct (main s) as [| | | |e| | | | | |?] eqn:Hm; try discriminate.
  5: { destruct e; simpl in Hstep; repeat case_match; simplify_eq; simpl;
       (split; [discriminate|intros [? ?]; discriminate]). }
  all: repeat case_match; simplify_eq; simpl; rewrite ?Hm;
    try (split; [discriminate|intros [? ?]; discriminate]).
  split; [by eexists|reflexivity].
Qed.

(** "Memory pool exhausted." is in the output exactly when the process
    has taken the fatal exit. *)
Lemma exhausted_iff sysconf junk input sched :
  Exhausted ∈ fst (exec sched (init sysconf junk input) []) <->
  exists n, main (snd (exec sched (init sysconf junk input) [])) = MAborted n.
Proof.
  refine (exec_invariant
            (fun tr s0 => Exhausted ∈ tr <-> exists n, main s0 = MAborted n)
            input _ sched [] (init sysconf junk input) (Inv_init sysconf junk input) _).
  - intros tr1 s1 t ev s2 HI1 HP1 Hst. unfold step in Hst.
    destruct (terminated s1) eqn:Hterm; [discriminate|].
    assert (Hno : ~ Exhausted ∈ tr1).
    { rewrite HP1. intros [n Hn]. unfold terminated in Hterm. by rewrite Hn in Hterm. }
    assert (Hadd : Exhausted ∈ add_event ev tr1 <-> ev = Some Exhausted).
    { unfold add_event. destruct ev as [e|]; [|by split].
      rewrite elem_of_app, list_elem_of_singleton. split; [|intros [= ->]; by right].
      intros [? | ->]; [done|reflexivity]. }
    rewrite Hadd. destruct t as [|w].
    + exact (main_step_exhausted s1 ev s2 Hst Hterm).
    + destruct (threads s1 !! w) as [pc|]; [|discriminate].
      pose proof (worker_step_quiet _ _ _ _ _ Hst) as Hq.
      destruct (worker_step_main _ _ _ _ _ Hst) as (Hm & _). rewrite Hm.
      split; [done|]. intros [n Hn]. unfold terminated in Hterm. by rewrite Hn in Hterm.
  - simpl. split; [by intros ?%elem_of_nil|intros [? ?]; discriminate].
Qed.

End Memory.

(** X12: the arena ends up as a copy of the input and nothing more: every
    slot below the index (the one refused at the fatal exit apart) holds the
    input value of that rank, the slots above are untouched, and at the
    return of main the slots written are as many as the input values. *)
Theorem arena_copy sysconf junk input sched :
  let s := snd (exec sched (init sysconf junk input) []) in
  (forall i, nodes (memoryPool s) !! i =
     if decide (0 <= i < written s) then input !! Z.to_nat i else None) /\
  0 <= written s <= MEMORY_POOL_SIZE /\
  (main s = MReturn -> written s = Z.of_nat (length input)).
Proof.
  intros s. pose proof (Inv_exec sysconf junk input sched) as HI. fold s in HI.
  split; [|split].
  - apply arena_lookup.
  - unfold written. pose proof (inv_pool _ _ _ HI). pose proof (inv_cap _ _ _ HI).
    pose proof (inv_len _ _ _ HI).
    destruct (main s) as [| | | |[]| | | | | |?]; simpl in *; lia.
  - intros Hret.
    assert (Hm : match main s with MReport | MCleanup | MReturn => True | _ => False end)
      by (rewrite Hret; exact I).
    destruct (Inv_final _ _ _ HI Hm) as (_ & _ & Hin & _).
    unfold written. rewrite (inv_pool _ _ _ HI), Hret. simpl.
    pose proof (inv_len _ _ _ HI).
    rewrite Hin, length_drop. unfold vals. rewrite length_map. lia.
Qed.

(** X13: an input of more than MEMORY_POOL_SIZE values never lets main
    return or report a total, and never gets more than MEMORY_POOL_SIZE
    values into the queue; "Memory pool exhausted." is printed exactly when
    allocateNode takes its fatal exit, which happens for the value of rank
    MEMORY_POOL_SIZE, after exactly the values before it have been
    enqueued, and stops every thread; and some execution comes to that
    exit. *)
Theorem arena_exhaustion sysconf junk input :
  MEMORY_POOL_SIZE < Z.of_nat (length input) ->
  (forall sched,
     let tr := fst (exec sched (init sysconf junk input) []) in
     let s := snd (exec sched (init sysconf junk input) []) in
     main s <> MReturn /\ reports tr = [] /\
     Z.of_nat (length (linked tr)) <= MEMORY_POOL_SIZE /\
     (Exhausted ∈ tr <-> exists n, main s = MAborted n) /\
     forall n, main s = MAborted n ->
       linked tr = take (Z.to_nat MEMORY_POOL_SIZE) input /\
       input !! Z.to_nat MEMORY_POOL_SIZE = Some n /\
       forall t, step t s = None) /\
  (exists sched n,
     main (snd (exec sched (init sysconf junk input) [])) = MAborted n).
Proof.
  intros Hlong.
  assert (Hnoret : forall sched,
            main (snd (exec sched (init sysconf junk input) [])) <> MReturn).
  { intros sched Hret. pose proof (Inv_exec sysconf junk input sched) as HI.
    assert (Hrep : reports (fst (exec sched (init sysconf junk input) [])) <> [])
      by (rewrite (inv_reports _ _ _ HI), Hret; discriminate).
    pose proof (reported_within_capacity _ _ _ HI Hrep). lia. }
  split.
  - intros sched tr s. pose proof (Inv_exec sysconf junk input sched) as HI.
    fold tr s in HI. split; [apply Hnoret|]. split; [|split; [|split]].
    + destruct (reports tr) eqn:Hrep; [reflexivity|].
      assert (Hne : reports tr <> []) by (rewrite Hrep; discriminate).
      pose proof (reported_within_capacity _ _ _ HI Hne). lia.
    + rewrite (inv_linked _ _ _ HI), length_drop, length_take.
      pose proof (inv_pool _ _ _ HI). pose proof (inv_cap _ _ _ HI).
      pose proof (inv_len _ _ _ HI). unfold nlinked, vals. rewrite length_map.
      destruct (main s) as [| | | |[]| | | | | |?]; simpl in *; lia.
    + apply exhausted_iff.
    + intros n Hab.
      pose proof (abort_index sysconf junk input sched n Hab) as Hidx. fold s in Hidx.
      pose proof (inv_pool _ _ _ HI) as Hpool. pose proof (inv_cap _ _ _ HI) as Hcap.
      pose proof (inv_input _ _ _ HI) as Hin. pose proof (inv_len _ _ _ HI) as Hlen.
      pose proof (inv_linked _ _ _ HI) as Hlk.
      unfold nlinked in *. rewrite Hab in *. simpl in *.
      assert (Hl : length (drop 1 (vals s)) = Z.to_nat MEMORY_POOL_SIZE).
      { rewrite length_drop. unfold vals. rewrite length_map. lia. }
      split; [|split].
      * rewrite Hlk, Hin. rewrite take_app_length' by (by symmetry).
        f_equal. apply take_ge. unfold vals. rewrite length_map. lia.
      * rewrite Hin, lookup_app_r by lia. rewrite Hl, Nat.sub_diag. reflexivity.
      * intros t. unfold step, terminated. by rewrite Hab.
  - destruct (can_terminate input ([], init sysconf junk input)
                (Inv_init sysconf junk input)) as [sched Hterm].
    simpl in Hterm. unfold terminated in Hterm.
    destruct (main (snd (exec sched (init sysconf junk input) []))) as [| | | | | | | | | |n]
      eqn:Hm; try discriminate.
    + by destruct (Hnoret sched).
    + by exists sched, n.
Qed.

(** X13 on 10,000,001 zeros. *)
Lemma arena_exhaustion_witness :
  MEMORY_POOL_SIZE < Z.of_nat (length (repeat 0 (Z.to_nat 10000001))) /\
  exists sched n,
    main (snd (exec sched (init 1 0 (repeat 0 (Z.to_nat 10000001))) [])) = MAborted n.
Proof.
  assert (Hlong : MEMORY_POOL_SIZE < Z.of_nat (length (repeat 0 (Z.to_nat 10000001)))).
  { rewrite repeat_length, Z2Nat.id by lia. unfold MEMORY_POOL_SIZE. lia. }
  split; [exact Hlong|].
  exact (proj2 (arena_exhaustion 1 0 (repeat 0 (Z.to_nat 10000001)) Hlong)).
Defined.

(** X14: the number of workers is sysconf's answer, or 1 when that is below
    1; once the creation loop is over exactly that many threads exist, and
    no other thread ever runs. *)
Theorem worker_count sysconf junk input sched :
  let s := snd (exec sched (init sysconf junk input) []) in
  numCPU s = Z.to_nat (Z.max 1 sysconf) /\
  match main s with
  | MCreate i => length (threads s) = i /\ (i <= numCPU s)%nat
  | _ => length (threads s) = numCPU s
  end /\
  forall w, (numCPU s <= w)%nat -> step (Worker w) s = None.
Proof.
  intros s. pose proof (Inv_exec sysconf junk input sched) as HI. fold s in HI.
  split; [|split].
  - unfold s. rewrite numCPU_exec. simpl. destruct (Z.ltb_spec sysconf 1); f_equal; lia.
  - pose proof (inv_nthreads _ _ _ HI) as [_ Hn]. pose proof (inv_main _ _ _ HI) as Hm.
    destruct (main s); simpl in *; try assumption. destruct Hm. by split.
  - intros w Hw. pose proof (inv_nthreads _ _ _ HI) as [Hle _].
    unfold step. destruct (terminated s); [reflexivity|].
    rewrite lookup_ge_None_2 by lia. reflexivity.
Qed.

(** X15: a node, once allocated, keeps its place and its value for the rest
    of the execution, and its next link, once set, is never changed: nodes
    are neither reused nor rewritten. *)
Theorem nodes_write_once sysconf junk input sched sched' a nd :
  let s := snd (exec sched (init sysconf junk input) []) in
  let s' := snd (exec (sched ++ sched') (init sysconf junk input) []) in
  heap (qm s) !! a = Some nd ->
  exists nd', heap (qm s') !! a = Some nd' /\ value nd' = value nd /\
    forall p, next nd = Some p -> next nd' = Some p.
Proof.
  intros s s' Hnd. unfold s'. rewrite exec_app. by apply heap_exec.
Qed.

(** X15 on the node of 3 in a run on the input 3, 1, 4, 1, 5, from its
    allocation to the end. *)
Lemma nodes_write_once_witness :
  let s := snd (exec (replicate 9 Main) (init 4 0 [3; 1; 4; 1; 5]) []) in
  let s' := snd (exec (replicate 9 Main ++ round_robin 4 200)
                      (init 4 0 [3; 1; 4; 1; 5]) []) in
  heap (qm s) !! 1%nat = Some (mkNode 3 None) /\
  exists nd', heap (qm s') !! 1%nat = Some nd' /\ value nd' = 3.
Proof.
  intros s s'.
  assert (Hnd : heap (qm s) !! 1%nat = Some (mkNode 3 None)) by (vm_compute; reflexivity).
  split; [exact Hnd|].
  destruct (nodes_write_once 4 0 [3; 1; 4; 1; 5] (replicate 9 Main) (round_robin 4 200)
              1%nat (mkNode 3 None) Hnd) as (nd' & Hnd' & Hv & _).
  exists nd'. split; [exact Hnd'|exact Hv].
Defined.

(** X16: on a queue at rest that holds vs, freeQueue frees the nodes
    reachable from head, the sentinel first, each once, length vs + 1 in
    all, without fault. *)
Theorem freeQueue_at_rest m vs :
  wfq m vs ->
  freeQueue (S (length (heap m))) m (Some (head (queue m))) = Some (queue_nodes m) /\
  length (queue_nodes m) = S (length vs) /\ NoDup (queue_nodes m).
Proof.
  intros (h & Hhd & Htl & Hlen & Hch & Hvs & Hsz & Hmax).
  destruct (unconsumed_chain m (length (heap m)) h Hch ltac:(lia) Hhd ltac:(lia))
    as [Hq _].
  rewrite Hq, Hhd. split; [|split].
  - apply (freeQueue_seq m (length (heap m))); try assumption; lia.
  - rewrite length_fmap, length_seq. lia.
  - apply NoDup_fmap_2; [intros ?? [=]; assumption|apply NoDup_seq].
Qed.

(** X16 on a queue that holds the value -1. *)
Lemma freeQueue_at_rest_witness :
  let m := mkMem [mkNode 0 (Some (Heap 1)); mkNode (-1) None]
                 (mkQueue (Heap 0) (Heap 1) 1) in
  wfq m [-1] /\
  freeQueue 3 m (Some (Heap 0)) = Some [Heap 0; Heap 1].
Proof.
  intros m.
  assert (Hwf : wfq m [-1]).
  { exists O. repeat split; try reflexivity; [|vm_compute; discriminate].
    intros [|[|a]] nd Hnd; simpl in Hnd; try discriminate; by simplify_eq. }
  split; [exact Hwf|]. exact (proj1 (freeQueue_at_rest m [-1] Hwf)).
Defined.

(** X18: the memory that a run has built when main has joined the workers
    (before the clean-up) does not depend on the interleaving, on the number
    of workers, nor on what the sentinel's block held: the heap is the
    sentinel followed by one node for each input value, chained in input
    order; head and tail are the last node and size is 0; the nodes of the
    values, the arena and total_counter are the same in any two such runs. *)
Theorem memory_at_join_unique sysconf1 sysconf2 junk1 junk2 input sched1 sched2 :
  let s1 := snd (exec sched1 (init sysconf1 junk1 input) []) in
  let s2 := snd (exec sched2 (init sysconf2 junk2 input) []) in
  joined s1 -> joined s2 ->
  heap (qm s1) = final_heap junk1 input /\
  heap (qm s2) = final_heap junk2 input /\
  drop 1 (heap (qm s1)) = drop 1 (heap (qm s2)) /\
  queue (qm s1) = mkQueue (Heap (length input)) (Heap (length input)) 0 /\
  queue (qm s1) = queue (qm s2) /\
  memoryPool s1 = memoryPool s2 /\
  total_counter s1 = count_primes input /\
  total_counter s1 = total_counter s2.
Proof.
  intros s1 s2 Hj1 Hj2.
  destruct (joined_memory sysconf1 junk1 input sched1 Hj1) as (Hh1 & Hq1 & Hi1 & Hw1 & Ht1).
  destruct (joined_memory sysconf2 junk2 input sched2 Hj2) as (Hh2 & Hq2 & Hi2 & Hw2 & Ht2).
  fold s1 in Hh1, Hq1, Hi1, Hw1, Ht1. fold s2 in Hh2, Hq2, Hi2, Hw2, Ht2.
  split; [assumption|]. split; [assumption|].
  split; [by rewrite Hh1, Hh2|]. split; [assumption|].
  split; [congruence|]. split; [|split; [assumption|congruence]].
  assert (Hn : nodes (memoryPool s1) = nodes (memoryPool s2)).
  { apply map_eq. intros i. unfold s1, s2. rewrite !arena_lookup.
    fold s1 s2. rewrite Hw1, Hw2. reflexivity. }
  destruct (memoryPool s1), (memoryPool s2). simpl in *. congruence.
Qed.

(** X18 on two runs, with four workers and with one, stopped when main is
    about to clean up. *)
Lemma memory_at_join_unique_witness :
  let s1 := snd (exec (round_robin 4 71) (init 4 0 [3; 1; 4; 1; 5]) []) in
  let s2 := snd (exec (round_robin 1 63) (init 1 9 [3; 1; 4; 1; 5]) []) in
  joined s1 /\ joined s2 /\ queue (qm s1) = queue (qm s2) /\
  memoryPool s1 = memoryPool s2.
Proof.
  intros s1 s2.
  assert (H1 : joined s1) by (right; vm_compute; reflexivity).
  assert (H2 : joined s2) by (right; vm_compute; reflexivity).
  split; [exact H1|]. split; [exact H2|].
  pose proof (memory_at_join_unique 4 1 0 9 [3; 1; 4; 1; 5]
                (round_robin 4 71) (round_robin 1 63) H1 H2) as H.
  cbv zeta in H. fold s1 s2 in H. tauto.
Defined.

Section Conservation.

(** The three views of the values, in terms of the heap: what was linked,
    what was unlinked, what is still in the queue. *)
Lemma trace_views input tr s :
  Inv input tr s ->
  linked tr = take (nlinked s - 1) (drop 1 (vals s)) /\
  unlinked tr = take (hidx s) (linked tr) /\
  linked tr = unlinked tr ++ unconsumed (qm s).
Proof.
  intros HI. pose proof (Inv_unconsumed _ _ _ HI) as [_ Hun]. destruct_inv HI.
  assert (Hlk : linked tr = take (nlinked s - 1) (drop 1 (vals s))).
  { rewrite Ilinked, take_drop_commute. do 2 f_equal. unfold nlinked in *. lia. }
  split; [assumption|]. split.
  - rewrite Hlk, take_take, Iunlinked. f_equal. lia.
  - rewrite Hun, Iunlinked, Hlk.
    replace (hidx s + 1)%nat with (1 + hidx s)%nat by lia.
    rewrite <- drop_drop, take_take_drop. f_equal. lia.
Qed.

Lemma pending_deq_exited n : replicate n WExit ≫= pending_deq = [].
Proof. induction n as [|n IH]; [reflexivity|exact IH]. Qed.

Lemma results_add ev tr :
  results (add_event ev tr) =
  results tr ++ match ev with Some (Dequeued w v p) => [(w, v, p)] | _ => [] end.
Proof.
  unfold results, add_event. destruct ev as [e|]; simpl; [|by rewrite app_nil_r].
  rewrite omap_app. by destruct e.
Qed.

Lemma results_nodes tr : dequeued_nodes tr = (fun x => x.2) <$> results tr.
Proof.
  unfold dequeued_nodes, results. induction tr as [|e tr IH]; [reflexivity|].
  destruct e; simpl; try exact IH. f_equal. exact IH.
Qed.

(** What a step of a worker hands back, and what it takes over: the node
    that was [head], which is in front of the node of the value. *)
Lemma worker_step_results input tr s w pc ev s' :
  Inv input tr s -> threads s !! w = Some pc ->
  worker_step w pc s = Some (ev, s') ->
  (hidx s <= hidx s')%nat /\
  exists pc', threads s' = <[w := pc']> (threads s) /\
    (forall hd v, pc' = WDequeue (DDecSize hd v) ->
       hd = Heap (hidx s) /\ hidx s' = S (hidx s) /\ input !! hidx s = Some v) /\
    (forall w0 v p, ev = Some (Dequeued w0 v p) ->
       w0 = w /\ pc = WDequeue (DDecSize p v)).
Proof.
  intros HI Hw Hstep.
  pose proof (Forall_lookup_1 _ _ _ _ (inv_threads _ _ _ HI) Hw) as Hwinv.
  pose proof (inv_head _ _ _ HI) as Hhead.
  destruct pc as [| |[|hd|hd tl|hd tl nx|tl nx|hd nx|hd nx v|hd v]| | |]; simpl in Hstep.
  9: { destruct Hwinv as (a & -> & -> & Ha & Hat & Hv).
       unfold cas_head in Hstep. rewrite Hhead in Hstep.
       destruct (decide (Heap (hidx s) = Heap a)) as [Heq|Hne]; simplify_eq.
       - split; [unfold hidx; simpl; lia|].
         eexists. split; [reflexivity|]. split; [|intros ??? [=]].
         intros hd v0 [= <- <-]. split; [reflexivity|].
         split; [unfold hidx; simpl; lia|].
         rewrite (inv_input _ _ _ HI). apply lookup_app_l_Some.
         rewrite lookup_drop. by replace (1 + hidx s)%nat with (hidx s + 1)%nat by lia.
       - split; [unfold hidx; simpl; lia|].
         eexists. split; [reflexivity|]. split; [intros ?? [=]|intros ??? [=]]. }
  all: unfold cas_tail in Hstep; repeat case_match; simplify_eq;
    (split; [unfold hidx; simpl; lia|]);
    eexists; (split; [reflexivity|]);
    (split; [intros ?? [=]|intros ??? [=]; by subst]).
Qed.

(** Every value a call of [dequeue] returns is the input value whose rank
    is the number of the node handed back with it. *)
Lemma results_input sysconf junk input sched :
  Forall (fun x => exists a, x.2 = Heap a /\ input !! a = Some x.1.2)
         (results (fst (exec sched (init sysconf junk input) []))).
Proof.
  refine (proj1 (exec_invariant
            (fun tr s =>
               Forall (fun x => exists a, x.2 = Heap a /\ input !! a = Some x.1.2)
                      (results tr) /\
               forall w hd v, threads s !! w = Some (WDequeue (DDecSize hd v)) ->
                 exists a, hd = Heap a /\ input !! a = Some v)
            input _ sched [] (init sysconf junk input) (Inv_init sysconf junk input) _)).
  - intros tr s t ev s' HI [Hres Hpend] Hstep. unfold step in Hstep.
    destruct (terminated s); [discriminate|]. rewrite results_add. destruct t as [|w].
    + destruct (main_step_frame _ _ _ Hstep) as (_ & Hths & Hev). split.
      * destruct ev as [[]|]; try contradiction; simpl; by rewrite ?app_nil_r.
      * intros w hd v Hw. destruct Hths as [Hths|Hths]; rewrite Hths in Hw.
        -- by eapply Hpend.
        -- apply lookup_app_Some in Hw as [Hw|[_ Hw]]; [by eapply Hpend|].
           apply list_lookup_singleton_Some in Hw as [_ Hw]. discriminate.
    + destruct (threads s !! w) as [pc|] eqn:Hw; [|discriminate].
      destruct (worker_step_results _ _ _ _ _ _ _ HI Hw Hstep)
        as (_ & pc' & Hths & Hnew & Hev).
      split.
      * apply Forall_app. split; [exact Hres|].
        destruct ev as [[?|? ?|w0 v0 p0|?|? ? ?|?| |?]|]; try constructor; [|constructor].
        destruct (Hev _ _ _ eq_refl) as [-> ->].
        destruct (Hpend _ _ _ Hw) as (a & -> & Ha). by exists a.
      * intros w1 hd v Hw1. rewrite Hths in Hw1.
        destruct (decide (w = w1)) as [<-|Hne].
        -- rewrite list_lookup_insert_eq in Hw1 by (by eapply lookup_lt_Some).
           injection Hw1 as ->. destruct (Hnew _ _ eq_refl) as (-> & _ & Ha).
           by eexists.
        -- rewrite list_lookup_insert_ne in Hw1 by done. by eapply Hpend.
  - split; [constructor|]. intros w hd v Hw. discriminate.
Qed.

(** A call of [dequeue] that has not unlinked a node yet will hand back a
    node that comes after every node handed back so far. *)
Lemma results_later input w sched : forall tr s,
  Inv input tr s ->
  (forall pc, threads s !! w = Some pc -> pending_deq pc = []) ->
  exists tr2, fst (exec sched s tr) = tr ++ tr2 /\
    Forall (fun x => x.1.1 = w -> (hidx s <= addr x.2)%nat) (results tr2).
Proof.
  intros tr s HI Hw.
  refine (proj2 (proj2 (exec_invariant
            (fun tr' s' =>
               (hidx s <= hidx s')%nat /\
               (forall hd v, threads s' !! w = Some (WDequeue (DDecSize hd v)) ->
                  (hidx s <= addr hd)%nat) /\
               exists tr2, tr' = tr ++ tr2 /\
                 Forall (fun x => x.1.1 = w -> (hidx s <= addr x.2)%nat) (results tr2))
            input _ sched tr s HI _))).
  - intros tr1 s1 t ev s2 HI1 (Hle & Hpend & tr2 & -> & Hres) Hstep. unfold step in Hstep.
    destruct (terminated s1); [discriminate|]. destruct t as [|w1].
    + destruct (main_step_frame _ _ _ Hstep) as (Hhd & Hths & Hev).
      split; [unfold hidx in *; by rewrite Hhd|]. split.
      * intros hd v Hw2. destruct Hths as [Hths|Hths]; rewrite Hths in Hw2.
        -- by eapply Hpend.
        -- apply lookup_app_Some in Hw2 as [Hw2|[_ Hw2]]; [by eapply Hpend|].
           apply list_lookup_singleton_Some in Hw2 as [_ Hw2]. discriminate.
      * exists (add_event ev tr2). split.
        -- unfold add_event. destruct ev; [by rewrite app_assoc|reflexivity].
        -- rewrite results_add.
           destruct ev as [[]|]; try contradiction; simpl; by rewrite ?app_nil_r.
    + destruct (threads s1 !! w1) as [pc|] eqn:Hw1; [|discriminate].
      destruct (worker_step_results _ _ _ _ _ _ _ HI1 Hw1 Hstep)
        as (Hmono & pc' & Hths & Hnew & Hev).
      split; [lia|]. split.
      * intros hd v Hw2. rewrite Hths in Hw2.
        destruct (decide (w1 = w)) as [->|Hne].
        -- rewrite list_lookup_insert_eq in Hw2 by (by eapply lookup_lt_Some).
           injection Hw2 as ->. destruct (Hnew _ _ eq_refl) as (-> & _ & _).
           simpl. lia.
        -- rewrite list_lookup_insert_ne in Hw2 by done. by eapply Hpend.
      * exists (add_event ev tr2). split.
        -- unfold add_event. destruct ev; [by rewrite app_assoc|reflexivity].
        -- rewrite results_add. apply Forall_app. split; [exact Hres|].
           destruct ev as [[?|? ?|w0 v0 p0|?|? ? ?|?| |?]|]; try constructor; [|constructor].
           destruct (Hev _ _ _ eq_refl) as [-> ->]. simpl. intros ->.
           by eapply Hpend.
  - split; [lia|]. split.
    + intros hd v Hw2. by specialize (Hw _ Hw2).
    + exists []. split; [by rewrite app_nil_r|constructor].
Qed.

Lemma positions_add w ev tr :
  positions w (add_event ev tr) =
  positions w tr ++ match ev with
                    | Some (Dequeued w' _ p) => if decide (w' = w) then [addr p] else []
                    | _ => []
                    end.
Proof.
  unfold positions, add_event. destruct ev as [e|]; simpl; [|by rewrite app_nil_r].
  rewrite omap_app. destruct e; try reflexivity. simpl. by case_decide.
Qed.

Lemma increasing_snoc (l : list nat) x :
  increasing l -> Forall (fun a => (a < x)%nat) l -> increasing (l ++ [x]).
Proof.
  intros Hl Hx i j a b Hij Hi Hj.
  apply lookup_app_Some in Hj as [Hj|[Hge Hj]].
  - apply lookup_lt_Some in Hj as Hjl.
    rewrite lookup_app_l in Hi by lia. exact (Hl i j a b Hij Hi Hj).
  - apply list_lookup_singleton_Some in Hj as [Hj0 <-].
    rewrite lookup_app_l in Hi by lia.
    exact (proj1 (Forall_lookup _ _) Hx i a Hi).
Qed.

(** The nodes handed back to one worker come in the order of the chain. *)
Lemma positions_sorted sysconf junk input w sched :
  increasing (positions w (fst (exec sched (init sysconf junk input) []))).
Proof.
  refine (proj1 (exec_invariant
            (fun tr s =>
               increasing (positions w tr) /\
               Forall (fun a => (a < hidx s)%nat) (positions w tr) /\
               forall hd v, threads s !! w = Some (WDequeue (DDecSize hd v)) ->
                 (addr hd < hidx s)%nat /\
                 Forall (fun a => (a < addr hd)%nat) (positions w tr))
            input _ sched [] (init sysconf junk input) (Inv_init sysconf junk input) _)).
  - intros tr s t ev s' HI (Hsort & Hlt & Hpend) Hstep. unfold step in Hstep.
    destruct (terminated s); [discriminate|]. rewrite positions_add. destruct t as [|w1].
    + destruct (main_step_frame _ _ _ Hstep) as (Hhd & Hths & Hev).
      assert (Hnone : match ev with
                      | Some (Dequeued w' _ p) => if decide (w' = w) then [addr p] else []
                      | _ => []
                      end = []) by (by destruct ev as [[]|]).
      rewrite Hnone, app_nil_r. unfold hidx in *. rewrite Hhd.
      split; [exact Hsort|]. split; [exact Hlt|].
      intros hd v Hw. destruct Hths as [Hths|Hths]; rewrite Hths in Hw.
      * by eapply Hpend.
      * apply lookup_app_Some in Hw as [Hw|[_ Hw]]; [by eapply Hpend|].
        apply list_lookup_singleton_Some in Hw as [_ Hw]. discriminate.
    + destruct (threads s !! w1) as [pc|] eqn:Hw1; [|discriminate].
      destruct (worker_step_results _ _ _ _ _ _ _ HI Hw1 Hstep)
        as (Hmono & pc' & Hths & Hnew & Hev).
      set (E := match ev with
                | Some (Dequeued w' _ p) => if decide (w' = w) then [addr p] else []
                | _ => []
                end).
      assert (HE : E = [] \/
                exists p v, E = [addr p] /\ w1 = w /\ pc = WDequeue (DDecSize p v)).
      { unfold E. destruct ev as [[?|? ?|w0 v0 p0|?|? ? ?|?| |?]|]; try by left.
        destruct (Hev _ _ _ eq_refl) as [-> ->].
        case_decide; [right; by eexists _, _|by left]. }
      assert (Hold : Forall (fun a => (a < hidx s)%nat) (positions w tr ++ E)).
      { apply Forall_app. split; [exact Hlt|].
        destruct HE as [->|(p & v & -> & -> & ->)]; [constructor|].
        destruct (Hpend _ _ Hw1) as [Hp _]. by repeat constructor. }
      split; [|split].
      * destruct HE as [->|(p & v & -> & -> & ->)]; [by rewrite app_nil_r|].
        apply increasing_snoc; [exact Hsort|]. by destruct (Hpend _ _ Hw1).
      * eapply Forall_impl; [exact Hold|]. simpl. intros a Ha. lia.
      * intros hd v Hw. rewrite Hths in Hw.
        destruct (decide (w1 = w)) as [->|Hne].
        -- rewrite list_lookup_insert_eq in Hw by (by eapply lookup_lt_Some).
           injection Hw as ->. destruct (Hnew _ _ eq_refl) as (-> & -> & _). simpl.
           split; [lia|exact Hold].
        -- rewrite list_lookup_insert_ne in Hw by done.
           destruct (Hpend _ _ Hw) as [Hp Hall]. split; [lia|].
           destruct HE as [->|(p & v0 & _ & Hw' & _)]; [by rewrite app_nil_r|done].
  - simpl. split; [by intros [|?] ? ? ? ? ?|]. split; [constructor|].
    intros hd v Hw. discriminate.
Qed.

(** The nodes handed back so far are in front of [head]. *)
Lemma results_before_head input tr s w v p :
  Inv input tr s ->
  dequeued_nodes tr ++ (threads s ≫= pending_node) ≡ₚ Heap <$> seq 0 (hidx s) ->
  (w, v, p) ∈ results tr -> (addr p < hidx s)%nat.
Proof.
  intros HI Hperm Hin.
  assert (Hp : p ∈ Heap <$> seq 0 (hidx s)).
  { rewrite <- Hperm, results_nodes. apply elem_of_app. left.
    apply list_elem_of_fmap. by exists (w, v, p). }
  apply list_elem_of_fmap in Hp as (a & -> & Ha). apply elem_of_seq in Ha. simpl. lia.
Qed.

Lemma results_values tr : dequeued tr = (fun x => x.1.2) <$> results tr.
Proof.
  unfold dequeued, results. induction tr as [|e tr IH]; [reflexivity|].
  destruct e; simpl; try exact IH. f_equal. exact IH.
Qed.

Lemma positions_results w tr :
  positions w tr
  = omap (fun x => if decide (x.1.1 = w) then Some (addr x.2) else None) (results tr).
Proof.
  unfold positions, results. induction tr as [|e tr IH]; [reflexivity|].
  destruct e; simpl; try exact IH. case_decide; simpl; [f_equal|]; exact IH.
Qed.

Lemma omap_lookup {A B : Type} (f : A -> option B) (l : list A) j y b :
  l !! j = Some y -> f y = Some b -> exists k, omap f l !! k = Some b.
Proof.
  revert j. induction l as [|x l IH]; intros [|j] Hj Hy; simplify_eq/=.
  - rewrite Hy. by exists O.
  - destruct (IH j Hj Hy) as [k Hk]. destruct (f x); [by exists (S k)|by exists k].
Qed.

Lemma omap_order {A B : Type} (f : A -> option B) (l : list A) i j x y a b :
  (i < j)%nat -> l !! i = Some x -> l !! j = Some y -> f x = Some a -> f y = Some b ->
  exists i' j', (i' < j')%nat /\ omap f l !! i' = Some a /\ omap f l !! j' = Some b.
Proof.
  revert i j. induction l as [|z l IH]; intros i j Hij Hi Hj Hx Hy; [discriminate|].
  destruct j as [|j]; [lia|]. destruct i as [|i]; simpl in *.
  - injection Hi as ->. rewrite Hx. destruct (omap_lookup f l j y b Hj Hy) as [k Hk].
    exists O, (S k). split; [lia|]. by split.
  - destruct (IH i j ltac:(lia) Hi Hj Hx Hy) as (i' & j' & Hlt & Ha & Hb).
    destruct (f z); [exists (S i'), (S j')|exists i', j']; (split; [lia|by split]).
Qed.

End Conservation.

(** C2, as amended: the values enqueued are the input values in their
    order; the dequeues take them out of the queue in that same order, each
    once (the unlinked values are a prefix of the linked ones, the rest is
    what the queue still holds), so no value is returned while an earlier
    one is still in the queue; every value a dequeue returns is one it
    unlinked, namely the input value whose rank is the number of the node
    handed back with it; when the program has run to its end every input
    value has been returned exactly once.  Calls made one after the other
    return the values in enqueue order: the calls of one worker hand back
    nodes of increasing rank, and a call that has not unlinked a node yet
    when another one has returned hands back a node of higher rank than that
    one.  Calls made on a queue that nothing else touches return what a FIFO
    list returns.  This holds for any number of workers and any
    interleaving. *)
Theorem fifo_conservation sysconf junk input sched :
  let tr := fst (exec sched (init sysconf junk input) []) in
  let s := snd (exec sched (init sysconf junk input) []) in
  linked tr `prefix_of` input /\
  unlinked tr `prefix_of` linked tr /\
  linked tr = unlinked tr ++ unconsumed (qm s) /\
  dequeued tr ⊆+ unlinked tr /\
  (main s = MReturn -> unlinked tr = input /\ dequeued tr ≡ₚ input) /\
  dequeued tr = (fun x => x.1.2) <$> results tr /\
  Forall (fun x => exists a, x.2 = Heap a /\ input !! a = Some x.1.2) (results tr) /\
  (forall w i j v1 p1 v2 p2, (i < j)%nat ->
     results tr !! i = Some (w, v1, p1) -> results tr !! j = Some (w, v2, p2) ->
     (addr p1 < addr p2)%nat) /\
  (forall sched' tr2 w,
     fst (exec (sched ++ sched') (init sysconf junk input) []) = tr ++ tr2 ->
     (forall pc, threads s !! w = Some pc -> pending_deq pc = []) ->
     forall v p w0 v0 p0,
       (w, v, p) ∈ results tr2 -> (w0, v0, p0) ∈ results tr ->
       (addr p0 < addr p)%nat) /\
  (forall ops, Z.of_nat (enq_count ops) <= INT_MAX ->
   exists rs m, run_ops ops (createQueue junk) = Some (rs, m) /\
     map as_option rs = fst (fifo_spec ops [])).
Proof.
  intros tr s. pose proof (Inv_exec sysconf junk input sched) as HI.
  fold tr s in HI. destruct (trace_views _ _ _ HI) as (Hlk & Hul & Hq).
  split; [|split; [|split; [|split; [|split; [intros Hret; split|]]]]].
  - rewrite Hlk, (inv_input _ _ _ HI).
    etrans; [apply prefix_take|]. by eexists.
  - rewrite Hul. apply prefix_take.
  - assumption.
  - rewrite <- (inv_dequeued _ _ _ HI). by apply submseteq_inserts_r.
  - assert (Hm : match main s with MReport | MCleanup | MReturn => True | _ => False end)
      by (rewrite Hret; exact I).
    destruct (Inv_final _ _ _ HI Hm) as (_ & Hh & Hin & _).
    rewrite (inv_unlinked _ _ _ HI), Hin. apply take_ge.
    rewrite length_drop. unfold vals. rewrite length_map. lia.
  - assert (Hm : match main s with MReport | MCleanup | MReturn => True | _ => False end)
      by (rewrite Hret; exact I).
    destruct (Inv_final _ _ _ HI Hm) as (Hths & Hh & Hin & _).
    pose proof (inv_dequeued _ _ _ HI) as Hd. rewrite Hths in Hd.
    rewrite pending_deq_exited, app_nil_r in Hd. rewrite Hd.
    rewrite (inv_unlinked _ _ _ HI), Hin. rewrite take_ge; [reflexivity|].
    rewrite length_drop. unfold vals. rewrite length_map. lia.
  - split; [apply results_values|]. split; [apply results_input|].
    split; [|split].
    + intros w i j v1 p1 v2 p2 Hij Hi Hj.
      destruct (omap_order
                  (fun x : nat * Z * ptr =>
                     if decide (x.1.1 = w) then Some (addr x.2) else None)
                  (results tr) i j _ _ (addr p1) (addr p2) Hij Hi Hj)
        as (i' & j' & Hlt & Hi' & Hj'); try (simpl; by rewrite decide_True).
      rewrite <- positions_results in Hi', Hj'.
      exact (positions_sorted sysconf junk input w sched i' j' _ _ Hlt Hi' Hj').
    + intros sched' tr2 w Htr Hw v p w0 v0 p0 Hp Hp0.
      rewrite exec_app in Htr. fold tr s in Htr.
      destruct (results_later input w sched' tr s HI Hw) as (tr2' & Htr' & Hall).
      rewrite Htr in Htr'. apply app_inv_head in Htr' as <-.
      pose proof (handed_nodes input sched [] (init sysconf junk input)
                    (Inv_init sysconf junk input) ltac:(reflexivity)) as HP.
      fold tr s in HP.
      pose proof (results_before_head _ _ _ _ _ _ HI HP Hp0) as Hlt.
      pose proof (proj1 (Forall_forall _ _) Hall _ Hp eq_refl) as Hge.
      simpl in Hge. lia.
    + intros ops Hb.
      destruct (run_ops_refines ops (createQueue junk) [] (wfq_createQueue junk) Hb)
        as (rs & m & Hrun & Hrs & _).
      by exists rs, m.
Qed.

(** C2 on an execution that runs to its end with four workers. *)
Lemma fifo_conservation_witness :
  let tr := fst (exec (round_robin 4 200) (init 4 0 [3; 1; 4; 1; 5]) []) in
  let s := snd (exec (round_robin 4 200) (init 4 0 [3; 1; 4; 1; 5]) []) in
  main s = MReturn /\ unlinked tr = [3; 1; 4; 1; 5] /\ dequeued tr ≡ₚ [3; 1; 4; 1; 5].
Proof.
  intros tr s.
  assert (Hm : main s = MReturn) by (vm_compute; reflexivity).
  split; [exact Hm|].
  exact (proj1 (proj2 (proj2 (proj2 (proj2
           (fifo_conservation 4 0 [3; 1; 4; 1; 5] (round_robin 4 200)))))) Hm).
Defined.

(** C2, as stated, fails with two workers: on the input 3, 4 worker 0
    unlinks the node of 3 and is not scheduled again before worker 1 has
    unlinked the node of 4 and returned from dequeue; 3, enqueued first, is
    returned after 4. *)
Lemma returned_out_of_order :
  let sched := replicate 30 Main ++ replicate 8 (Worker 0) ++
               replicate 9 (Worker 1) ++ [Worker 0] in
  let tr := fst (exec sched (init 2 0 [3; 4]) []) in
  linked tr = [3; 4] /\ unlinked tr = [3; 4] /\ dequeued tr = [4; 3].
Proof. vm_compute. repeat split. Qed.

(** * The buffered version: properties *)

Module BufferedFacts.

Import Buffered.

(** ** Sums and slices *)

Lemma zsum_app l1 l2 : zsum (l1 ++ l2) = zsum l1 + zsum l2.
Proof. unfold zsum. induction l1 as [|x l1 IH]; simpl; lia. Qed.

Lemma zsum_insert {A : Type} (f : A -> Z) (l : list A) (i : nat) (x y : A) :
  l !! i = Some x -> zsum (f <$> <[i := y]> l) = zsum (f <$> l) - f x + f y.
Proof.
  unfold zsum. revert i. induction l as [|z l IH]; intros [|i] Hl; simplify_eq/=; [lia|].
  specialize (IH i Hl). lia.
Qed.

Lemma zsum_ext {A : Type} (f g : A -> Z) (l : list A) :
  Forall (fun x => f x = g x) l -> zsum (f <$> l) = zsum (g <$> l).
Proof.
  unfold zsum. induction l as [|x l IH]; intros H; [reflexivity|].
  apply Forall_cons in H as [Hx H]. specialize (IH H). simpl in *. rewrite Hx. f_equal. exact IH.
Qed.

Lemma zsum_le {A : Type} (f g : A -> Z) (l : list A) :
  (forall x, f x <= g x) -> zsum (f <$> l) <= zsum (g <$> l).
Proof.
  intros H. unfold zsum. induction l as [|x l IH]; simpl in *; [lia|].
  specialize (H x). apply Z.add_le_mono; [exact H|exact IH].
Qed.

Lemma holders_exclusive (l : list (ThreadData * tpc)) i k x y :
  l !! i = Some x -> l !! k = Some y -> i <> k ->
  (holder x + holder y <= sum_list_with holder l)%nat.
Proof.
  revert i k. induction l as [|z l IH]; intros [|i] [|k] Hi Hk Hne; simplify_eq/=.
  - pose proof (sum_list_with_lookup holder l k y Hk). lia.
  - pose proof (sum_list_with_lookup holder l i x Hi). lia.
  - assert (i <> k) by congruence. specialize (IH i k Hi Hk). lia.
Qed.

Lemma holder_exists (l : list (ThreadData * tpc)) :
  (0 < sum_list_with holder l)%nat -> exists i x, l !! i = Some x /\ holder x = 1%nat.
Proof.
  induction l as [|z l IH]; simpl; [lia|]. intros H.
  destruct (decide (holder z = 1%nat)) as [Hz|Hz].
  - exists 0%nat, z. by split.
  - assert (holder z = 0%nat) by (revert Hz; unfold holder; destruct (z.2); simpl; lia).
    destruct IH as (i & x & Hi & Hx); [lia|]. exists (S i), x. by split.
Qed.

Lemma slice_nil buf a : slice buf a a = [].
Proof. unfold slice. by rewrite Z.sub_diag. Qed.

Lemma slice_snoc buf a j v :
  0 <= a <= j -> buf !! Z.to_nat j = Some v ->
  slice buf a (j + 1) = slice buf a j ++ [v].
Proof.
  intros Ha Hv. unfold slice.
  replace (Z.to_nat (j + 1 - a)) with (S (Z.to_nat (j - a))) by lia.
  apply take_S_r. rewrite lookup_drop.
  by replace (Z.to_nat a + Z.to_nat (j - a))%nat with (Z.to_nat j) by lia.
Qed.

Lemma slice_app buf a b c :
  0 <= a <= b -> b <= c -> slice buf a b ++ slice buf b c = slice buf a c.
Proof.
  intros Ha Hb. unfold slice.
  replace (Z.to_nat b) with (Z.to_nat a + Z.to_nat (b - a))%nat by lia.
  rewrite <- drop_drop, take_take_drop. f_equal. lia.
Qed.

Lemma slice_zero buf b : slice buf 0 b = take (Z.to_nat b) buf.
Proof. unfold slice. by rewrite Z.sub_0_r. Qed.

Lemma slice_length buf a b : Z.of_nat (length (slice buf a b)) <= Z.max 0 (b - a).
Proof. unfold slice. rewrite length_take. lia. Qed.

Lemma slice_insert_ge buf a b n v :
  0 <= a -> b <= Z.of_nat n -> slice (<[n := v]> buf) a b = slice buf a b.
Proof.
  intros Ha Hb. unfold slice. destruct (decide (a <= b)) as [Hab|Hab].
  - rewrite !take_drop_commute. rewrite take_insert_ge by lia. reflexivity.
  - by replace (Z.to_nat (b - a)) with 0%nat by lia.
Qed.

(** ** The parts of the buffer *)

Lemma quot4_bounds idx : 0 <= idx -> 4 * Z.quot idx 4 <= idx < 4 * Z.quot idx 4 + 4.
Proof.
  intros H. pose proof (Z.quot_rem' idx 4). pose proof (Z.rem_bound_pos idx 4). lia.
Qed.

Lemma thread_data_bound (final : bool) chunk_size idx i :
  (if final then 0 < idx < BUFFER_SIZE /\ chunk_size = Z.quot idx 4
   else idx = BUFFER_SIZE /\ chunk_size = 256) ->
  (i < MAX_THREADS)%nat ->
  thread_data final chunk_size idx i
  = mkThreadData (bound chunk_size idx i) (bound chunk_size idx (S i)) /\
  0 <= bound chunk_size idx i <= bound chunk_size idx (S i) /\
  bound chunk_size idx (S i) <= idx.
Proof.
  unfold MAX_THREADS, BUFFER_SIZE. intros Hb Hi.
  assert (Hc : 0 <= 4 * chunk_size <= idx /\ idx <= 1024).
  { destruct final; [|lia]. destruct Hb as [? ->]. pose proof (quot4_bounds idx). lia. }
  assert (Hw : forall z, 0 <= z <= 1024 -> wrap z = z).
  { intros z Hz. apply wrap_id. unfold in_int, INT_MIN, INT_MAX. lia. }
  assert (Hidx : final = false -> idx = 4 * chunk_size) by (intros ->; lia).
  unfold thread_data, bound, MAX_THREADS.
  destruct i as [|[|[|[|i]]]]; [| | | |lia];
    (split; [f_equal; destruct final; simpl; rewrite ?Hw by lia; lia|simpl; lia]).
Qed.

(** ** The invariant holds in every execution *)

Lemma small_wrap z : 0 <= z <= INT_MAX -> wrap z = z.
Proof. intros Hz. apply wrap_id. unfold in_int, INT_MIN, INT_MAX in *. lia. Qed.

Lemma BInv_init junk input : BInv input [] (binit junk input).
Proof.
  constructor; unfold binit, counted, cur;
    cbn [buffer index prime_count mutex stdin threads main pending].
  - by rewrite length_fmap, length_seq.
  - unfold BUFFER_SIZE. lia.
  - exists []. split; [reflexivity|]. by rewrite count_primes_nil.
  - split; [reflexivity|]. split; [constructor|reflexivity].
  - reflexivity.
Qed.

Lemma all_done_holders s : all_done s -> sum_list_with holder (threads s) = 0%nat.
Proof.
  intros [Hd _]. apply sum_list_with_zero. eapply Forall_impl; [exact Hd|].
  intros [d pc] Hx. simpl in Hx. subst pc. reflexivity.
Qed.

Ltac took_step H := try discriminate H; injection H as <- <-.

Ltac keep_P :=
  match goal with
  | Hin : _ = ?P ++ _ |- _ =>
      exists P; split;
      [rewrite Hin; simpl; rewrite ?app_nil_r; reflexivity|simpl in *; lia]
  end.

Ltac inv_goal :=
  constructor; unfold counted, cur, all_done, add_output; simpl;
  rewrite ?app_nil_r; try done.

Lemma BInv_main_step input tr s ev s' :
  BInv input tr s -> bmain_step s = Some (ev, s') -> BInv input (add_output ev tr) s'.
Proof.
  intros [Hbuf Hidx (P & Hin & Hpc) Hmain Hrep] Hstep. unfold bmain_step in Hstep.
  unfold counted, cur, all_done in *.
  destruct (main s) as [|num| |final chunk_size i|final i| | | | |fin|fin] eqn:Hm;
    simpl in Hrep.
  - (* scanf *)
    destruct Hmain as [Hlt Hdone].
    destruct (stdin s) as [|num rest] eqn:Hs; took_step Hstep; inv_goal.
    + keep_P.
    + keep_P.
  - (* buffer[index++] = num *)
    destruct Hmain as [Hlt Hdone].
    destruct ((0 <=? index s) && (index s <? BUFFER_SIZE)) eqn:Hc; [|discriminate].
    took_step Hstep. apply andb_true_iff in Hc as [Hc1 Hc2].
    apply Z.leb_le in Hc1. apply Z.ltb_lt in Hc2. unfold BUFFER_SIZE in *.
    assert (Hw : wrap (index s + 1) = index s + 1) by (apply small_wrap; unfold INT_MAX; lia).
    inv_goal; unfold BUFFER_SIZE; rewrite ?Hw.
    + by rewrite length_insert.
    + lia.
    + exists P. split; [|lia]. rewrite Hin. simpl. f_equal.
      replace (Z.to_nat (index s + 1)) with (S (Z.to_nat (index s))) by lia.
      rewrite (take_S_r _ _ num) by (apply list_lookup_insert_eq; lia).
      rewrite take_insert_ge by lia. by rewrite <- !app_assoc.
  - (* index == BUFFER_SIZE *)
    destruct Hmain as [Hdone Hmx].
    destruct (index s =? BUFFER_SIZE) eqn:Hc; took_step Hstep; inv_goal.
    + keep_P.
    + apply Z.eqb_eq in Hc. unfold in_batch. simpl. rewrite Hmx.
      repeat split; try done; try (unfold MAX_THREADS; lia).
    + keep_P.
    + apply Z.eqb_neq in Hc. split; [lia|]. by split.
  - (* pthread_create *)
    destruct Hmain as ((Hb & Hall & Hh) & Hlen & Hi & Hsum).
    destruct (i <? MAX_THREADS)%nat eqn:Hc;
      [apply Nat.ltb_lt in Hc|pose proof Hc as Hge; apply Nat.ltb_ge in Hge];
      took_step Hstep; inv_goal.
    + exists P. split; [exact Hin|].
      rewrite fmap_app, zsum_app. unfold added at 2, zsum at 2. simpl. lia.
    + destruct (thread_data_bound final chunk_size (index s) i)
        as (Hd & Hb1 & Hb2); [by destruct final; tauto|lia|].
      assert (Hst : wrap (Z.of_nat i * chunk_size) = bound chunk_size (index s) i).
      { unfold thread_data in Hd. by injection Hd. }
      rewrite Hd, Hst. simpl. unfold in_batch. simpl. repeat split; try done.
      * apply Forall_app. split; [exact Hall|]. constructor; [|constructor].
        unfold tinv. simpl. repeat split; try lia. by rewrite slice_nil, count_primes_nil.
      * by rewrite sum_list_with_app, Hh; simpl; lia.
      * rewrite length_app. simpl. lia.
      * rewrite fmap_app, zsum_app, Hsum. unfold chunk_count, zsum. simpl.
        rewrite <- (slice_app (buffer s) 0 (bound chunk_size (index s) i)
                              (bound chunk_size (index s) (S i))) by lia.
        rewrite count_primes_app. lia.
    + keep_P.
    + repeat split; try done.
      * by exists chunk_size.
      * unfold MAX_THREADS in *. lia.
      * lia.
      * rewrite Hsum. unfold bound, cur. rewrite Hc. by rewrite slice_zero.
      * intros j Hj. lia.
  - (* pthread_join *)
    destruct Hmain as ((chunk_size & Hb & Hall & Hh) & Hlen & Hi & Hsum & Hjoined).
    destruct (i <? MAX_THREADS)%nat eqn:Hc;
      [apply Nat.ltb_lt in Hc|apply Nat.ltb_ge in Hc].
    + destruct (threads s !! i) as [[d [| | | | |]]|] eqn:Hth; took_step Hstep.
      inv_goal.
      * keep_P.
      * repeat split; try done.
        -- by exists chunk_size.
        -- intros j Hj. destruct (decide (j = i)) as [->|Hne]; [by exists d|].
           apply Hjoined. lia.
    + assert (Hd : Forall (fun x => x.2 = TDone) (threads s)).
      { apply Forall_lookup. intros k x Hk.
        destruct (Hjoined k) as [d Hkd].
        - apply lookup_lt_Some in Hk. unfold MAX_THREADS in *. lia.
        - rewrite Hk in Hkd. by injection Hkd as ->. }
      assert (Hmx : mutex s = false).
      { assert (sum_list_with holder (threads s) = 0%nat).
        { apply sum_list_with_zero. eapply Forall_impl; [exact Hd|].
          intros [d pc] Hx. simpl in Hx. by subst pc. }
        destruct (mutex s); [lia|reflexivity]. }
      assert (Hc' : prime_count s = count_primes P + count_primes (cur s)).
      { unfold cur. rewrite Hpc, <- Hsum. f_equal. apply zsum_ext. eapply Forall_impl; [exact Hd|].
        intros [d pc] Hx. simpl in Hx. by subst pc. }
      took_step Hstep. inv_goal.
      * exists P. unfold cur in Hc'. by destruct final.
      * destruct final; simpl; [by repeat split; try tauto|]. by repeat split; try tauto.
      * by destruct final.
  - (* index = 0 *)
    destruct Hmain as [Hfull Hdone]. took_step Hstep.
    inv_goal.
    exists (P ++ take (Z.to_nat (index s)) (buffer s)). split.
    + rewrite Hin. simpl. by rewrite <- !app_assoc.
    + rewrite count_primes_app. lia.
  - (* index > 0 *)
    destruct Hmain as (Hlt & Hdone & Hs).
    destruct (0 <? index s) eqn:Hc;
      [apply Z.ltb_lt in Hc|apply Z.ltb_ge in Hc]; took_step Hstep; inv_goal.
    + keep_P.
    + destruct Hdone as [_ Hmx]. unfold in_batch. simpl. rewrite Hmx.
      repeat split; try lia; try done.
    + exists P. split; [by rewrite Hin|].
      replace (Z.to_nat (index s)) with 0%nat by lia.
      change (take 0 (buffer s)) with (@nil Z). rewrite count_primes_nil. lia.
  - (* printf *)
    destruct Hmain as [Hdone Hs]. took_step Hstep.
    inv_goal.
    + keep_P.
    + by rewrite Hrep.
  - discriminate.
  - (* printMemoryUsage *)
    took_step Hstep. destruct fin; inv_goal; try keep_P; by rewrite Hrep.
  - (* printCPUUsage *)
    took_step Hstep. destruct fin; inv_goal; try keep_P; by rewrite Hrep.
Qed.

Lemma chunk_count_bounds buf x :
  0 <= chunk_count buf x <= Z.max 0 (stop x.1 - start x.1).
Proof.
  unfold chunk_count.
  pose proof (count_primes_bounds (slice buf (start x.1) (stop x.1))).
  pose proof (slice_length buf (start x.1) (stop x.1)). lia.
Qed.

Lemma added_bounds buf x : 0 <= added buf x <= chunk_count buf x.
Proof.
  pose proof (chunk_count_bounds buf x). unfold added. destruct (x.2); lia.
Qed.

Lemma zsum_added_nonneg buf l : 0 <= zsum (added buf <$> l).
Proof.
  unfold zsum. induction l as [|x l IH]; simpl in *; [lia|].
  apply Z.add_nonneg_nonneg; [apply added_bounds|exact IH].
Qed.

Lemma all_done_stuck s i :
  Forall (fun x => x.2 = TDone) (threads s) -> thread_step i s = None.
Proof.
  intros Hd. unfold thread_step. destruct (threads s !! i) as [[d pc]|] eqn:Hi; [|reflexivity].
  rewrite Forall_lookup in Hd. specialize (Hd i _ Hi). simpl in Hd. by subst pc.
Qed.

Lemma fst_insert (l : list (ThreadData * tpc)) i d pc pc' :
  l !! i = Some (d, pc) -> (<[i := (d, pc')]> l).*1 = l.*1.
Proof.
  intros Hi. rewrite list_fmap_insert. simpl. apply list_insert_id.
  by rewrite list_lookup_fmap, Hi.
Qed.

Lemma chunk_count_fst buf (l1 l2 : list (ThreadData * tpc)) :
  l1.*1 = l2.*1 -> chunk_count buf <$> l1 = chunk_count buf <$> l2.
Proof.
  revert l2. induction l1 as [|[d1 p1] l1 IH]; intros [|[d2 p2] l2] H;
    try discriminate; [reflexivity|].
  rewrite !fmap_cons in *. injection H as Hd Hl. simpl in Hd. subst d2.
  f_equal. by apply IH.
Qed.

(** What a step of a thread changes, in a state where threads run. *)
Lemma holder_pair d pc :
  holder (d, pc) = match pc with TRead _ | TWrite _ | TUnlock => 1%nat | _ => 0%nat end.
Proof. reflexivity. Qed.

Lemma added_pair buf d pc :
  added buf (d, pc)
  = match pc with
    | TUnlock | TDone => count_primes (slice buf (start d) (stop d))
    | _ => 0
    end.
Proof. reflexivity. Qed.

Lemma chunk_count_pair buf d pc :
  chunk_count buf (d, pc) = count_primes (slice buf (start d) (stop d)).
Proof. reflexivity. Qed.

Ltac holders_tac H :=
  let Hins := fresh "Hins" in
  pose proof H as Hins; rewrite !holder_pair in Hins;
  repeat match goal with
         | Hh : sum_list_with holder _ = (if ?m then _ else _) |- _ =>
             rewrite Hh in Hins; clear Hh
         end;
  simpl;
  repeat match goal with
         | |- context [if ?m then _ else _] => destruct m
         | _ : context [if ?m then _ else _] |- _ => destruct m
         end;
  simpl in *; lia.

Lemma trank_pair d pc :
  trank (d, pc)
  = match pc with
    | TLoop j _ => (Z.to_nat (stop d - j) + 5)%nat
    | TLock _ => 4%nat
    | TRead _ => 3%nat
    | TWrite _ => 2%nat
    | TUnlock => 1%nat
    | TDone => 0%nat
    end.
Proof. reflexivity. Qed.

Ltac ranks_tac Hrk :=
  repeat match goal with
         | Hw : wrap ?a = _ |- context [wrap ?a] => rewrite Hw
         end;
  match goal with
  | |- (sum_list_with trank (<[_ := ?y]> _) < _)%nat =>
      let H := fresh "H" in
      pose proof (Hrk y) as H; rewrite !trank_pair in H; lia
  end.

Lemma batch_thread_step (final : bool) chunk_size B s i ev s' :
  length (buffer s) = Z.to_nat BUFFER_SIZE ->
  in_batch final chunk_size s ->
  prime_count s = B + zsum (added (buffer s) <$> threads s) ->
  0 <= B -> B + zsum (chunk_count (buffer s) <$> threads s) <= INT_MAX ->
  thread_step i s = Some (ev, s') ->
  ev = None /\ buffer s' = buffer s /\ index s' = index s /\ stdin s' = stdin s /\
  main s' = main s /\ (threads s').*1 = (threads s).*1 /\
  in_batch final chunk_size s' /\
  prime_count s' = B + zsum (added (buffer s') <$> threads s') /\
  (forall j d, threads s !! j = Some (d, TDone) -> threads s' !! j = Some (d, TDone)) /\
  (sum_list_with trank (threads s') < sum_list_with trank (threads s))%nat.
Proof.
  intros Hbuf (Hb & Hall & Hh) Hpc HB Hmax Hstep. unfold thread_step in Hstep.
  assert (Hidx : 0 <= index s <= 1024)
    by (unfold BUFFER_SIZE in *; destruct final; lia).
  destruct (threads s !! i) as [[d pc]|] eqn:Hi; [|discriminate].
  pose proof (proj1 (Forall_lookup _ _) Hall i _ Hi) as (Hd1 & Hd2 & Hpcinv).
  simpl in Hd1, Hd2, Hpcinv.
  pose proof (sum_list_with_insert holder (threads s) i (d, pc)) as Hins.
  pose proof (fun y => sum_list_with_insert trank (threads s) i (d, pc) y Hi) as Hrk.
  pose proof (fun y => zsum_insert (added (buffer s)) (threads s) i (d, pc) y Hi) as Hadd.
  assert (Hkeep : forall pc', pc <> TDone -> forall j d0,
             threads s !! j = Some (d0, TDone) ->
             <[i := (d, pc')]> (threads s) !! j = Some (d0, TDone)).
  { intros pc' Hne j d0 Hj. destruct (decide (i = j)) as [->|Hij].
    - rewrite Hi in Hj. congruence.
    - by rewrite list_lookup_insert_ne. }
  destruct pc as [j c|c|c|v| |].
  - (* the loop *)
    destruct Hpcinv as [Hj Hc].
    destruct (j <? stop d) eqn:Hlt; [apply Z.ltb_lt in Hlt|apply Z.ltb_ge in Hlt].
    + destruct (0 <=? j) eqn:H0; [|discriminate].
      destruct (buffer s !! Z.to_nat j) as [v|] eqn:Hv; [|discriminate].
      took_step Hstep. unfold set_tpc, in_batch. simpl.
      assert (Hw : wrap (j + 1) = j + 1) by (apply small_wrap; unfold INT_MAX; lia).
      assert (Hcb : 0 <= c <= 1024).
      { pose proof (count_primes_bounds (slice (buffer s) (start d) j)).
        pose proof (slice_length (buffer s) (start d) j). lia. }
      assert (Hwc : wrap (c + 1) = c + 1) by (apply small_wrap; unfold INT_MAX; lia).
      repeat split; try done.
      * by apply (fst_insert _ _ _ _ _ Hi).
      * apply Forall_insert; [exact Hall|]. unfold tinv. simpl. rewrite Hw, Hwc.
        repeat split; try lia.
        rewrite (slice_snoc _ _ _ v) by (try lia; exact Hv).
        rewrite count_primes_app, count_primes_single. destruct (isPrime v); lia.
      * holders_tac (Hins (d, TLoop (wrap (j + 1)) (if isPrime v then wrap (c + 1) else c)) Hi).
      * rewrite Hadd, !added_pair. lia.
      * by apply Hkeep.
      * ranks_tac Hrk.
    + took_step Hstep. unfold set_tpc, in_batch. simpl.
      repeat split; try done.
      * by apply (fst_insert _ _ _ _ _ Hi).
      * apply Forall_insert; [exact Hall|]. unfold tinv. simpl. rewrite chunk_count_pair.
        repeat split; try lia. replace (stop d) with j by lia. exact Hc.
      * holders_tac (Hins (d, TLock c) Hi).
      * rewrite Hadd, !added_pair. lia.
      * by apply Hkeep.
      * ranks_tac Hrk.
  - (* pthread_mutex_lock *)
    destruct (mutex s) eqn:Hmx; [discriminate|]. took_step Hstep.
    unfold in_batch. simpl. repeat split; try done.
    + by apply (fst_insert _ _ _ _ _ Hi).
    + by apply Forall_insert.
    + holders_tac (Hins (d, TRead c) Hi).
    + rewrite Hadd, !added_pair. lia.
    + by apply Hkeep.
    + ranks_tac Hrk.
  - (* the read of prime_count *)
    took_step Hstep. unfold set_tpc, in_batch. simpl.
    assert (Hw : wrap (prime_count s + c) = prime_count s + c).
    { apply small_wrap. rewrite chunk_count_pair in Hpcinv.
      pose proof (zsum_added_nonneg (buffer s) (threads s)).
      pose proof (chunk_count_bounds (buffer s) (d, TDone)).
      pose proof (zsum_le (added (buffer s)) (chunk_count (buffer s))
                    (<[i := (d, TDone)]> (threads s))
                    (fun x => proj2 (added_bounds (buffer s) x))) as Hle.
      rewrite (Hadd (d, TDone)) in Hle.
      rewrite (chunk_count_fst _ _ (threads s) (fst_insert _ _ _ _ _ Hi)) in Hle.
      rewrite !added_pair in Hle. rewrite chunk_count_pair in *. lia. }
    repeat split; try done.
    + by apply (fst_insert _ _ _ _ _ Hi).
    + apply Forall_insert; [exact Hall|]. unfold tinv. simpl.
      rewrite Hw, !chunk_count_pair in *. repeat split; lia.
    + holders_tac (Hins (d, TWrite (wrap (prime_count s + c))) Hi).
    + rewrite Hadd, !added_pair. lia.
    + by apply Hkeep.
    + ranks_tac Hrk.
  - (* the write of prime_count *)
    took_step Hstep. unfold in_batch. simpl. repeat split; try done.
    + by apply (fst_insert _ _ _ _ _ Hi).
    + apply Forall_lookup. intros k [dk pck] Hk.
      destruct (decide (i = k)) as [->|Hik].
      * rewrite list_lookup_insert_eq in Hk by (by eapply lookup_lt_Some).
        injection Hk as <- <-. unfold tinv. simpl. lia.
      * rewrite list_lookup_insert_ne in Hk by done.
        pose proof (proj1 (Forall_lookup _ _) Hall k _ Hk) as (Hk1 & Hk2 & Hk3).
        pose proof (holders_exclusive _ _ _ _ _ Hi Hk Hik) as Hex.
        unfold tinv. simpl in *. split; [lia|]. split; [lia|].
        destruct pck; try done.
        rewrite !holder_pair, Hh in Hex. destruct (mutex s); lia.
    + holders_tac (Hins (d, TUnlock) Hi).
    + rewrite Hadd, !added_pair. rewrite chunk_count_pair in Hpcinv. lia.
    + by apply Hkeep.
    + ranks_tac Hrk.
  - (* pthread_mutex_unlock *)
    took_step Hstep. unfold in_batch. simpl. repeat split; try done.
    + by apply (fst_insert _ _ _ _ _ Hi).
    + by apply Forall_insert.
    + holders_tac (Hins (d, TDone) Hi).
    + rewrite Hadd, !added_pair. lia.
    + intros j d0 Hj. destruct (decide (i = j)) as [->|Hij].
      * rewrite Hi in Hj. injection Hj as <-.
        apply list_lookup_insert_eq. by eapply lookup_lt_Some.
      * by rewrite list_lookup_insert_ne.
    + ranks_tac Hrk.
  - discriminate.
Qed.

Lemma bound_le (final : bool) chunk_size idx i :
  (if final then 0 < idx < BUFFER_SIZE /\ chunk_size = Z.quot idx 4
   else idx = BUFFER_SIZE /\ chunk_size = 256) ->
  (i <= MAX_THREADS)%nat -> 0 <= bound chunk_size idx i <= idx.
Proof.
  intros Hb Hi. destruct (decide (i < MAX_THREADS)%nat) as [Hlt|Hge].
  - destruct (thread_data_bound final chunk_size idx i Hb Hlt) as (_ & H1 & H2). lia.
  - unfold bound. replace (i <? MAX_THREADS)%nat with false by (symmetry; apply Nat.ltb_ge; lia).
    unfold BUFFER_SIZE in Hb. destruct final; lia.
Qed.

Lemma count_le_input input P buf idx b rest :
  input = P ++ take (Z.to_nat idx) buf ++ rest -> 0 <= b <= idx ->
  0 <= count_primes P /\
  count_primes P + count_primes (slice buf 0 b) <= Z.of_nat (length input).
Proof.
  intros -> Hb. rewrite slice_zero, !length_app, !length_take.
  pose proof (count_primes_bounds P).
  pose proof (count_primes_bounds (take (Z.to_nat b) buf)) as Hc.
  rewrite length_take in Hc. lia.
Qed.

Lemma BInv_thread_step input tr s i ev s' :
  Z.of_nat (length input) <= INT_MAX ->
  BInv input tr s -> thread_step i s = Some (ev, s') ->
  ev = None /\ BInv input tr s' /\ (weight s' < weight s)%nat.
Proof.
  intros Hlen [Hbuf Hidx (P & Hin & Hpc) Hmain Hrep] Hstep.
  unfold counted, cur in *.
  assert (Hstuck : all_done s -> False).
  { intros [Hd _]. by rewrite (all_done_stuck s i Hd) in Hstep. }
  destruct (main s) as [|num| |final chunk_size k|final k| | | | |[|]|[|]] eqn:Hm;
    try tauto.
  - destruct Hmain as (Hb & Hl & Hk & Hsum).
    assert (Hbd : 0 <= bound chunk_size (index s) k <= index s).
    { apply (bound_le final); [|exact Hk]. destruct Hb as [Hb _]. destruct final; tauto. }
    destruct (count_le_input _ _ _ _ _ _ Hin Hbd) as [HP Hle].
    destruct (batch_thread_step final chunk_size (count_primes P) s i ev s' Hbuf Hb Hpc HP)
      as (Hev & Hb' & Hi' & Hs' & Hm' & Hf' & Hbatch' & Hpc' & Hdone' & Hrk');
      [lia|exact Hstep|].
    split; [exact Hev|]. split; [|unfold weight; rewrite Hm', Hs'; lia].
    constructor; unfold counted, cur; rewrite ?Hb', ?Hi', ?Hs', ?Hm', ?Hm; try done.
    + exists P. split; [exact Hin|]. by rewrite Hpc', Hb'.
    + split; [exact Hbatch'|]. split; [|split; [exact Hk|]].
      * by rewrite <- (length_fmap fst), Hf', length_fmap.
      * by rewrite (chunk_count_fst _ _ _ Hf').
  - destruct Hmain as ((chunk_size & Hb) & Hl & Hk & Hsum & Hjoined).
    destruct (count_le_input _ _ _ (index s) (index s) _ Hin) as [HP Hle]; [lia|].
    rewrite slice_zero, <- Hsum in Hle.
    destruct (batch_thread_step final chunk_size (count_primes P) s i ev s' Hbuf Hb Hpc HP)
      as (Hev & Hb' & Hi' & Hs' & Hm' & Hf' & Hbatch' & Hpc' & Hdone' & Hrk');
      [lia|exact Hstep|].
    split; [exact Hev|]. split; [|unfold weight; rewrite Hm', Hs'; lia].
    constructor; unfold counted, cur; rewrite ?Hb', ?Hi', ?Hs', ?Hm', ?Hm; try done.
    + exists P. split; [exact Hin|]. by rewrite Hpc', Hb'.
    + split; [by exists chunk_size|]. split; [|split; [exact Hk|split]].
      * by rewrite <- (length_fmap fst), Hf', length_fmap.
      * by rewrite (chunk_count_fst _ _ _ Hf').
      * intros j Hj. destruct (Hjoined j Hj) as [d Hd]. exists d. by apply Hdone'.
Qed.

Lemma BInv_step input tr s t ev s' :
  Z.of_nat (length input) <= INT_MAX ->
  BInv input tr s -> bstep t s = Some (ev, s') -> BInv input (add_output ev tr) s'.
Proof.
  intros Hlen HI Hstep. destruct t as [|i]; simpl in Hstep.
  - by eapply BInv_main_step.
  - destruct (BInv_thread_step _ _ _ _ _ _ Hlen HI Hstep) as (-> & HI' & _). exact HI'.
Qed.

(** ** Progress *)

Ltac wsimpl :=
  cbn [buffer index prime_count mutex stdin threads main brank length sum_list_with].

Lemma bmain_step_weight input tr s ev s' :
  BInv input tr s -> bmain_step s = Some (ev, s') -> (weight s' < weight s)%nat.
Proof.
  intros [Hbuf Hidx _ Hmain _] Hstep. unfold bmain_step in Hstep. unfold weight.
  destruct (main s) as [|num| |final chunk_size i|final i| | | | |fin|fin] eqn:Hm.
  - destruct (stdin s) as [|num rest]; took_step Hstep; wsimpl; lia.
  - destruct ((0 <=? index s) && (index s <? BUFFER_SIZE)); took_step Hstep; wsimpl; lia.
  - destruct (index s =? BUFFER_SIZE); took_step Hstep; wsimpl; lia.
  - destruct Hmain as ((Hb & _) & _ & Hi & _).
    destruct (i <? MAX_THREADS)%nat eqn:Hc;
      [apply Nat.ltb_lt in Hc|apply Nat.ltb_ge in Hc]; took_step Hstep; wsimpl.
    + destruct (thread_data_bound final chunk_size (index s) i) as (Hd & Hb1 & Hb2);
        [by destruct final; tauto|exact Hc|].
      rewrite sum_list_with_app, Hd. cbn [sum_list_with]. rewrite trank_pair. cbn [stop].
      unfold thread_data in Hd. injection Hd as -> _.
      unfold MAX_THREADS, BUFFER_SIZE in *. destruct final; wsimpl; lia.
    + unfold MAX_THREADS in *. destruct final; wsimpl; lia.
  - destruct Hmain as (_ & _ & Hi & _).
    destruct (i <? MAX_THREADS)%nat eqn:Hc;
      [apply Nat.ltb_lt in Hc|apply Nat.ltb_ge in Hc].
    + destruct (threads s !! i) as [[d [| | | | |]]|]; took_step Hstep.
      unfold MAX_THREADS in *. destruct final; wsimpl; lia.
    + took_step Hstep. unfold MAX_THREADS in *. destruct final; wsimpl; lia.
  - took_step Hstep. wsimpl. lia.
  - destruct (0 <? index s); took_step Hstep; wsimpl; lia.
  - took_step Hstep. wsimpl. lia.
  - discriminate.
  - took_step Hstep. destruct fin; wsimpl; lia.
  - took_step Hstep. destruct fin; wsimpl; lia.
Qed.

Lemma bstep_weight input tr s t ev s' :
  Z.of_nat (length input) <= INT_MAX ->
  BInv input tr s -> bstep t s = Some (ev, s') -> (weight s' < weight s)%nat.
Proof.
  intros Hlen HI Hstep. destruct t as [|i]; simpl in Hstep.
  - by eapply bmain_step_weight.
  - by destruct (BInv_thread_step _ _ _ _ _ _ Hlen HI Hstep) as (_ & _ & Hw).
Qed.

Lemma bexec_weight input sched : forall tr s n,
  Z.of_nat (length input) <= INT_MAX -> BInv input tr s ->
  ((bexec sched s tr n).2 + weight (bexec sched s tr n).1.2 <= n + weight s)%nat.
Proof.
  induction sched as [|t sched IH]; intros tr s n Hlen HI; simpl; [lia|].
  destruct (bstep t s) as [[ev s']|] eqn:Hstep; [|by apply IH].
  pose proof (bstep_weight _ _ _ _ _ _ Hlen HI Hstep).
  pose proof (IH (add_output ev tr) s' (S n) Hlen (BInv_step _ _ _ _ _ _ Hlen HI Hstep)). lia.
Qed.

Lemma BInv_in_bounds input tr s : BInv input tr s -> in_bounds s.
Proof.
  intros [Hbuf Hidx _ Hmain _]. unfold in_bounds. split; [|split].
  - intros num Hm. rewrite Hm in Hmain. lia.
  - intros i d j c Hi Hlt.
    assert (Hb : all_done s \/ Forall (tinv (buffer s) (index s) (prime_count s)) (threads s)).
    { destruct (main s) as [| | | | | | | | |[|]|[|]]; unfold in_batch in *; try tauto.
      destruct Hmain as ((? & ?) & _). tauto. }
    destruct Hb as [[Hd _]|Hall].
    + pose proof (proj1 (Forall_lookup _ _) Hd i _ Hi) as H. discriminate H.
    + pose proof (proj1 (Forall_lookup _ _) Hall i _ Hi) as (H1 & H2 & H3 & _).
      simpl in *. lia.
  - rewrite Hbuf. unfold BUFFER_SIZE in *. lia.
Qed.

(** A step that cannot be taken is a wait, never an access outside the
    buffer. *)
Lemma no_buffer_fault input tr s :
  BInv input tr s ->
  (bmain_step s = None -> main s = BReturn \/ joining s = true) /\
  (forall i, thread_step i s = None -> returned i s = true \/ waiting i s = true).
Proof.
  intros HI. destruct (BInv_in_bounds _ _ _ HI) as (Hst & Hrd & Hlen). split.
  - unfold bmain_step, joining. intros Hstep.
    destruct (main s) as [|num| |final chunk_size i|final i| | | | |fin|fin] eqn:Hm.
    + by destruct (stdin s).
    + specialize (Hst num eq_refl).
      replace ((0 <=? index s) && (index s <? BUFFER_SIZE)) with true in Hstep; [done|].
      symmetry. apply andb_true_iff. split; [apply Z.leb_le|apply Z.ltb_lt]; lia.
    + by destruct (index s =? BUFFER_SIZE).
    + by destruct (i <? MAX_THREADS)%nat.
    + right. destruct (i <? MAX_THREADS)%nat; [|done].
      by destruct (threads s !! i) as [[d [| | | | |]]|].
    + done.
    + by destruct (0 <? index s).
    + done.
    + by left.
    + done.
    + done.
  - intros i. unfold thread_step, returned, waiting.
    destruct (threads s !! i) as [[d [j c|c|c|v| |]]|] eqn:Hi; intros Hstep;
      try (by left); try discriminate.
    + exfalso. destruct (j <? stop d) eqn:Hlt; [|discriminate].
      apply Z.ltb_lt in Hlt. specialize (Hrd i d j c Hi Hlt).
      replace (0 <=? j) with true in Hstep by (symmetry; apply Z.leb_le; lia).
      destruct (lookup_lt_is_Some_2 (buffer s) (Z.to_nat j)) as [v Hv]; [lia|].
      by rewrite Hv in Hstep.
    + right. by destruct (mutex s).
Qed.

Lemma BInv_exec input sched : forall tr s n,
  Z.of_nat (length input) <= INT_MAX -> BInv input tr s ->
  BInv input (bexec sched s tr n).1.1 (bexec sched s tr n).1.2.
Proof.
  induction sched as [|t sched IH]; intros tr s n Hlen HI; simpl; [exact HI|].
  destruct (bstep t s) as [[ev s']|] eqn:Hstep; [|by apply IH].
  apply IH; [exact Hlen|]. by eapply BInv_step.
Qed.

Lemma BInv_holders input tr s :
  BInv input tr s -> sum_list_with holder (threads s) = (if mutex s then 1 else 0)%nat.
Proof.
  intros [_ _ _ Hmain _].
  assert (Hb : all_done s \/
               sum_list_with holder (threads s) = (if mutex s then 1 else 0)%nat).
  { destruct (main s) as [| | | | | | | | |[|]|[|]]; unfold in_batch in *; try tauto.
    destruct Hmain as ((? & ?) & _). tauto. }
  destruct Hb as [Hd|Hh]; [|exact Hh].
  rewrite (all_done_holders s Hd). destruct Hd as [_ ->]. reflexivity.
Qed.

Lemma holder_step s i x :
  threads s !! i = Some x -> holder x = 1%nat -> thread_step i s <> None.
Proof.
  intros Hi Hx. unfold thread_step. rewrite Hi. destruct x as [d [j c|c|c|v| |]]; done.
Qed.

(** No deadlock: while [main] has not returned, some thread can move. *)
Lemma some_thread_moves input tr s :
  BInv input tr s -> main s <> BReturn -> exists t, bstep t s <> None.
Proof.
  intros HI Hm. destruct (no_buffer_fault _ _ _ HI) as [Hmain Hthread].
  destruct (bmain_step s) as [r|] eqn:Hms; [exists Main; simpl; by rewrite Hms|].
  destruct (Hmain eq_refl) as [?|Hj]; [done|].
  unfold joining in Hj. destruct (main s) as [| | | |final i| | | | | |] eqn:Hmi; try discriminate.
  apply andb_true_iff in Hj as [Hi Hnd].
  destruct (thread_step i s) as [r|] eqn:Hts; [exists (Worker i); simpl; by rewrite Hts|].
  destruct (Hthread i Hts) as [Hr|Hw].
  - unfold returned in Hr. destruct HI as [_ _ _ HI _]. rewrite Hmi in HI.
    destruct HI as (_ & Hlen & _). apply Nat.ltb_lt in Hi.
    destruct (lookup_lt_is_Some_2 (threads s) i) as [[d pc] Hx]; [lia|].
    rewrite Hx in Hr, Hnd. by destruct pc.
  - unfold waiting in Hw. pose proof (BInv_holders _ _ _ HI) as Hh.
    destruct (threads s !! i) as [[d [| | | | |]]|]; try discriminate.
    rewrite Hw in Hh. destruct (holder_exists (threads s)) as (k & x & Hk & Hx); [lia|].
    exists (Worker k). simpl. by eapply holder_step.
Qed.

Lemma bexec_app l1 l2 s tr n :
  bexec (l1 ++ l2) s tr n
  = bexec l2 (bexec l1 s tr n).1.2 (bexec l1 s tr n).1.1 (bexec l1 s tr n).2.
Proof.
  revert s tr n. induction l1 as [|t l1 IH]; intros s tr n; simpl; [reflexivity|].
  destruct (bstep t s) as [[ev s']|]; apply IH.
Qed.

Lemma returned_or_not s : main s = BReturn \/ main s <> BReturn.
Proof. destruct (main s); (by left) || (by right). Qed.

(** Every state of an execution can be continued until [main] returns. *)
Lemma can_return input :
  Z.of_nat (length input) <= INT_MAX ->
  forall w tr s n, (weight s <= w)%nat -> BInv input tr s ->
    exists sched, main (bexec sched s tr n).1.2 = BReturn.
Proof.
  intros Hlen w. induction w as [|w IH]; intros tr s n Hw HI.
  - destruct (returned_or_not s) as [Hm|Hm]; [by exists []|].
    destruct (some_thread_moves _ _ _ HI Hm) as [t Ht].
    destruct (bstep t s) as [[ev s']|] eqn:Hstep; [|done].
    pose proof (bstep_weight _ _ _ _ _ _ Hlen HI Hstep). lia.
  - destruct (returned_or_not s) as [Hm|Hm]; [by exists []|].
    destruct (some_thread_moves _ _ _ HI Hm) as [t Ht].
    destruct (bstep t s) as [[ev s']|] eqn:Hstep; [|done].
    pose proof (bstep_weight _ _ _ _ _ _ Hlen HI Hstep).
    destruct (IH (add_output ev tr) s' (S n)) as [sched Hs];
      [lia|by eapply BInv_step|].
    exists (t :: sched). simpl. by rewrite Hstep.
Qed.

(** The four parts are consecutive and cover the values in the buffer. *)
Lemma parts_cover (final : bool) chunk_size idx buf :
  (if final then 0 < idx < BUFFER_SIZE /\ chunk_size = Z.quot idx 4
   else idx = BUFFER_SIZE /\ chunk_size = 256) ->
  seq 0 MAX_THREADS ≫=
    (fun i => let d := thread_data final chunk_size idx i in slice buf (start d) (stop d))
  = take (Z.to_nat idx) buf.
Proof.
  intros Hb. unfold MAX_THREADS. cbn [seq mbind list_bind app]. cbv zeta.
  destruct (thread_data_bound final chunk_size idx 0 Hb) as (-> & H0 & _); [unfold MAX_THREADS; lia|].
  destruct (thread_data_bound final chunk_size idx 1 Hb) as (-> & H1 & _); [unfold MAX_THREADS; lia|].
  destruct (thread_data_bound final chunk_size idx 2 Hb) as (-> & H2 & _); [unfold MAX_THREADS; lia|].
  destruct (thread_data_bound final chunk_size idx 3 Hb) as (-> & H3 & _); [unfold MAX_THREADS; lia|].
  cbn [start stop]. rewrite app_nil_r.
  rewrite !slice_app by lia.
  change (bound chunk_size idx 0) with (0 * chunk_size).
  change (bound chunk_size idx 4) with idx. by rewrite Z.mul_0_l, slice_zero.
Qed.

(** What has been printed, at every program point of [main]. *)
Lemma printed_total input tr s :
  BInv input tr s -> tr = printed (main s) (count_primes input).
Proof.
  intros [_ _ (P & Hin & Hpc) Hmain Hrep]. rewrite Hrep.
  assert (Hc : all_done s /\ stdin s = [] -> pending (main s) = [] ->
               counted s = count_primes (cur s) ->
               prime_count s = count_primes input).
  { intros [_ Hs] Hp Hcnt. rewrite Hpc, Hcnt, Hin, Hs, Hp.
    rewrite !count_primes_app, count_primes_nil. lia. }
  unfold counted in Hc.
  destruct (main s) as [|num| |final chunk_size i|final i| | | | |[]|[]]; try reflexivity;
    simpl; by rewrite Hc.
Qed.

Lemma returned_report input tr s :
  BInv input tr s -> main s = BReturn -> totals tr = [count_primes input].
Proof.
  intros HI Hm. rewrite (printed_total _ _ _ HI), Hm. reflexivity.
Qed.

End BufferedFacts.

(** * The buffered version: what every execution satisfies *)

(** X19: what the buffered program prints, under every schedule: a line on
    memory usage and one on CPU usage, then, once the input has been read
    and every thread of every batch joined, one line with the total, which
    is the number of inputs that [isPrime] accepts, then again a line on
    memory usage and one on CPU usage; what has been printed depends only on
    how far main has come.  Every execution can be continued until main
    returns. *)
Theorem buffered_total (junk : nat -> Z) (input : list Z) (sched : list tid) :
  Z.of_nat (length input) <= INT_MAX ->
  Buffered.run_trace junk input sched
  = Buffered.printed (Buffered.main (Buffered.run_state junk input sched))
                     (count_primes input) /\
  (Buffered.main (Buffered.run_state junk input sched) = Buffered.BReturn ->
   Buffered.run_trace junk input sched
   = [Buffered.MemoryUsage; Buffered.CPUUsage; Buffered.Total (count_primes input);
      Buffered.MemoryUsage; Buffered.CPUUsage]) /\
  (Buffered.totals (Buffered.run_trace junk input sched) = [] \/
   Buffered.totals (Buffered.run_trace junk input sched) = [count_primes input]) /\
  exists more,
    Buffered.main (Buffered.run_state junk input (sched ++ more)) = Buffered.BReturn.
Proof.
  intros Hlen. unfold Buffered.run_state, Buffered.run_trace.
  pose proof (BufferedFacts.BInv_exec input sched [] (Buffered.binit junk input) 0 Hlen
                (BufferedFacts.BInv_init junk input)) as HI.
  remember (Buffered.bexec sched (Buffered.binit junk input) [] 0) as r eqn:Hr.
  pose proof (BufferedFacts.printed_total _ _ _ HI) as Hp.
  split; [exact Hp|]. split; [|split].
  - intros Hm. by rewrite Hp, Hm.
  - rewrite Hp. destruct (Buffered.main r.1.2) as [| | | | | | | | |[|]|[|]];
      simpl; auto.
  - destruct (BufferedFacts.can_return input Hlen _ _ _ r.2 (Nat.le_refl _) HI)
      as [more Hmore].
    exists more. by rewrite BufferedFacts.bexec_app, <- Hr.
Qed.

Lemma buffered_total_witness :
  Z.of_nat (length [2; 3; 4; 5; 6; 7; 8; 9; 10; 11; 13]) <= INT_MAX /\
  Buffered.run_trace (fun _ => 0) [2; 3; 4; 5; 6; 7; 8; 9; 10; 11; 13] (round_robin 4 60)
  = [Buffered.MemoryUsage; Buffered.CPUUsage;
     Buffered.Total (count_primes [2; 3; 4; 5; 6; 7; 8; 9; 10; 11; 13]);
     Buffered.MemoryUsage; Buffered.CPUUsage].
Proof.
  assert (Hlen : Z.of_nat (length [2; 3; 4; 5; 6; 7; 8; 9; 10; 11; 13]) <= INT_MAX)
    by (vm_compute; discriminate).
  split; [exact Hlen|].
  apply (proj1 (proj2 (buffered_total (fun _ => 0) [2; 3; 4; 5; 6; 7; 8; 9; 10; 11; 13]
                         (round_robin 4 60) Hlen))).
  vm_compute. reflexivity.
Defined.

(** X20: no schedule makes the buffered program take more than
    4200 * (40 * n + 13) steps on n inputs: a thread that is scheduled and
    can move brings the program closer to its end. *)
Theorem buffered_step_bound (junk : nat -> Z) (input : list Z) (sched : list tid) :
  Z.of_nat (length input) <= INT_MAX ->
  (Buffered.run_steps junk input sched <= 4200 * (40 * length input + 13))%nat.
Proof.
  intros Hlen. unfold Buffered.run_steps.
  pose proof (BufferedFacts.bexec_weight input sched [] (Buffered.binit junk input) 0 Hlen
                (BufferedFacts.BInv_init junk input)) as H.
  unfold Buffered.weight at 2 in H.
  cbn [Buffered.binit Buffered.stdin Buffered.main Buffered.threads Buffered.brank
       sum_list_with] in H.
  lia.
Qed.

Lemma buffered_step_bound_witness :
  Z.of_nat (length [5; 7]) <= INT_MAX /\
  (Buffered.run_steps (fun _ => 0%Z) [5%Z; 7%Z] (round_robin 4 1000)
   <= 4200 * (40 * length [5%Z; 7%Z] + 13))%nat.
Proof.
  assert (Hlen : Z.of_nat (length [5; 7]) <= INT_MAX) by (vm_compute; discriminate).
  split; [exact Hlen|].
  exact (buffered_step_bound (fun _ => 0) [5; 7] (round_robin 4 1000) Hlen).
Defined.

(** X21: the buffered program cannot deadlock: in every state of every
    execution in which [main] has not returned, [main] or one of the threads
    can take a step. *)
Theorem buffered_no_deadlock (junk : nat -> Z) (input : list Z) (sched : list tid) :
  Z.of_nat (length input) <= INT_MAX ->
  Buffered.main (Buffered.run_state junk input sched) <> Buffered.BReturn ->
  exists t, Buffered.bstep t (Buffered.run_state junk input sched) <> None.
Proof.
  intros Hlen Hm. unfold Buffered.run_state in *.
  exact (BufferedFacts.some_thread_moves input _ _
           (BufferedFacts.BInv_exec input sched [] (Buffered.binit junk input) 0 Hlen
              (BufferedFacts.BInv_init junk input)) Hm).
Qed.

Lemma buffered_no_deadlock_witness :
  Z.of_nat (length [5; 7]) <= INT_MAX /\
  Buffered.bmain_step (Buffered.run_state (fun _ => 0) [5; 7] (replicate 20 Main)) = None /\
  exists t, Buffered.bstep t (Buffered.run_state (fun _ => 0) [5; 7] (replicate 20 Main))
            <> None.
Proof.
  assert (Hlen : Z.of_nat (length [5; 7]) <= INT_MAX) by (vm_compute; discriminate).
  split; [exact Hlen|]. split; [vm_compute; reflexivity|].
  apply (buffered_no_deadlock (fun _ => 0) [5; 7] (replicate 20 Main) Hlen).
  vm_compute. discriminate.
Defined.

(** X22: the mutex works: in every state of every execution at most one
    thread is between [pthread_mutex_lock] and [pthread_mutex_unlock], and
    one is there exactly when the mutex is locked. *)
Theorem buffered_mutex (junk : nat -> Z) (input : list Z) (sched : list tid) :
  Z.of_nat (length input) <= INT_MAX ->
  sum_list_with Buffered.holder (Buffered.threads (Buffered.run_state junk input sched))
  = (if Buffered.mutex (Buffered.run_state junk input sched) then 1 else 0)%nat /\
  forall i k x y,
    Buffered.threads (Buffered.run_state junk input sched) !! i = Some x ->
    Buffered.threads (Buffered.run_state junk input sched) !! k = Some y ->
    i <> k -> Buffered.holder x = 1%nat -> Buffered.holder y = 0%nat.
Proof.
  intros Hlen. unfold Buffered.run_state.
  pose proof (BufferedFacts.BInv_holders input _ _
                (BufferedFacts.BInv_exec input sched [] (Buffered.binit junk input) 0 Hlen
                   (BufferedFacts.BInv_init junk input))) as Hh.
  split; [exact Hh|]. intros i k x y Hi Hk Hik Hx.
  pose proof (BufferedFacts.holders_exclusive _ _ _ _ _ Hi Hk Hik) as Hex.
  rewrite Hh in Hex. destruct (Buffered.mutex _); lia.
Qed.

Lemma buffered_mutex_witness :
  Z.of_nat (length [2; 3; 4; 5; 6; 7; 8; 9]) <= INT_MAX /\
  Buffered.mutex (Buffered.run_state (fun _ => 0) [2; 3; 4; 5; 6; 7; 8; 9]
                    (round_robin 4 36)) = true /\
  sum_list_with Buffered.holder
    (Buffered.threads (Buffered.run_state (fun _ => 0) [2; 3; 4; 5; 6; 7; 8; 9]
                         (round_robin 4 36))) = 1%nat.
Proof.
  assert (Hlen : Z.of_nat (length [2; 3; 4; 5; 6; 7; 8; 9]) <= INT_MAX)
    by (vm_compute; discriminate).
  assert (Hmx : Buffered.mutex (Buffered.run_state (fun _ => 0) [2; 3; 4; 5; 6; 7; 8; 9]
                                  (round_robin 4 36)) = true) by (vm_compute; reflexivity).
  split; [exact Hlen|]. split; [exact Hmx|].
  pose proof (proj1 (buffered_mutex (fun _ => 0) [2; 3; 4; 5; 6; 7; 8; 9]
                       (round_robin 4 36) Hlen)) as H.
  rewrite Hmx in H. exact H.
Defined.

(** X23: the buffered program stays inside its buffer: [main] stores only at
    indices 0..1023, a thread reads only indices below [index], the first
    [index] values of the buffer are consecutive values of the input, and a
    step that cannot be taken is a wait ([pthread_join], the mutex) or a
    thread that has returned. *)
Theorem buffered_in_bounds (junk : nat -> Z) (input : list Z) (sched : list tid) :
  Z.of_nat (length input) <= INT_MAX ->
  Buffered.in_bounds (Buffered.run_state junk input sched) /\
  (exists before after,
     input = before ++ Buffered.cur (Buffered.run_state junk input sched) ++ after) /\
  (Buffered.bmain_step (Buffered.run_state junk input sched) = None ->
   Buffered.main (Buffered.run_state junk input sched) = Buffered.BReturn \/
   Buffered.joining (Buffered.run_state junk input sched) = true) /\
  (forall i, Buffered.thread_step i (Buffered.run_state junk input sched) = None ->
             Buffered.returned i (Buffered.run_state junk input sched) = true \/
             Buffered.waiting i (Buffered.run_state junk input sched) = true).
Proof.
  intros Hlen. unfold Buffered.run_state.
  pose proof (BufferedFacts.BInv_exec input sched [] (Buffered.binit junk input) 0 Hlen
                (BufferedFacts.BInv_init junk input)) as HI.
  split; [exact (BufferedFacts.BInv_in_bounds _ _ _ HI)|].
  split; [|exact (BufferedFacts.no_buffer_fault _ _ _ HI)].
  destruct HI as [_ _ (P & Hin & _) _ _]. by eexists P, _.
Qed.

Lemma buffered_in_bounds_witness :
  Z.of_nat (length [2; 3; 4; 5; 6; 7; 8; 9]) <= INT_MAX /\
  Buffered.in_bounds (Buffered.run_state (fun _ => 0) [2; 3; 4; 5; 6; 7; 8; 9]
                        (round_robin 4 30)).
Proof.
  assert (Hlen : Z.of_nat (length [2; 3; 4; 5; 6; 7; 8; 9]) <= INT_MAX)
    by (vm_compute; discriminate).
  split; [exact Hlen|].
  exact (proj1 (buffered_in_bounds (fun _ => 0) [2; 3; 4; 5; 6; 7; 8; 9]
                  (round_robin 4 30) Hlen)).
Defined.

(** X24: the parts that [main] gives to the four threads are consecutive,
    lie inside the stored values and cover them: for a full buffer four parts
    of 256, for the rest of the input three parts of index / 4 and a last one
    that ends at [index]. *)
Theorem parts_partition (final : bool) (chunk_size idx : Z) (buf : list Z) :
  (if final then 0 < idx < Buffered.BUFFER_SIZE /\ chunk_size = Z.quot idx 4
   else idx = Buffered.BUFFER_SIZE /\ chunk_size = 256) ->
  seq 0 Buffered.MAX_THREADS ≫=
    (fun i => Buffered.slice buf
                (Buffered.start (Buffered.thread_data final chunk_size idx i))
                (Buffered.stop (Buffered.thread_data final chunk_size idx i)))
  = take (Z.to_nat idx) buf /\
  Buffered.start (Buffered.thread_data final chunk_size idx 0) = 0 /\
  Buffered.stop (Buffered.thread_data final chunk_size idx 3) = idx /\
  forall i, (i < 3)%nat ->
    Buffered.stop (Buffered.thread_data final chunk_size idx i)
    = Buffered.start (Buffered.thread_data final chunk_size idx (S i)) /\
    Buffered.start (Buffered.thread_data final chunk_size idx i)
    <= Buffered.stop (Buffered.thread_data final chunk_size idx i).
Proof.
  intros Hb. split; [exact (BufferedFacts.parts_cover final chunk_size idx buf Hb)|].
  assert (H4 : forall i, (i < 4)%nat ->
             Buffered.thread_data final chunk_size idx i
             = Buffered.mkThreadData (Buffered.bound chunk_size idx i)
                                     (Buffered.bound chunk_size idx (S i)) /\
             Buffered.bound chunk_size idx i <= Buffered.bound chunk_size idx (S i)).
  { intros i Hi. destruct (BufferedFacts.thread_data_bound final chunk_size idx i Hb Hi)
      as (Hd & Hle & _). split; [exact Hd|lia]. }
  split; [|split].
  - rewrite (proj1 (H4 0%nat ltac:(lia))). reflexivity.
  - rewrite (proj1 (H4 3%nat ltac:(lia))). reflexivity.
  - intros i Hi. rewrite (proj1 (H4 i ltac:(lia))), (proj1 (H4 (S i) ltac:(lia))).
    split; [reflexivity|]. exact (proj2 (H4 i ltac:(lia))).
Qed.

Lemma parts_partition_witness :
  (0 < 3 < Buffered.BUFFER_SIZE /\ 0 = Z.quot 3 4) /\
  map (fun i => Buffered.thread_data true 0 3 i) (seq 0 4)
  = [Buffered.mkThreadData 0 0; Buffered.mkThreadData 0 0; Buffered.mkThreadData 0 0;
     Buffered.mkThreadData 0 3] /\
  seq 0 Buffered.MAX_THREADS ≫=
    (fun i => Buffered.slice [5; 7; 11; 1; 1]
                (Buffered.start (Buffered.thread_data true 0 3 i))
                (Buffered.stop (Buffered.thread_data true 0 3 i)))
  = take (Z.to_nat 3) [5; 7; 11; 1; 1].
Proof.
  assert (Hb : 0 < 3 < Buffered.BUFFER_SIZE /\ 0 = Z.quot 3 4)
    by (split; [unfold Buffered.BUFFER_SIZE; lia|reflexivity]).
  split; [exact Hb|]. split; [reflexivity|].
  exact (proj1 (parts_partition true 0 3 [5; 7; 11; 1; 1] Hb)).
Defined.

(** X25: the two versions of the program agree: a complete run of the queue
    version and a complete run of the buffered version on the same input
    print the same total, whatever the schedules, the number of workers and
    the initial content of the memory. *)
Theorem versions_agree sysconf junk junk' input sched sched' :
  main (snd (exec sched (init sysconf junk input) [])) = MReturn ->
  Buffered.main (Buffered.run_state junk' input sched') = Buffered.BReturn ->
  reports (fst (exec sched (init sysconf junk input) []))
  = Buffered.totals (Buffered.run_trace junk' input sched').
Proof.
  intros Hm Hm'.
  pose proof (Inv_exec sysconf junk input sched) as HI.
  assert (Hrep : reports (fst (exec sched (init sysconf junk input) []))
                 = [count_primes input]).
  { rewrite (inv_reports _ _ _ HI), Hm. f_equal.
    apply (Inv_final _ _ _ HI). rewrite Hm. exact I. }
  assert (Hlen : Z.of_nat (length input) <= INT_MAX).
  { assert (Z.of_nat (length input) <= MEMORY_POOL_SIZE).
    { apply (reported_within_capacity _ _ _ HI). rewrite Hrep. discriminate. }
    unfold MEMORY_POOL_SIZE, INT_MAX in *. lia. }
  rewrite Hrep. symmetry. unfold Buffered.run_trace, Buffered.run_state in *.
  exact (BufferedFacts.returned_report _ _ _
           (BufferedFacts.BInv_exec input sched' [] (Buffered.binit junk' input) 0 Hlen
              (BufferedFacts.BInv_init junk' input)) Hm').
Qed.

Lemma versions_agree_witness :
  main (snd (exec (round_robin 4 200) (init 4 0 [3; 1; 4; 1; 5]) [])) = MReturn /\
  Buffered.main (Buffered.run_state (fun _ => 0) [3; 1; 4; 1; 5] (round_robin 4 60))
  = Buffered.BReturn /\
  reports (fst (exec (round_robin 4 200) (init 4 0 [3; 1; 4; 1; 5]) []))
  = Buffered.totals (Buffered.run_trace (fun _ => 0) [3; 1; 4; 1; 5] (round_robin 4 60)).
Proof.
  assert (H1 : main (snd (exec (round_robin 4 200) (init 4 0 [3; 1; 4; 1; 5]) [])) = MReturn)
    by (vm_compute; reflexivity).
  assert (H2 : Buffered.main (Buffered.run_state (fun _ => 0) [3; 1; 4; 1; 5]
                                (round_robin 4 60)) = Buffered.BReturn)
    by (vm_compute; reflexivity).
  split; [exact H1|]. split; [exact H2|].
  exact (versions_agree 4 0 (fun _ => 0) [3; 1; 4; 1; 5] (round_robin 4 200)
           (round_robin 4 60) H1 H2).
Defined.

(** * The order of the loads in [dequeue] *)

(** X26: the test of line 113 keeps [dequeue] from dereferencing NULL at
    line 118 only as long as [queue->tail] is loaded before [head->next].
    With the loads in the order of the source, in every execution of the
    program a worker that is at line 118 holds a [next] that is not NULL and
    points to an allocated node.  With the two loads exchanged, an
    [enqueue] that links its node and moves [tail] between them brings
    [dequeue] to line 118 with [next] NULL, where it cannot go on. *)
Theorem dequeue_load_order :
  (forall sysconf junk input sched w hd nx,
     threads (snd (exec sched (init sysconf junk input) [])) !! w
     = Some (WDequeue (DReadValue hd nx)) ->
     exists n nd,
       nx = Some n /\
       node_at (qm (snd (exec sched (init sysconf junk input) []))) n = Some nd) /\
  (let r := race_exec
              [Worker 0; Worker 0; Main; Main; Main; Main; Main; Main; Worker 0; Worker 0]
              (mkRace (createQueue 0) (Some (EMalloc 7)) (inl RReadHead)) in
   deq r = inl (RRest (DReadValue (Heap 0) None)) /\
   head (queue (rmem r)) = Heap 0 /\ tail (queue (rmem r)) = Heap 1 /\
   race_step (Worker 0) r = None).
Proof.
  split.
  - intros sysconf junk input sched w hd nx Hw.
    pose proof (Inv_exec sysconf junk input sched) as HI.
    pose proof (Forall_lookup_1 _ _ _ _ (inv_threads _ _ _ HI) Hw) as Hd.
    simpl in Hd. destruct Hd as (a & -> & -> & Ha & Hat).
    pose proof (inv_order _ _ _ HI) as Hord.
    assert (Hlen : (a + 1 < length (heap (qm (snd (exec sched (init sysconf junk input) [])))))%nat)
      by (unfold nlinked in Hord; lia).
    destruct (lookup_lt_is_Some_2 _ _ Hlen) as [nd Hnd].
    by exists (Heap (a + 1)), nd.
  - vm_compute. repeat split.
Qed.
